(** * GetXPosure: the spatio-temporal matching engine

    A shallow embedding of [location_matching.py] ([EDM] and
    [show_matches]) over IEEE 754 binary64 numbers, the element type of
    the numpy arrays the engine computes with, together with the
    properties of the engine stated in the specification. *)

From Stdlib Require Import Reals Lra String.
From Stdlib Require Import ZArith Lia List Bool Arith Sorted.
From Stdlib Require Import Uint63 Floats.
From Equations Require Import Equations.
Import ListNotations.


(** * Part I. numpy operations

    The array operations [location_matching.py] calls, on Python lists
    of rows.  A two-dimensional array is the list of its rows. *)

Module np.

Definition matrix (A : Type) : Type := list (list A).

(** [M[i][j]], when both indices are in range. *)
Definition entry {A : Type} (M : matrix A) (i j : nat) : option A :=
  match nth_error M i with
  | Some row => nth_error row j
  | None => None
  end.

(** [col[:, None] (op) row[None, :]]: broadcasting a column against a row. *)
Definition outer {A B C : Type} (op : A -> B -> C) (col : list A) (row : list B)
  : matrix C :=
  map (fun c => map (fun r => op c r) row) col.

(** Element-wise binary operation on arrays of one shape. *)
Fixpoint map2 {A B C : Type} (op : A -> B -> C) (xs : list A) (ys : list B)
  : list C :=
  match xs, ys with
  | x :: xs', y :: ys' => op x y :: map2 op xs' ys'
  | _, _ => []
  end.

Definition mmap {A B : Type} (f : A -> B) (M : matrix A) : matrix B :=
  map (map f) M.

Definition mmap2 {A B C : Type} (op : A -> B -> C) (M : matrix A) (N : matrix B)
  : matrix C :=
  map2 (map2 op) M N.

(** [np.where(cond)] on a two-dimensional boolean array: the row and
    column indices of the true cells, in row-major order. *)
Fixpoint where_row (i j : nat) (row : list bool) : list (nat * nat) :=
  match row with
  | [] => []
  | b :: row' => (if b then [(i, j)] else []) ++ where_row i (S j) row'
  end.

Fixpoint where_from (i : nat) (cond : matrix bool) : list (nat * nat) :=
  match cond with
  | [] => []
  | row :: cond' => where_row i 0 row ++ where_from (S i) cond'
  end.

Definition where_ (cond : matrix bool) : list nat * list nat :=
  let hits := where_from 0 cond in (map fst hits, map snd hits).

(** Row-major order on index pairs: by row, then by column. *)
Definition row_major_lt (p q : nat * nat) : Prop :=
  (fst p < fst q)%nat \/ (fst p = fst q /\ (snd p < snd q)%nat).

(** [np.rint]: the nearest integer, ties to the even one.  A finite
    binary64 number is [m * 2^e]; with [e >= 0] it is an integer
    already, otherwise the integer nearest to [m / 2^-e] is below
    [2^53] and converts exactly. *)
Definition Zrne (m k : Z) : Z :=
  let q := (m / 2 ^ k)%Z in
  let r := (m mod 2 ^ k)%Z in
  match (2 * r ?= 2 ^ k)%Z with
  | Lt => q
  | Gt => (q + 1)%Z
  | Eq => if Z.even q then q else (q + 1)%Z
  end.

Definition rint (x : float) : float :=
  match Prim2SF x with
  | S754_finite s m e =>
      if (0 <=? e)%Z then x
      else
        let r := of_uint63 (Uint63.of_Z (Zrne (Zpos m) (- e))) in
        if s then (- r)%float else r
  | _ => x
  end.

(** [np.round(x, 2)]: numpy scales by [10**2], applies [rint] and
    divides by [10**2]. *)
Definition round2 (x : float) : float := (rint (x * 100) / 100)%float.

End np.

(** * Part II. The engine: [location_matching.py] *)

(** ** Arithmetic of the distance computation

    [EDM] uses addition, multiplication, the literal [-2], a square root
    and the rounding to two decimals.  It is stated over this interface;
    numpy instantiates it with binary64 ([binary64] below), and the
    reference reading of the squared-distance identity is its instance
    on the real numbers ([exact]). *)
Record arith (num : Type) : Type := {
  add : num -> num -> num;
  sub : num -> num -> num;
  mul : num -> num -> num;
  minus_two : num;
  sqrt : num -> num;
  round2 : num -> num
}.
Arguments add {num} _ _ _.
Arguments sub {num} _ _ _.
Arguments mul {num} _ _ _.
Arguments minus_two {num} _.
Arguments sqrt {num} _ _.
Arguments round2 {num} _ _.

Definition binary64 : arith float := {|
  add := PrimFloat.add;
  sub := PrimFloat.sub;
  mul := PrimFloat.mul;
  minus_two := (-2)%float;
  sqrt := PrimFloat.sqrt;
  round2 := np.round2
|}.

Section EDM.
Context {num : Type} (ar : arith num).

Definition point : Type := (num * num)%type.

(** [np.sum(A**2, axis=1)] *)
Definition sum_sq (A : list point) : list num :=
  map (fun a => add ar (mul ar (fst a) (fst a)) (mul ar (snd a) (snd a))) A.

(** [np.dot(A, B.T)] *)
Definition dot (A B : list point) : np.matrix num :=
  np.outer (fun a b => add ar (mul ar (fst a) (fst b)) (mul ar (snd a) (snd b))) A B.

(** [p1 + p2 + p3], the matrix handed to [np.sqrt]. *)
Definition radicand (A B : list point) : np.matrix num :=
  let p1 := sum_sq A in
  let p2 := sum_sq B in
  let p3 := np.mmap (mul ar (minus_two ar)) (dot A B) in
  np.mmap2 (add ar) (np.outer (add ar) p1 p2) p3.

Definition EDM (A B : list point) : np.matrix num :=
  np.mmap (round2 ar) (np.mmap (sqrt ar) (radicand A B)).

(** One cell of [p1 + p2 + p3] and of [EDM], for the points of its
    row and column (see [entry_radicand] and [entry_EDM]). *)
Definition radicand_at (a b : point) : num :=
  add ar
    (add ar (add ar (mul ar (fst a) (fst a)) (mul ar (snd a) (snd a)))
            (add ar (mul ar (fst b) (fst b)) (mul ar (snd b) (snd b))))
    (mul ar (minus_two ar)
       (add ar (mul ar (fst a) (fst b)) (mul ar (snd a) (snd b)))).

Definition distance_at (a b : point) : num :=
  round2 ar (sqrt ar (radicand_at a b)).

(** The per-pair reference: [sqrt((ax-bx)^2 + (ay-by)^2)]. *)
Definition naive_distance (a b : point) : num :=
  let dx := sub ar (fst a) (fst b) in
  let dy := sub ar (snd a) (snd b) in
  sqrt ar (add ar (mul ar dx dx) (mul ar dy dy)).
End EDM.

(** ** The two datasets *)

(** A pandas timestamp; the engine only displays it. *)
Definition datetime : Type := Z.

(** A row of [gpx_gdf]; [tp_geometry] is its [geometry] column, the
    projected [(x, y)]. *)
Record TrackPoint : Type := {
  tp_geometry : float * float;
  time_epoch : float;
  time : datetime;
  latitude : float;
  longitude : float
}.

(** A row of [exp_gdf]; [geometry] is the projected [(x, y)]. *)
Record ExposureSite : Type := {
  geometry : float * float;
  arrival_epoch : float;
  departure_epoch : float;
  USER_SiteName : string;
  USER_Contact : string;
  USER_Date : datetime;
  arrival_dt : datetime;
  departure_dt : datetime;
  X : float;
  Y : float
}.

(** ** Effects: the data frames, standard output, exceptions *)

(** One [print] call of [show_matches], with the values it interpolates
    (their formatting by [strftime] and [round(_, 4)] is presentation
    only). *)
Inductive Line : Type :=
| ExposuresFound
| WithinDistance (minimum_distance : float) (site_name contact : string)
                 (exp_date : datetime)
| FirstMatchingPoint (lat lon : float) (my_time : datetime)
| ExposurePoint (y x : float) (exp_arr exp_dept : datetime)
| AllGood.

Inductive Exn : Type :=
| ValueError   (* np.vstack of an empty sequence *)
| IndexError.  (* .iloc out of bounds *)

(** The objects a call of [show_matches] can reach: the two data frames
    it is handed (by reference) and standard output. *)
Record World : Type := {
  gpx_gdf : list TrackPoint;
  exp_gdf : list ExposureSite;
  stdout : list Line
}.

Definition M (A : Type) : Type := World -> (Exn + A) * World.

Definition ret {A : Type} (a : A) : M A := fun w => (inr a, w).

Definition raise {A : Type} (e : Exn) : M A := fun w => (inl e, w).

Definition bind {A B : Type} (m : M A) (k : A -> M B) : M B :=
  fun w =>
    match m w with
    | (inr a, w') => k a w'
    | (inl e, w') => (inl e, w')
    end.

Declare Scope monad_scope.
Delimit Scope monad_scope with monad.
Notation "x <- m ;; k" := (bind m (fun x => k))
  (at level 61, m at next level, right associativity) : monad_scope.
Notation "m ;; k" := (bind m (fun _ => k))
  (at level 61, right associativity) : monad_scope.
Local Open Scope monad_scope.

(** [gpx_gdf[c]]: a column of the track-point frame. *)
Definition gpx_column {A : Type} (c : TrackPoint -> A) : M (list A) :=
  fun w => (inr (map c (gpx_gdf w)), w).

(** [exp_gdf[c]]: a column of the exposure-site frame. *)
Definition exp_column {A : Type} (c : ExposureSite -> A) : M (list A) :=
  fun w => (inr (map c (exp_gdf w)), w).

(** [gpx_gdf.iloc[i]] *)
Definition gpx_iloc (i : nat) : M TrackPoint :=
  fun w =>
    match nth_error (gpx_gdf w) i with
    | Some row => (inr row, w)
    | None => (inl IndexError, w)
    end.

(** [exp_gdf.iloc[j]] *)
Definition exp_iloc (j : nat) : M ExposureSite :=
  fun w =>
    match nth_error (exp_gdf w) j with
    | Some row => (inr row, w)
    | None => (inl IndexError, w)
    end.

Definition print (l : Line) : M unit :=
  fun w =>
    (inr tt, {| gpx_gdf := gpx_gdf w; exp_gdf := exp_gdf w;
                stdout := stdout w ++ [l] |}).

(** [np.vstack(points)]: one row per point; numpy raises [ValueError]
    ("need at least one array to concatenate") on an empty sequence. *)
Definition vstack (points : list (float * float)) : M (list (float * float)) :=
  match points with
  | [] => raise ValueError
  | _ :: _ => ret points
  end.

(** ** [show_matches], lines 34-40: the query and the index pairs *)

Local Open Scope float_scope.

(** Line 37: the query on the stacked array
    [(distances, pre_array, post_array)]. *)
Definition query (exposure_array : np.matrix float * np.matrix float * np.matrix float)
    (minimum_distance : float) : np.matrix bool :=
  let '(e0, e1, e2) := exposure_array in
  np.mmap2 andb
    (np.mmap2 andb
       (np.mmap (fun x => x <? minimum_distance) e0)
       (np.mmap (fun x => x <? 0) e1))
    (np.mmap (fun x => 0 <? x) e2).

(** Line 40: [[(results[0][n], results[1][n]) for n in range(len(results[0]))]]. *)
Definition pair_up (results : list nat * list nat) : list (nat * nat) :=
  map (fun n => (nth n (fst results) 0%nat, nth n (snd results) 0%nat))
      (seq 0 (length (fst results))).

(** ** [show_matches], lines 43-66: the report *)

(** Line 50: drop every pair on the exposure site [exp_id]. *)
Definition remove_site (exp_id : nat) (index_pairs : list (nat * nat))
  : list (nat * nat) :=
  filter (fun pair => negb (exp_id =? snd pair)%nat) index_pairs.

(** The three [print] calls of one report. *)
Definition report (minimum_distance : float) (my_point : TrackPoint)
    (exposure_location : ExposureSite) : M unit :=
  print (WithinDistance minimum_distance (USER_SiteName exposure_location)
           (USER_Contact exposure_location) (USER_Date exposure_location)) ;;
  print (FirstMatchingPoint (latitude my_point) (longitude my_point)
           (time my_point)) ;;
  print (ExposurePoint (Y exposure_location) (X exposure_location)
           (arrival_dt exposure_location) (departure_dt exposure_location)).

(** The [while len(index_pairs) > 0] loop. *)
Equations? report_loop (minimum_distance : float) (index_pairs : list (nat * nat))
  : M unit by wf (length index_pairs) lt :=
report_loop minimum_distance [] := ret tt;
report_loop minimum_distance ((gpx_id, exp_id) :: rest) :=
  my_point <- gpx_iloc gpx_id ;;
  exposure_location <- exp_iloc exp_id ;;
  report minimum_distance my_point exposure_location ;;
  report_loop minimum_distance (remove_site exp_id ((gpx_id, exp_id) :: rest)).
Proof.
  rewrite Nat.eqb_refl. cbn [negb]. apply Nat.lt_succ_r, filter_length_le.
Qed.

(** [show_matches(gpx_gdf, exp_gdf, minimum_distance)]; the two frames
    are those of the world. *)
Definition show_matches (minimum_distance : float) : M unit :=
  (* Get the euclidean distance matrices *)
  gpx_geometry <- gpx_column tp_geometry ;;
  A <- vstack gpx_geometry ;;
  exp_geometry <- exp_column geometry ;;
  B <- vstack exp_geometry ;;
  let distances := EDM binary64 A B in
  (* Get the arrival/departure time and presence time difference matrices *)
  arrivals <- exp_column arrival_epoch ;;
  departures <- exp_column departure_epoch ;;
  presence <- gpx_column time_epoch ;;
  (* arrival - my time, so I was there after their arrival if it's negative *)
  let pre_array := np.outer (fun t a => a - t) presence arrivals in
  (* departure - my time, so I was there before their departure if it's positive *)
  let post_array := np.outer (fun t d => d - t) presence departures in
  (* Create a stacked array of distances and time differences *)
  let exposure_array := (distances, pre_array, post_array) in
  (* Query for the points where distance and time differences indicate a match *)
  let results := np.where_ (query exposure_array minimum_distance) in
  (* Turn the query into indices for the geodataframes *)
  let index_pairs := pair_up results in
  (* Report each matched pair of exposure location and first matching gpx point *)
  if (0 <? length index_pairs)%nat then
    print ExposuresFound ;;
    report_loop minimum_distance index_pairs
  else
    print AllGood.

(** The default of the keyword argument. *)
Definition default_minimum_distance : float := 100.

(** ** The engine's intermediate results, as functions of the data *)

(** [distances] of line 24. *)
Definition distances (gpx : list TrackPoint) (exp : list ExposureSite)
  : np.matrix float :=
  EDM binary64 (map tp_geometry gpx) (map geometry exp).

(** The query matrix of line 37. *)
Definition query_matrix (gpx : list TrackPoint) (exp : list ExposureSite)
    (minimum_distance : float) : np.matrix bool :=
  query (distances gpx exp,
         np.outer (fun t a => a - t) (map time_epoch gpx) (map arrival_epoch exp),
         np.outer (fun t d => d - t) (map time_epoch gpx) (map departure_epoch exp))
        minimum_distance.

(** The MatchCandidates: [index_pairs] of line 40. *)
Definition match_candidates (gpx : list TrackPoint) (exp : list ExposureSite)
    (minimum_distance : float) : list (nat * nat) :=
  pair_up (np.where_ (query_matrix gpx exp minimum_distance)).

(** The pairs [(gpx_id, exp_id)] the loop reports, in order: the head of
    [index_pairs] at each iteration. *)
Equations? selected (index_pairs : list (nat * nat)) : list (nat * nat)
  by wf (List.length index_pairs) lt :=
selected [] := [];
selected ((gpx_id, exp_id) :: rest) :=
  (gpx_id, exp_id) :: selected (remove_site exp_id ((gpx_id, exp_id) :: rest)).
Proof.
  rewrite Nat.eqb_refl. cbn [negb]. apply Nat.lt_succ_r, filter_length_le.
Qed.

(** The Report Entries of a run: (track-point index, site index). *)
Definition report_entries (gpx : list TrackPoint) (exp : list ExposureSite)
    (minimum_distance : float) : list (nat * nat) :=
  selected (match_candidates gpx exp minimum_distance).

(** What the loop prints for one entry. *)
Definition entry_lines (gpx : list TrackPoint) (exp : list ExposureSite)
    (minimum_distance : float) (e : nat * nat) : list Line :=
  match nth_error gpx (fst e), nth_error exp (snd e) with
  | Some my_point, Some exposure_location =>
      [WithinDistance minimum_distance (USER_SiteName exposure_location)
         (USER_Contact exposure_location) (USER_Date exposure_location);
       FirstMatchingPoint (latitude my_point) (longitude my_point)
         (time my_point);
       ExposurePoint (Y exposure_location) (X exposure_location)
         (arrival_dt exposure_location) (departure_dt exposure_location)]
  | _, _ => []
  end.

(** One pass of the loop on the list of pairs: [None] when the loop
    condition fails, otherwise the list after line 50. *)
Definition loop_step (index_pairs : list (nat * nat)) : option (list (nat * nat)) :=
  match index_pairs with
  | [] => None
  | (gpx_id, exp_id) :: _ => Some (remove_site exp_id index_pairs)
  end.

(** What a run prints, and how it ends, as a function of the data. *)
Definition rendered (gpx : list TrackPoint) (exp : list ExposureSite)
    (minimum_distance : float) : list Line :=
  if (0 <? List.length (match_candidates gpx exp minimum_distance))%nat then
    ExposuresFound
      :: flat_map (entry_lines gpx exp minimum_distance)
           (report_entries gpx exp minimum_distance)
  else [AllGood].

Definition outcome (gpx : list TrackPoint) (exp : list ExposureSite)
    (minimum_distance : float) : (Exn + unit) * list Line :=
  match gpx, exp with
  | [], _ | _, [] => (inl ValueError, [])
  | _ :: _, _ :: _ => (inr tt, rendered gpx exp minimum_distance)
  end.

(** The world after printing [out]. *)
Definition printed (w : World) (out : list Line) : World :=
  {| gpx_gdf := gpx_gdf w; exp_gdf := exp_gdf w; stdout := stdout w ++ out |}.

(** ** Inputs of the specification's scenarios *)

Definition track_point (x y t : float) : TrackPoint :=
  {| tp_geometry := (x, y); time_epoch := t; time := 0%Z;
     latitude := 0; longitude := 0 |}.

Definition exposure_site (x y arrival departure : float) : ExposureSite :=
  {| geometry := (x, y); arrival_epoch := arrival; departure_epoch := departure;
     USER_SiteName := "site"; USER_Contact := "Casual"; USER_Date := 0%Z;
     arrival_dt := 0%Z; departure_dt := 0%Z; X := x; Y := y |}.

Definition world (gpx : list TrackPoint) (exp : list ExposureSite) : World :=
  {| gpx_gdf := gpx; exp_gdf := exp; stdout := [] |}.

(** ** The exact reading of the arithmetic *)

(** The nearest integer, ties to even, on the real numbers. *)
Definition Rrint (x : R) : R :=
  let f := Int_part x in
  let d := frac_part x in
  if Rlt_dec d (1 / 2) then IZR f
  else if Rlt_dec (1 / 2) d then IZR (f + 1)
  else if Z.even f then IZR f else IZR (f + 1).

Definition round2_R (x : R) : R := (Rrint (x * 100) / 100)%R.

Definition exact : arith R := {|
  add := Rplus;
  sub := Rminus;
  mul := Rmult;
  minus_two := (-2)%R;
  sqrt := R_sqrt.sqrt;
  round2 := round2_R
|}.

(** [|d - n| <= 0.01], the tolerance of the specification; the literal
    is the binary64 number that [0.01] denotes. *)
Definition within_tolerance (d n : float) : bool :=
  abs (d - n) <=? 0x1.47ae147ae147bp-7.

(** ** The real number a binary64 datum denotes *)

Module B64_real.
Local Open Scope R_scope.

(** [2^e] as a real number. *)
Definition bpow (e : Z) : R := powerRZ 2 e.

(** The real number a binary64 datum denotes; [0] for what is not a
    finite number. *)
Definition SF2R (x : spec_float) : R :=
  match x with
  | S754_finite s m e => IZR (cond_Zopp s (Zpos m)) * bpow e
  | _ => 0
  end.

Definition sf_finite (x : spec_float) : bool :=
  match x with
  | S754_zero _ | S754_finite _ _ _ => true
  | _ => false
  end.

Definition value (x : float) : R := SF2R (Prim2SF x).

Definition finite (x : float) : bool := sf_finite (Prim2SF x).

(** The relative and the absolute error of one rounding. *)
Definition eps : R := bpow (-52).
Definition eta : R := bpow (-1074).

End B64_real.

(** The coordinates for which the accuracy of [EDM] is stated: binary64
    numbers of magnitude at most [2^26] (projected coordinates in metres
    stay below [10^7]). *)
Definition in_range (x : float) : bool := abs x <=? 0x1p26.

Definition point_in_range (a : float * float) : bool :=
  in_range (fst a) && in_range (snd a).

(** The position a binary64 point denotes, the squared distance of a
    position from the origin, and the exact distance of two binary64
    points. *)
Definition real_point (a : float * float) : R * R :=
  (B64_real.value (fst a), B64_real.value (snd a)).

Definition sq_norm (a : R * R) : R := (fst a * fst a + snd a * snd a)%R.

Definition separation (a b : float * float) : R :=
  naive_distance exact (real_point a) (real_point b).

(** Two points 3 cm apart, and two points 14 cm apart, in the projected
    coordinates of the data (MGA zone 55, metres). *)
Definition near_track : float * float := (693205.0625, 6090425.125).
Definition near_site : float * float := (693205.09375, 6090425.125).
Definition close_track : float * float := (694778.0625, 6090825).
Definition close_site : float * float := (694778.203125, 6090825).

(** * Part III. Binary64 arithmetic

    numpy's [float64] is the primitive type [float]; its operations are
    specified by [SpecFloat] through the axioms of [FloatAxioms].  The
    lemmas below are the facts about signs, ordering and NaN that the
    engine's predicate relies on. *)

Module B64.

Local Open Scope Z_scope.

(** [signed_as s x]: [x] is a number (not NaN) that carries the sign [s]. *)
Definition signed_as (s : bool) (x : spec_float) : Prop :=
  match x with
  | S754_zero s' | S754_infinity s' | S754_finite s' _ _ => s' = s
  | S754_nan => False
  end.

(** [nonzero_as s x]: [x] is a non-zero number that carries the sign [s]. *)
Definition nonzero_as (s : bool) (x : spec_float) : Prop :=
  match x with
  | S754_infinity s' | S754_finite s' _ _ => s' = s
  | S754_zero _ | S754_nan => False
  end.

(** Every finite binary64 number is an integer multiple of [2 ^ -1074];
    [SF2Z] is that integer, and the infinities are sent beyond every
    finite value. *)
Definition inf_key : Z := 2 ^ 2200.

Definition SF2Z (x : spec_float) : Z :=
  match x with
  | S754_zero _ => 0
  | S754_nan => 0
  | S754_infinity s => cond_Zopp s inf_key
  | S754_finite s m e => cond_Zopp s (Zpos m * 2 ^ (e + 1074))
  end.

Definition is_nan_sf (x : spec_float) : bool :=
  match x with S754_nan => true | _ => false end.

(** The same integer, for a primitive float. *)
Definition key (x : float) : Z := SF2Z (Prim2SF x).

(** ** Binary digits *)

Lemma digits2_pos_bounds (p : positive) :
  2 ^ (Zpos (digits2_pos p) - 1) <= Zpos p < 2 ^ Zpos (digits2_pos p).
Proof.
  induction p as [p IH | p IH |]; cbn [digits2_pos].
  - rewrite Pos2Z.inj_succ.
    replace (Z.succ (Zpos (digits2_pos p)) - 1) with (Z.succ (Zpos (digits2_pos p) - 1)) by lia.
    rewrite !Z.pow_succ_r by lia. lia.
  - rewrite Pos2Z.inj_succ.
    replace (Z.succ (Zpos (digits2_pos p)) - 1) with (Z.succ (Zpos (digits2_pos p) - 1)) by lia.
    rewrite !Z.pow_succ_r by lia. lia.
  - cbn. lia.
Qed.

(** ** Canonical representations *)

Lemma bounded_inv (m : positive) (e : Z) :
  bounded prec emax m e = true ->
  Zpos (digits2_pos m) <= 53 /\ -1074 <= e <= 971 /\
  (e = -1074 \/ Zpos (digits2_pos m) = 53).
Proof.
  unfold bounded, canonical_mantissa, fexp, SpecFloat.emin, prec, emax.
  rewrite andb_true_iff, Z.eqb_eq, Z.leb_le. lia.
Qed.

(** ** Right shifts of the rounding record *)

Lemma shr_1_m (mrs : shr_record) :
  0 <= shr_m mrs -> shr_m (shr_1 mrs) = shr_m mrs / 2.
Proof.
  destruct mrs as [m r s]; cbn [shr_m shr_1]. intros Hm.
  destruct m as [| p | p]; [reflexivity | | lia].
  destruct p as [p | p |]; cbn [shr_m].
  - apply Z.div_unique with 1; lia.
  - apply Z.div_unique with 0; lia.
  - reflexivity.
Qed.

Lemma pow2_xI (p : positive) : 2 ^ Zpos p~1 = 2 * 2 ^ Zpos p * 2 ^ Zpos p.
Proof.
  replace (Zpos p~1) with (1 + Zpos p + Zpos p) by lia.
  rewrite !Z.pow_add_r by lia. rewrite Z.pow_1_r. reflexivity.
Qed.

Lemma pow2_xO (p : positive) : 2 ^ Zpos p~0 = 2 ^ Zpos p * 2 ^ Zpos p.
Proof.
  replace (Zpos p~0) with (Zpos p + Zpos p) by lia.
  rewrite !Z.pow_add_r by lia. reflexivity.
Qed.

Lemma iter_shr_1_m (p : positive) : forall mrs : shr_record,
  0 <= shr_m mrs ->
  shr_m (iter_pos shr_1 p mrs) = shr_m mrs / 2 ^ Zpos p.
Proof.
  induction p as [p IH | p IH |]; intros mrs Hm; cbn [iter_pos].
  - assert (Hp : 0 < 2 ^ Zpos p) by (apply Z.pow_pos_nonneg; lia).
    assert (H1 : 0 <= shr_m (shr_1 mrs)).
    { rewrite shr_1_m by assumption. apply Z.div_pos; lia. }
    assert (H2 : 0 <= shr_m (iter_pos shr_1 p (shr_1 mrs))).
    { rewrite IH by assumption. apply Z.div_pos; assumption. }
    rewrite IH by assumption. rewrite IH by assumption. rewrite shr_1_m by assumption.
    rewrite pow2_xI, !Z.div_div by lia. f_equal. lia.
  - assert (Hp : 0 < 2 ^ Zpos p) by (apply Z.pow_pos_nonneg; lia).
    assert (H2 : 0 <= shr_m (iter_pos shr_1 p mrs)).
    { rewrite IH by assumption. apply Z.div_pos; assumption. }
    rewrite IH by assumption. rewrite IH by assumption.
    rewrite pow2_xO, !Z.div_div by lia. f_equal.
  - rewrite shr_1_m by assumption. reflexivity.
Qed.

Lemma shr_record_of_loc_m (m : Z) (l : location) :
  shr_m (shr_record_of_loc m l) = m.
Proof. destruct l as [| []]; reflexivity. Qed.

Lemma shr_m_nonneg (mrs : shr_record) (e n : Z) :
  0 <= shr_m mrs -> 0 <= shr_m (fst (shr mrs e n)).
Proof.
  intros Hm. destruct n as [| p | p]; cbn [shr fst]; try assumption.
  rewrite iter_shr_1_m by assumption.
  apply Z.div_pos; [assumption | apply Z.pow_pos_nonneg; lia].
Qed.

Lemma round_nearest_even_ge (m : Z) (l : location) :
  m <= round_nearest_even m l.
Proof.
  destruct l as [| []]; cbn [round_nearest_even]; try lia.
  destruct (Z.even m); lia.
Qed.

(** ** Sign of a rounded result *)

Lemma nonzero_as_signed_as (s : bool) (x : spec_float) :
  nonzero_as s x -> signed_as s x.
Proof. destruct x; cbn; tauto. Qed.

Lemma shr_fexp_nonneg (m e : Z) (l : location) :
  0 <= m -> 0 <= shr_m (fst (shr_fexp prec emax m e l)).
Proof.
  intros Hm. unfold shr_fexp. apply shr_m_nonneg.
  rewrite shr_record_of_loc_m. assumption.
Qed.

Lemma binary_round_aux_sign (s : bool) (m e : Z) (l : location) :
  0 <= m -> signed_as s (binary_round_aux prec emax s m e l).
Proof.
  intros Hm. unfold binary_round_aux.
  pose proof (shr_fexp_nonneg m e l Hm) as H1.
  destruct (shr_fexp prec emax m e l) as [mrs' e']. cbn [fst] in H1.
  pose proof (round_nearest_even_ge (shr_m mrs') (loc_of_shr_record mrs')) as H2.
  pose proof (shr_fexp_nonneg (round_nearest_even (shr_m mrs') (loc_of_shr_record mrs'))
                e' loc_Exact ltac:(lia)) as H3.
  destruct (shr_fexp prec emax _ e' loc_Exact) as [mrs'' e'']. cbn [fst] in H3.
  destruct (shr_m mrs'') as [| q | q]; [reflexivity | | lia].
  destruct (e'' <=? emax - prec); reflexivity.
Qed.

Lemma shr_fexp_pos (m e : Z) (l : location) :
  0 < m -> -1074 <= e ->
  0 < shr_m (fst (shr_fexp prec emax m e l)) /\ -1074 <= snd (shr_fexp prec emax m e l).
Proof.
  intros Hm He. unfold shr_fexp, shr.
  destruct m as [| p | p]; try lia. cbn [Zdigits2].
  pose proof (digits2_pos_bounds p) as [Hlo _].
  set (d := Zpos (digits2_pos p)) in *.
  assert (Hd : 0 < d) by (unfold d; lia).
  destruct (fexp prec emax (d + e) - e) as [| n | n] eqn:Hn; cbn [fst snd];
    rewrite ?shr_record_of_loc_m; try lia.
  unfold fexp, SpecFloat.emin, prec, emax in Hn.
  assert (Hnd : Zpos n = d - 53) by lia.
  split; [| lia].
  rewrite iter_shr_1_m by (rewrite shr_record_of_loc_m; lia).
  rewrite shr_record_of_loc_m.
  apply Z.div_str_pos. split; [apply Z.pow_pos_nonneg; lia |].
  apply Z.le_trans with (2 ^ (d - 1)); [| assumption].
  apply Z.pow_le_mono_r; lia.
Qed.

Lemma binary_round_aux_nonzero (s : bool) (m e : Z) (l : location) :
  0 < m -> -1074 <= e -> nonzero_as s (binary_round_aux prec emax s m e l).
Proof.
  intros Hm He. unfold binary_round_aux.
  destruct (shr_fexp_pos m e l Hm He) as [H1 H1e].
  destruct (shr_fexp prec emax m e l) as [mrs' e']. cbn [fst snd] in H1, H1e.
  pose proof (round_nearest_even_ge (shr_m mrs') (loc_of_shr_record mrs')) as H2.
  destruct (shr_fexp_pos (round_nearest_even (shr_m mrs') (loc_of_shr_record mrs'))
              e' loc_Exact ltac:(lia) H1e) as [H3 _].
  destruct (shr_fexp prec emax _ e' loc_Exact) as [mrs'' e'']. cbn [fst] in H3.
  destruct (shr_m mrs'') as [| q | q]; try lia.
  destruct (e'' <=? emax - prec); reflexivity.
Qed.

Lemma binary_round_nonzero (s : bool) (m : positive) (e : Z) :
  -1074 <= e -> nonzero_as s (binary_round prec emax s m e).
Proof.
  intros He. unfold binary_round, shl_align.
  set (e' := fexp prec emax (Zpos (digits2_pos m) + e)).
  assert (He' : -1074 <= e') by (unfold e', fexp, SpecFloat.emin, prec, emax; lia).
  destruct (e' - e) as [| d | d]; apply binary_round_aux_nonzero; lia.
Qed.

Lemma binary_normalize_sign (m e : Z) :
  -1074 <= e ->
  match m with
  | Z0 => binary_normalize prec emax m e false = S754_zero false
  | Zpos _ => nonzero_as false (binary_normalize prec emax m e false)
  | Zneg _ => nonzero_as true (binary_normalize prec emax m e false)
  end.
Proof.
  intros He. destruct m; cbn [binary_normalize];
    [reflexivity | apply binary_round_nonzero; assumption ..].
Qed.

(** ** Ordering of binary64 numbers

    On valid numbers [SFcompare] is the comparison of the integers
    [SF2Z]. *)

Lemma inf_key_pos : 0 < inf_key.
Proof. unfold inf_key. apply Z.pow_pos_nonneg; lia. Qed.

Lemma finite_key_bounds (m : positive) (e : Z) :
  bounded prec emax m e = true ->
  0 < Zpos m * 2 ^ (e + 1074) < inf_key.
Proof.
  intros Hb. apply bounded_inv in Hb. destruct Hb as (Hd & He & _).
  pose proof (digits2_pos_bounds m) as [_ Hhi].
  assert (Hp : 0 < 2 ^ (e + 1074)) by (apply Z.pow_pos_nonneg; lia).
  split; [apply Z.mul_pos_pos; lia |].
  apply Z.lt_le_trans with (2 ^ 53 * 2 ^ (e + 1074)).
  - apply Z.mul_lt_mono_pos_r; [assumption |].
    apply Z.lt_le_trans with (2 ^ Zpos (digits2_pos m)); [assumption |].
    apply Z.pow_le_mono_r; lia.
  - rewrite <- Z.pow_add_r by lia. unfold inf_key. apply Z.pow_le_mono_r; lia.
Qed.

Lemma finite_key_exp_lt (m1 m2 : positive) (e1 e2 : Z) :
  bounded prec emax m1 e1 = true -> bounded prec emax m2 e2 = true ->
  e1 < e2 ->
  Zpos m1 * 2 ^ (e1 + 1074) < Zpos m2 * 2 ^ (e2 + 1074).
Proof.
  intros H1 H2 Hlt.
  apply bounded_inv in H1. destruct H1 as (Hd1 & He1 & _).
  apply bounded_inv in H2. destruct H2 as (Hd2 & He2 & Hn2).
  assert (Hd : Zpos (digits2_pos m2) = 53) by lia.
  pose proof (digits2_pos_bounds m1) as [_ Hhi1].
  pose proof (digits2_pos_bounds m2) as [Hlo2 _]. rewrite Hd in Hlo2.
  assert (Hm1 : Zpos m1 < 2 ^ 53).
  { apply Z.lt_le_trans with (2 ^ Zpos (digits2_pos m1)); [assumption |].
    apply Z.pow_le_mono_r; lia. }
  replace (e2 + 1074) with ((e2 - e1 - 1) + 1 + (e1 + 1074)) by lia.
  rewrite (Z.pow_add_r 2 (e2 - e1 - 1 + 1) (e1 + 1074)) by lia.
  rewrite (Z.pow_add_r 2 (e2 - e1 - 1) 1) by lia. rewrite Z.pow_1_r.
  assert (Hp : 0 < 2 ^ (e1 + 1074)) by (apply Z.pow_pos_nonneg; lia).
  assert (Hq : 0 < 2 ^ (e2 - e1 - 1)) by (apply Z.pow_pos_nonneg; lia).
  change (2 ^ (53 - 1)) with 4503599627370496 in Hlo2.
  change (2 ^ 53) with 9007199254740992 in Hm1.
  apply Z.lt_le_trans with (9007199254740992 * 2 ^ (e1 + 1074)).
  - apply Z.mul_lt_mono_pos_r; assumption.
  - rewrite Z.mul_assoc. apply Z.mul_le_mono_nonneg_r; [lia |].
    nia.
Qed.

Lemma compare_cont_Z (m1 m2 : positive) :
  Pos.compare_cont Eq m1 m2 = (Zpos m1 ?= Zpos m2).
Proof. reflexivity. Qed.

Lemma SFcompare_finite (s1 s2 : bool) (m1 m2 : positive) (e1 e2 : Z) :
  bounded prec emax m1 e1 = true -> bounded prec emax m2 e2 = true ->
  SFcompare (S754_finite s1 m1 e1) (S754_finite s2 m2 e2) =
  Some (SF2Z (S754_finite s1 m1 e1) ?= SF2Z (S754_finite s2 m2 e2)).
Proof.
  intros H1 H2. cbn [SFcompare SF2Z]. f_equal.
  pose proof (finite_key_bounds m1 e1 H1) as K1.
  pose proof (finite_key_bounds m2 e2 H2) as K2.
  pose proof (finite_key_exp_lt m1 m2 e1 e2 H1 H2) as L12.
  pose proof (finite_key_exp_lt m2 m1 e2 e1 H2 H1) as L21.
  assert (Heq : e1 = e2 ->
    (Zpos m1 ?= Zpos m2) = (Zpos m1 * 2 ^ (e1 + 1074) ?= Zpos m2 * 2 ^ (e2 + 1074))).
  { intros ->. apply Zmult_compare_compat_r. lia. }
  rewrite compare_cont_Z.
  destruct s1, s2; cbn [cond_Zopp]; symmetry.
  - rewrite Z.compare_opp.
    destruct (Z.compare_spec e1 e2) as [E | E | E].
    + rewrite (Heq E). apply Z.compare_antisym.
    + apply Z.compare_gt_iff. auto.
    + apply Z.compare_lt_iff. auto.
  - apply Z.compare_lt_iff. lia.
  - apply Z.compare_gt_iff. lia.
  - destruct (Z.compare_spec e1 e2) as [E | E | E].
    + symmetry. auto.
    + apply Z.compare_lt_iff. auto.
    + apply Z.compare_gt_iff. auto.
Qed.

Lemma SFcompare_SF2Z (x y : spec_float) :
  valid_binary x = true -> valid_binary y = true ->
  SFcompare x y =
  if is_nan_sf x || is_nan_sf y then None else Some (SF2Z x ?= SF2Z y).
Proof.
  intros Hx Hy. pose proof inf_key_pos as Hi.
  destruct x as [sx | sx | | sx mx ex], y as [sy | sy | | sy my ey];
    try reflexivity; cbn [valid_binary] in Hx, Hy;
    try (apply SFcompare_finite; assumption);
    cbn [SFcompare SF2Z is_nan_sf orb]; f_equal; symmetry;
    try pose proof (finite_key_bounds mx ex Hx);
    try pose proof (finite_key_bounds my ey Hy);
    repeat match goal with s : bool |- _ => destruct s end; cbn [cond_Zopp];
    first [ apply Z.compare_eq_iff; lia
          | apply Z.compare_lt_iff; lia
          | apply Z.compare_gt_iff; lia ].
Qed.

(** ** Sign of a difference *)

Lemma shl_align_fst (mx : positive) (ex ez : Z) :
  ez <= ex -> Zpos (fst (shl_align mx ex ez)) = Zpos mx * 2 ^ (ex - ez).
Proof.
  intros Hle. unfold shl_align.
  destruct (ez - ex) as [| d | d] eqn:Hd; cbn [fst]; try lia.
  - replace (ex - ez) with 0 by lia. lia.
  - replace (ex - ez) with (Zpos d) by lia.
    change (Pos.iter xO mx d) with (shift_pos d mx).
    rewrite shift_pos_correct, Z.pow_pos_fold. lia.
Qed.

Lemma SFsub_finite_key (sx sy : bool) (mx my : positive) (ex ey : Z) :
  -1074 <= ex -> -1074 <= ey ->
  exists M : Z,
    SF64sub (S754_finite sx mx ex) (S754_finite sy my ey) =
      binary_normalize prec emax M (Z.min ex ey) false /\
    M * 2 ^ (Z.min ex ey + 1074) =
      SF2Z (S754_finite sx mx ex) - SF2Z (S754_finite sy my ey).
Proof.
  intros Hx Hy. eexists. split; [reflexivity |].
  set (ez := Z.min ex ey).
  assert (Hzx : ez <= ex) by (unfold ez; lia).
  assert (Hzy : ez <= ey) by (unfold ez; lia).
  assert (Hz : -1074 <= ez) by (unfold ez; lia).
  rewrite !shl_align_fst by assumption. cbn [SF2Z].
  replace (ex + 1074) with ((ex - ez) + (ez + 1074)) by lia.
  replace (ey + 1074) with ((ey - ez) + (ez + 1074)) by lia.
  rewrite (Z.pow_add_r 2 (ex - ez)), (Z.pow_add_r 2 (ey - ez)) by lia.
  destruct sx, sy; cbn [cond_Zopp]; ring.
Qed.

Lemma SFltb_zero_nonzero (s : bool) (r : spec_float) :
  nonzero_as s r ->
  SFltb r (S754_zero false) = s /\ SFltb (S754_zero false) r = negb s.
Proof.
  destruct r as [? | s' | | s' m e]; cbn [nonzero_as]; try tauto;
    intros ->; destruct s; split; reflexivity.
Qed.

Lemma SFltb_SF2Z (x y : spec_float) :
  valid_binary x = true -> valid_binary y = true ->
  SFltb x y = negb (is_nan_sf x) && negb (is_nan_sf y) && (SF2Z x <? SF2Z y).
Proof.
  intros Hx Hy. unfold SFltb. rewrite (SFcompare_SF2Z x y Hx Hy).
  destruct (is_nan_sf x), (is_nan_sf y); reflexivity.
Qed.

Lemma SFsub_sign (x y : spec_float) :
  valid_binary x = true -> valid_binary y = true ->
  SFltb (SF64sub x y) (S754_zero false) = SFltb x y /\
  SFltb (S754_zero false) (SF64sub x y) = SFltb y x.
Proof.
  intros Hx Hy.
  destruct x as [sx | sx | | sx mx ex], y as [sy | sy | | sy my ey];
    try (repeat match goal with s : bool |- _ => destruct s end;
         split; reflexivity).
  rewrite (SFltb_SF2Z _ _ Hx Hy), (SFltb_SF2Z _ _ Hy Hx).
  cbn [is_nan_sf negb andb].
  cbn [valid_binary] in Hx, Hy.
  pose proof (bounded_inv _ _ Hx) as (_ & Hex & _).
  pose proof (bounded_inv _ _ Hy) as (_ & Hey & _).
  destruct (SFsub_finite_key sx sy mx my ex ey) as (M & -> & HM); try lia.
  assert (Hp : 0 < 2 ^ (Z.min ex ey + 1074)) by (apply Z.pow_pos_nonneg; lia).
  pose proof (binary_normalize_sign M (Z.min ex ey) ltac:(lia)) as HS.
  set (X := SF2Z (S754_finite sx mx ex)) in *.
  set (Y := SF2Z (S754_finite sy my ey)) in *.
  clearbody X Y.
  destruct M as [| q | q].
  - rewrite HS. assert (X = Y) by lia.
    split; cbn; symmetry; apply Z.ltb_ge; lia.
  - apply SFltb_zero_nonzero in HS. destruct HS as [-> ->].
    assert (Y < X) by nia.
    split; symmetry; [apply Z.ltb_ge | apply Z.ltb_lt]; lia.
  - apply SFltb_zero_nonzero in HS. destruct HS as [-> ->].
    assert (X < Y) by nia.
    split; symmetry; [apply Z.ltb_lt | apply Z.ltb_ge]; lia.
Qed.

(** ** The same facts on primitive floats *)

Local Open Scope float_scope.

Lemma Prim2SF_zero : Prim2SF 0 = S754_zero false.
Proof. reflexivity. Qed.

Lemma is_nan_spec (x : float) : is_nan x = is_nan_sf (Prim2SF x).
Proof.
  unfold is_nan. rewrite eqb_spec. unfold SFeqb.
  rewrite (SFcompare_SF2Z _ _ (Prim2SF_valid x) (Prim2SF_valid x)).
  destruct (is_nan_sf (Prim2SF x)); cbn [orb]; [reflexivity |].
  rewrite Z.compare_refl. reflexivity.
Qed.

Lemma ltb_key (x y : float) :
  (x <? y) = negb (is_nan x) && negb (is_nan y) && (key x <? key y)%Z.
Proof.
  rewrite ltb_spec, !is_nan_spec.
  apply SFltb_SF2Z; apply Prim2SF_valid.
Qed.

Lemma eqb_key (x y : float) :
  (x =? y) = negb (is_nan x) && negb (is_nan y) && (key x =? key y)%Z.
Proof.
  rewrite eqb_spec, !is_nan_spec. unfold SFeqb, key.
  rewrite (SFcompare_SF2Z _ _ (Prim2SF_valid x) (Prim2SF_valid y)).
  destruct (is_nan_sf (Prim2SF x)), (is_nan_sf (Prim2SF y)); try reflexivity.
  cbn [orb negb andb].
  destruct (Z.eqb_spec (SF2Z (Prim2SF x)) (SF2Z (Prim2SF y))) as [E | E],
           (Z.compare_spec (SF2Z (Prim2SF x)) (SF2Z (Prim2SF y))); try reflexivity; lia.
Qed.

Lemma leb_key (x y : float) :
  (x <=? y) = negb (is_nan x) && negb (is_nan y) && (key x <=? key y)%Z.
Proof.
  rewrite leb_spec, !is_nan_spec. unfold SFleb, key.
  rewrite (SFcompare_SF2Z _ _ (Prim2SF_valid x) (Prim2SF_valid y)).
  destruct (is_nan_sf (Prim2SF x)), (is_nan_sf (Prim2SF y)); reflexivity.
Qed.

(** [a - t < 0] holds exactly when [a < t]: rounding a difference never
    changes its sign, and never rounds a non-zero difference to zero. *)
Lemma ltb_sub_zero (a t : float) : (a - t <? 0) = (a <? t).
Proof.
  rewrite !ltb_spec, sub_spec, Prim2SF_zero.
  apply (SFsub_sign _ _ (Prim2SF_valid a) (Prim2SF_valid t)).
Qed.

(** [d - t > 0] holds exactly when [t < d]. *)
Lemma ltb_zero_sub (d t : float) : (0 <? d - t) = (t <? d).
Proof.
  rewrite !ltb_spec, sub_spec, Prim2SF_zero.
  apply (SFsub_sign _ _ (Prim2SF_valid d) (Prim2SF_valid t)).
Qed.

Lemma ltb_trans (a b c : float) :
  (a <? b) = true -> (b <? c) = true -> (a <? c) = true.
Proof.
  rewrite !ltb_key, !andb_true_iff, !Z.ltb_lt.
  intros [[-> _] H1] [[_ ->] H2]. repeat split. lia.
Qed.

Lemma ltb_asym (a b : float) : (a <? b) = true -> (b <? a) = false.
Proof.
  rewrite !ltb_key, !andb_true_iff, !Z.ltb_lt.
  intros [[-> ->] H1]. cbn [negb andb]. apply Z.ltb_ge. lia.
Qed.

Lemma eqb_not_ltb (a b : float) :
  (a =? b) = true -> (a <? b) = false /\ (b <? a) = false.
Proof.
  rewrite !ltb_key, eqb_key, !andb_true_iff, Z.eqb_eq.
  intros [[-> ->] H1]. cbn [negb andb]. split; apply Z.ltb_ge; lia.
Qed.

Lemma eqb_ltb_compat (a b t : float) :
  (a =? b) = true -> (t <? a) = (t <? b) /\ (a <? t) = (b <? t).
Proof.
  rewrite !ltb_key, eqb_key, !andb_true_iff, Z.eqb_eq.
  intros [[-> ->] ->]. split; reflexivity.
Qed.

End B64.

(** ** NaN and sign through [np.sqrt] and [np.round] *)

Module B64_round.
Import B64.
Local Open Scope Z_scope.

Definition sf_nonneg (x : spec_float) : bool :=
  match x with
  | S754_zero _ => true
  | S754_infinity s | S754_finite s _ _ => negb s
  | S754_nan => false
  end.

Lemma SFleb_zero (x : spec_float) : SFleb (S754_zero false) x = sf_nonneg x.
Proof. destruct x as [s | s | | s m e]; try destruct s; reflexivity. Qed.

Lemma signed_as_sign (s : bool) (r : spec_float) :
  signed_as s r -> is_nan_sf r = false /\ (s = false -> sf_nonneg r = true).
Proof.
  destruct r as [s' | s' | | s' m e]; cbn; try tauto;
    intros ->; split; try reflexivity; intros ->; reflexivity.
Qed.

Lemma sqrt_core_nonneg (m e : Z) :
  0 <= fst (fst (SFsqrt_core_binary prec emax m e)).
Proof.
  unfold SFsqrt_core_binary.
  set (e' := Z.min _ _). set (m' := match e - 2 * e' with Z0 => _ | _ => _ end).
  pose proof (Z.sqrtrem_sqrt m') as Hq. pose proof (Z.sqrt_nonneg m').
  destruct (Z.sqrtrem m') as [q r]. cbn [fst] in *. lia.
Qed.

Lemma SFsqrt_nan (x : spec_float) :
  is_nan_sf (SF64sqrt x) = is_nan_sf x || SFltb x (S754_zero false).
Proof.
  destruct x as [s | s | | s m e]; try destruct s; try reflexivity.
  unfold SF64sqrt, SFsqrt.
  pose proof (sqrt_core_nonneg (Zpos m) e) as Hq.
  destruct (SFsqrt_core_binary prec emax (Zpos m) e) as [[mz ez] lz].
  cbn [fst] in Hq.
  apply (signed_as_sign false), (binary_round_aux_sign false mz ez lz Hq).
Qed.

Lemma SFsqrt_nonneg (x : spec_float) :
  is_nan_sf (SF64sqrt x) = false -> sf_nonneg (SF64sqrt x) = true.
Proof.
  destruct x as [s | s | | s m e]; try destruct s; try reflexivity;
    try discriminate.
  intros _. unfold SF64sqrt, SFsqrt.
  pose proof (sqrt_core_nonneg (Zpos m) e) as Hq.
  destruct (SFsqrt_core_binary prec emax (Zpos m) e) as [[mz ez] lz].
  cbn [fst] in Hq.
  apply (signed_as_sign false); [| reflexivity].
  apply (binary_round_aux_sign false mz ez lz Hq).
Qed.

Lemma SFmul_pos_const (x : spec_float) (mc : positive) (ec : Z) :
  is_nan_sf (SF64mul x (S754_finite false mc ec)) = is_nan_sf x /\
  (sf_nonneg x = true -> sf_nonneg (SF64mul x (S754_finite false mc ec)) = true).
Proof.
  destruct x as [s | s | | s m e]; try destruct s; cbn; try (split; congruence).
  - destruct (signed_as_sign true _
      (binary_round_aux_sign true (Zpos (m * mc)) (e + ec) loc_Exact ltac:(lia))).
    split; [assumption | discriminate].
  - destruct (signed_as_sign false _
      (binary_round_aux_sign false (Zpos (m * mc)) (e + ec) loc_Exact ltac:(lia))).
    split; auto.
Qed.

Lemma div_core_nonneg (m1 : positive) (e1 : Z) (m2 : positive) (e2 : Z) :
  0 <= fst (fst (SFdiv_core_binary prec emax (Zpos m1) e1 (Zpos m2) e2)).
Proof.
  unfold SFdiv_core_binary.
  set (e' := Z.min _ _).
  set (m' := match e1 - e2 - e' with Z0 => _ | _ => _ end).
  assert (Hm : 0 <= m').
  { unfold m'. destruct (e1 - e2 - e'); try lia. apply Z.shiftl_nonneg. lia. }
  pose proof (Z.div_pos m' (Zpos m2) Hm ltac:(lia)) as Hq.
  unfold Z.div in Hq.
  destruct (Z.div_eucl m' (Zpos m2)) as [q r]. exact Hq.
Qed.

Lemma SFdiv_pos_const (x : spec_float) (mc : positive) (ec : Z) :
  is_nan_sf (SF64div x (S754_finite false mc ec)) = is_nan_sf x /\
  (sf_nonneg x = true -> sf_nonneg (SF64div x (S754_finite false mc ec)) = true).
Proof.
  destruct x as [s | s | | s m e]; try destruct s; cbn [SF64div SFdiv xorb];
    try (cbn; split; congruence).
  - pose proof (div_core_nonneg m e mc ec) as Hq.
    destruct (SFdiv_core_binary prec emax (Zpos m) e (Zpos mc) ec) as [[mz ez] lz].
    cbn [fst] in Hq.
    destruct (signed_as_sign true _ (binary_round_aux_sign true mz ez lz Hq)).
    split; [assumption | discriminate].
  - pose proof (div_core_nonneg m e mc ec) as Hq.
    destruct (SFdiv_core_binary prec emax (Zpos m) e (Zpos mc) ec) as [[mz ez] lz].
    cbn [fst] in Hq.
    destruct (signed_as_sign false _ (binary_round_aux_sign false mz ez lz Hq)).
    split; auto.
Qed.

Lemma of_uint63_sign (n : int) : signed_as false (Prim2SF (of_uint63 n)).
Proof.
  rewrite of_uint63_spec. pose proof (Uint63.to_Z_bounded n) as [Hn _].
  destruct (Uint63.to_Z n) as [| p | p]; [reflexivity | | lia].
  cbn [binary_normalize]. unfold binary_round.
  destruct (shl_align p 0 _) as [mz ez].
  apply binary_round_aux_sign. lia.
Qed.

Local Open Scope float_scope.

Lemma leb_zero (x : float) : (0 <=? x) = sf_nonneg (Prim2SF x).
Proof. rewrite leb_spec, Prim2SF_zero. apply SFleb_zero. Qed.

Lemma sqrt_is_nan (x : float) :
  is_nan (PrimFloat.sqrt x) = is_nan x || (x <? 0).
Proof.
  rewrite !is_nan_spec, sqrt_spec, ltb_spec, Prim2SF_zero. apply SFsqrt_nan.
Qed.

Lemma sqrt_nonneg (x : float) :
  is_nan (PrimFloat.sqrt x) = false -> (0 <=? PrimFloat.sqrt x) = true.
Proof.
  rewrite is_nan_spec, leb_zero, sqrt_spec. apply SFsqrt_nonneg.
Qed.

Lemma rint_sign (x : float) :
  is_nan (np.rint x) = is_nan x /\
  ((0 <=? x) = true -> (0 <=? np.rint x) = true).
Proof.
  unfold np.rint. rewrite !leb_zero.
  destruct (Prim2SF x) as [s | s | | s m e] eqn:Ex;
    try (rewrite Ex; split; [reflexivity | trivial]).
  destruct (0 <=? e)%Z; [rewrite Ex; split; [reflexivity | trivial] |].
  set (r := of_uint63 _).
  destruct (signed_as_sign false _ (of_uint63_sign (Uint63.of_Z (np.Zrne (Zpos m) (- e)))))
    as [Hn Hp]. fold r in Hn, Hp.
  rewrite (is_nan_spec x), Ex. cbn [is_nan_sf sf_nonneg].
  destruct s.
  - rewrite is_nan_spec, opp_spec. split; [| discriminate].
    destruct (Prim2SF r); cbn in *; congruence.
  - rewrite is_nan_spec. split; [exact Hn | intros _; apply Hp; reflexivity].
Qed.

Lemma Prim2SF_100 : Prim2SF 100 = S754_finite false 7036874417766400 (-46).
Proof. reflexivity. Qed.

Lemma round2_is_nan (x : float) : is_nan (np.round2 x) = is_nan x.
Proof.
  unfold np.round2.
  rewrite is_nan_spec, div_spec, Prim2SF_100.
  rewrite (proj1 (SFdiv_pos_const _ _ _)), <- is_nan_spec.
  rewrite (proj1 (rint_sign _)).
  rewrite is_nan_spec, mul_spec, Prim2SF_100.
  rewrite (proj1 (SFmul_pos_const _ _ _)), <- is_nan_spec. reflexivity.
Qed.

Lemma round2_nonneg (x : float) :
  (0 <=? x) = true -> (0 <=? np.round2 x) = true.
Proof.
  unfold np.round2. intros Hx.
  rewrite leb_zero, div_spec, Prim2SF_100.
  apply (proj2 (SFdiv_pos_const _ _ _)). rewrite <- leb_zero.
  apply (proj2 (rint_sign _)).
  rewrite leb_zero, mul_spec, Prim2SF_100.
  apply (proj2 (SFmul_pos_const _ _ _)). rewrite <- leb_zero. exact Hx.
Qed.

End B64_round.

(** ** Exact operations: integers in binary64 *)

Module B64_exact.
Import B64.
Local Open Scope Z_scope.

(** The canonical mantissa and exponent of the positive integer [p]. *)
Definition norm_mant (p : positive) : positive :=
  Z.to_pos (Zpos p * 2 ^ (53 - Zpos (digits2_pos p))).

Definition norm_exp (p : positive) : Z := Zpos (digits2_pos p) - 53.

(** The binary64 number of value [z], for [|z| < 2^53]. *)
Definition Zfloat_sf (z : Z) : spec_float :=
  match z with
  | Z0 => S754_zero false
  | Zpos p => S754_finite false (norm_mant p) (norm_exp p)
  | Zneg p => S754_finite true (norm_mant p) (norm_exp p)
  end.

(** [x] is the integer [z], with either sign when [z] is zero. *)
Definition int_sf (z : Z) (x : spec_float) : Prop :=
  Z.abs z < 2 ^ 53 /\ (x = Zfloat_sf z \/ (z = 0 /\ x = S754_zero true)).

(** The float [x] is the integer [z]. *)
Definition int_float (z : Z) (x : float) : Prop := int_sf z (Prim2SF x).

Lemma Zdigits2_unique (m d : Z) :
  2 ^ (d - 1) <= m < 2 ^ d -> 0 < m -> Zdigits2 m = d.
Proof.
  intros [Hlo Hhi] Hm. destruct m as [| p | p]; try lia. cbn [Zdigits2].
  pose proof (digits2_pos_bounds p) as [Plo Phi].
  set (D := Zpos (digits2_pos p)) in *.
  assert (HD : 0 < D) by (unfold D; lia).
  destruct (Z.lt_trichotomy D d) as [H | [H | H]]; [| assumption |].
  - assert (2 ^ D <= 2 ^ (d - 1)) by (apply Z.pow_le_mono_r; lia). lia.
  - assert (0 <= d).
    { destruct (Z.lt_ge_cases d 0) as [Hn | Hn]; [| assumption].
      rewrite (Z.pow_neg_r 2 d Hn) in Hhi. lia. }
    assert (2 ^ d <= 2 ^ (D - 1)) by (apply Z.pow_le_mono_r; lia). lia.
Qed.

Lemma Zdigits2_mul_pow2 (k : positive) (n : Z) :
  0 <= n -> Zdigits2 (Zpos k * 2 ^ n) = Zpos (digits2_pos k) + n.
Proof.
  intros Hn. pose proof (digits2_pos_bounds k) as [Plo Phi].
  assert (Hp : 0 < 2 ^ n) by (apply Z.pow_pos_nonneg; lia).
  apply Zdigits2_unique; [| lia].
  replace (Zpos (digits2_pos k) + n - 1) with ((Zpos (digits2_pos k) - 1) + n) by lia.
  rewrite !Z.pow_add_r by lia. split.
  - apply Z.mul_le_mono_nonneg_r; lia.
  - apply Z.mul_lt_mono_pos_r; lia.
Qed.

Lemma shr_1_double (k : Z) :
  0 <= k ->
  shr_1 {| shr_m := 2 * k; shr_r := false; shr_s := false |}
  = {| shr_m := k; shr_r := false; shr_s := false |}.
Proof. destruct k; intros; try reflexivity; lia. Qed.

Lemma iter_shr_1_exact (p : positive) : forall k : Z,
  0 <= k ->
  iter_pos shr_1 p {| shr_m := k * 2 ^ Zpos p; shr_r := false; shr_s := false |}
  = {| shr_m := k; shr_r := false; shr_s := false |}.
Proof.
  induction p as [p IH | p IH |]; intros k Hk; cbn [iter_pos].
  - assert (Hp : 0 < 2 ^ Zpos p) by (apply Z.pow_pos_nonneg; lia).
    rewrite pow2_xI.
    replace (k * (2 * 2 ^ Zpos p * 2 ^ Zpos p))
      with (2 * (k * 2 ^ Zpos p * 2 ^ Zpos p)) by ring.
    rewrite shr_1_double by (apply Z.mul_nonneg_nonneg; [apply Z.mul_nonneg_nonneg |]; lia).
    rewrite IH by (apply Z.mul_nonneg_nonneg; lia). apply IH. assumption.
  - assert (Hp : 0 < 2 ^ Zpos p) by (apply Z.pow_pos_nonneg; lia).
    rewrite pow2_xO, Z.mul_assoc.
    rewrite IH by (apply Z.mul_nonneg_nonneg; lia). apply IH. assumption.
  - rewrite Z.pow_1_r, Z.mul_comm. apply shr_1_double. assumption.
Qed.

(** Rounding a mantissa whose discarded bits are all zero is exact. *)
Lemma binary_round_aux_exact (s : bool) (m : Z) (k : positive) (n e : Z) :
  0 <= n -> m = Zpos k * 2 ^ n ->
  fexp prec emax (Zpos (digits2_pos k) + n + e) = e + n ->
  e + n <= 971 ->
  binary_round_aux prec emax s m e loc_Exact = S754_finite s k (e + n).
Proof.
  intros Hn Hm Hf Hmax. unfold binary_round_aux.
  assert (Hd : Zdigits2 m = Zpos (digits2_pos k) + n)
    by (rewrite Hm; apply Zdigits2_mul_pow2; assumption).
  assert (H1 : shr_fexp prec emax m e loc_Exact
               = ({| shr_m := Zpos k; shr_r := false; shr_s := false |}, e + n)).
  { unfold shr_fexp. rewrite Hd, Hf. replace (e + n - e) with n by lia.
    cbn [shr_record_of_loc]. destruct n as [| p | p]; try lia; cbn [shr].
    - rewrite Hm, Z.pow_0_r, Z.mul_1_r, Z.add_0_r. reflexivity.
    - rewrite Hm, iter_shr_1_exact by lia. reflexivity. }
  rewrite H1. cbn [shr_m loc_of_shr_record round_nearest_even].
  assert (H2 : shr_fexp prec emax (Zpos k) (e + n) loc_Exact
               = ({| shr_m := Zpos k; shr_r := false; shr_s := false |}, e + n)).
  { unfold shr_fexp. cbn [Zdigits2].
    replace (Zpos (digits2_pos k) + (e + n)) with (Zpos (digits2_pos k) + n + e) by lia.
    rewrite Hf, Z.sub_diag. reflexivity. }
  rewrite H2. cbn [shr_m].
  replace (e + n <=? emax - prec) with true; [reflexivity |].
  symmetry. apply Z.leb_le. unfold emax, prec. lia.
Qed.

(** ** Integers as binary64 numbers *)

Lemma digits_small (p : positive) :
  Zpos p < 2 ^ 53 -> 0 < Zpos (digits2_pos p) <= 53.
Proof.
  intros Hp. pose proof (digits2_pos_bounds p) as [Plo _]. split; [lia |].
  destruct (Z.le_gt_cases (Zpos (digits2_pos p)) 53) as [H | H]; [assumption |].
  assert (2 ^ 53 <= 2 ^ (Zpos (digits2_pos p) - 1)) by (apply Z.pow_le_mono_r; lia).
  lia.
Qed.

Lemma norm_mant_Z (p : positive) :
  Zpos p < 2 ^ 53 ->
  Zpos (norm_mant p) = Zpos p * 2 ^ (53 - Zpos (digits2_pos p)).
Proof.
  intros Hp. pose proof (digits_small p Hp). unfold norm_mant.
  apply Z2Pos.id. apply Z.mul_pos_pos; [lia | apply Z.pow_pos_nonneg; lia].
Qed.

Lemma norm_mant_digits (p : positive) :
  Zpos p < 2 ^ 53 -> Zpos (digits2_pos (norm_mant p)) = 53.
Proof.
  intros Hp. pose proof (digits_small p Hp).
  change (Zpos (digits2_pos (norm_mant p))) with (Zdigits2 (Zpos (norm_mant p))).
  rewrite norm_mant_Z, Zdigits2_mul_pow2 by lia. lia.
Qed.

Lemma fexp_small (d : Z) : 0 < d <= 53 -> fexp prec emax d = d - 53.
Proof. unfold fexp, SpecFloat.emin, prec, emax. lia. Qed.

Lemma digits_mul_lower (pa pb : positive) :
  Zpos (digits2_pos pa) + Zpos (digits2_pos pb) - 1
  <= Zpos (digits2_pos (pa * pb)).
Proof.
  pose proof (digits2_pos_bounds pa) as [Alo _].
  pose proof (digits2_pos_bounds pb) as [Blo _].
  pose proof (digits2_pos_bounds (pa * pb)) as [_ Phi].
  set (da := Zpos (digits2_pos pa)) in *. set (db := Zpos (digits2_pos pb)) in *.
  set (dp := Zpos (digits2_pos (pa * pb))) in *.
  assert (Hda : 0 < da) by (unfold da; lia).
  assert (Hdb : 0 < db) by (unfold db; lia).
  destruct (Z.le_gt_cases (da + db - 1) dp) as [H | H]; [assumption |].
  assert (H1 : 2 ^ dp <= 2 ^ (da - 1 + (db - 1))) by (apply Z.pow_le_mono_r; lia).
  rewrite Z.pow_add_r in H1 by lia.
  assert (H2 : 2 ^ (da - 1) * 2 ^ (db - 1) <= Zpos pa * Zpos pb).
  { apply Z.mul_le_mono_nonneg; try assumption; apply Z.pow_nonneg; lia. }
  rewrite Pos2Z.inj_mul in Phi. lia.
Qed.

Lemma SFmul_norm (sa sb : bool) (pa pb : positive) :
  Zpos pa * Zpos pb < 2 ^ 53 ->
  SF64mul (S754_finite sa (norm_mant pa) (norm_exp pa))
          (S754_finite sb (norm_mant pb) (norm_exp pb))
  = S754_finite (xorb sa sb) (norm_mant (pa * pb)) (norm_exp (pa * pb)).
Proof.
  intros Hp.
  assert (Ha : Zpos pa < 2 ^ 53) by nia.
  assert (Hb : Zpos pb < 2 ^ 53) by nia.
  assert (Hab : Zpos (pa * pb) < 2 ^ 53) by (rewrite Pos2Z.inj_mul; assumption).
  pose proof (digits_small pa Ha). pose proof (digits_small pb Hb).
  pose proof (digits_small _ Hab). pose proof (digits_mul_lower pa pb).
  unfold SF64mul, SFmul, norm_exp.
  set (da := Zpos (digits2_pos pa)) in *. set (db := Zpos (digits2_pos pb)) in *.
  set (dp := Zpos (digits2_pos (pa * pb))) in *.
  replace (dp - 53) with ((da - 53 + (db - 53)) + (53 - da - db + dp)) by lia.
  apply binary_round_aux_exact.
  - lia.
  - rewrite Pos2Z.inj_mul, !norm_mant_Z by assumption.
    fold da db dp. rewrite Pos2Z.inj_mul.
    assert (E : 2 ^ (53 - da) * 2 ^ (53 - db)
                = 2 ^ (53 - dp) * 2 ^ (53 - da - db + dp))
      by (rewrite <- !Z.pow_add_r by lia; f_equal; lia).
    transitivity (Zpos pa * Zpos pb * (2 ^ (53 - da) * 2 ^ (53 - db))); [ring |].
    rewrite E. ring.
  - rewrite norm_mant_digits by assumption.
    replace (53 + (53 - da - db + dp) + (da - 53 + (db - 53))) with dp by lia.
    rewrite fexp_small by lia. lia.
  - lia.
Qed.

Lemma binary_round_int (s : bool) (P mx : positive) (ez : Z) :
  Zpos P < 2 ^ 53 -> ez <= 0 ->
  Zpos mx = Zpos P * 2 ^ (- ez) ->
  binary_round prec emax s mx ez = S754_finite s (norm_mant P) (norm_exp P).
Proof.
  intros HP Hez Hmx. pose proof (digits_small P HP) as HdP.
  unfold binary_round, norm_exp.
  assert (Hd : Zpos (digits2_pos mx) = Zpos (digits2_pos P) - ez).
  { change (Zpos (digits2_pos mx)) with (Zdigits2 (Zpos mx)).
    rewrite Hmx, Zdigits2_mul_pow2 by lia. lia. }
  set (dP := Zpos (digits2_pos P)) in *.
  rewrite Hd. replace (dP - ez + ez) with dP by lia.
  rewrite fexp_small by lia.
  pose proof (norm_mant_Z P HP) as Hk. fold dP in Hk.
  pose proof (norm_mant_digits P HP) as Hkd.
  unfold shl_align. destruct (dP - 53 - ez) as [| n | n] eqn:Hn.
  - replace (dP - 53) with (ez + 0) by lia.
    apply binary_round_aux_exact; try lia.
    + replace (- ez) with (53 - dP) in Hmx by lia. rewrite Hmx, Hk. ring.
    + rewrite Hkd. replace (53 + 0 + ez) with dP by lia.
      rewrite fexp_small by lia. lia.
  - replace (dP - 53) with (ez + Zpos n) by lia.
    apply binary_round_aux_exact; try lia.
    + replace (- ez) with (53 - dP + Zpos n) in Hmx by lia.
      rewrite Z.pow_add_r in Hmx by lia. rewrite Hmx, Hk. ring.
    + rewrite Hkd. replace (53 + Zpos n + ez) with dP by lia.
      rewrite fexp_small by lia. lia.
  - assert (Hmz : Pos.iter xO mx n = norm_mant P).
    { apply Pos2Z.inj. change (Pos.iter xO mx n) with (shift_pos n mx).
      rewrite shift_pos_correct, Z.pow_pos_fold, Hmx, Hk.
      replace (53 - dP) with (- ez + Zpos n) by lia.
      rewrite Z.pow_add_r by lia. ring. }
    rewrite Hmz. replace (dP - 53) with (dP - 53 + 0) at 2 by lia.
    apply binary_round_aux_exact; try lia.
    rewrite Hkd. replace (53 + 0 + (dP - 53)) with dP by lia.
    rewrite fexp_small by lia. lia.
Qed.

Lemma binary_normalize_int (z M ez : Z) :
  Z.abs z < 2 ^ 53 -> ez <= 0 -> M = z * 2 ^ (- ez) ->
  binary_normalize prec emax M ez false = Zfloat_sf z.
Proof.
  intros Hz Hez HM.
  assert (Hp : 0 < 2 ^ (- ez)) by (apply Z.pow_pos_nonneg; lia).
  destruct z as [| p | p]; cbn [Zfloat_sf].
  - rewrite HM. reflexivity.
  - destruct M as [| mx | mx]; try (exfalso; nia).
    cbn [binary_normalize]. apply binary_round_int; [lia | assumption | exact HM].
  - destruct M as [| mx | mx]; try (exfalso; nia).
    cbn [binary_normalize]. apply binary_round_int; [lia | assumption |].
    change (Zneg mx) with (- Zpos mx) in HM. change (Zneg p) with (- Zpos p) in HM.
    lia.
Qed.

(** The mantissa of [Zfloat_sf z], aligned to the exponent [ez] and
    signed, is [z * 2^-ez]. *)
Lemma aligned_int (s : bool) (p : positive) (ez : Z) :
  Zpos p < 2 ^ 53 -> ez <= norm_exp p ->
  cond_Zopp s (Zpos (fst (shl_align (norm_mant p) (norm_exp p) ez)))
  = cond_Zopp s (Zpos p) * 2 ^ (- ez).
Proof.
  intros Hp Hez. pose proof (digits_small p Hp).
  rewrite shl_align_fst by assumption. rewrite norm_mant_Z by assumption.
  unfold norm_exp in *.
  rewrite <- Z.mul_assoc, <- Z.pow_add_r by lia.
  replace (53 - Zpos (digits2_pos p) + (Zpos (digits2_pos p) - 53 - ez))
    with (- ez) by lia.
  destruct s; cbn [cond_Zopp]; ring.
Qed.

Lemma norm_exp_range (p : positive) : Zpos p < 2 ^ 53 -> -52 <= norm_exp p <= 0.
Proof. intros Hp. pose proof (digits_small p Hp). unfold norm_exp. lia. Qed.

Lemma Zfloat_sf_finite (z : Z) :
  z <> 0 ->
  Zfloat_sf z = S754_finite (z <? 0) (norm_mant (Z.to_pos (Z.abs z)))
                            (norm_exp (Z.to_pos (Z.abs z))) /\
  cond_Zopp (z <? 0) (Zpos (Z.to_pos (Z.abs z))) = z.
Proof. destruct z; intros; [congruence | split; reflexivity ..]. Qed.

Lemma SFadd_Zfloat (a b : Z) :
  Z.abs a < 2 ^ 53 -> Z.abs b < 2 ^ 53 -> Z.abs (a + b) < 2 ^ 53 ->
  SF64add (Zfloat_sf a) (Zfloat_sf b) = Zfloat_sf (a + b).
Proof.
  intros Ha Hb Hab.
  destruct (Z.eq_dec a 0) as [-> | Na].
  { destruct b; reflexivity. }
  destruct (Z.eq_dec b 0) as [-> | Nb].
  { rewrite Z.add_0_r. destruct a; reflexivity. }
  destruct (Zfloat_sf_finite a Na) as [-> Ea].
  destruct (Zfloat_sf_finite b Nb) as [-> Eb].
  set (pa := Z.to_pos (Z.abs a)) in *. set (pb := Z.to_pos (Z.abs b)) in *.
  assert (Hpa : Zpos pa < 2 ^ 53) by (unfold pa; rewrite Z2Pos.id; lia).
  assert (Hpb : Zpos pb < 2 ^ 53) by (unfold pb; rewrite Z2Pos.id; lia).
  pose proof (norm_exp_range pa Hpa). pose proof (norm_exp_range pb Hpb).
  unfold SF64add, SFadd.
  apply binary_normalize_int; [assumption | lia |].
  rewrite !aligned_int by lia. rewrite Ea, Eb. ring.
Qed.

Lemma SFsub_Zfloat (a b : Z) :
  Z.abs a < 2 ^ 53 -> Z.abs b < 2 ^ 53 -> Z.abs (a - b) < 2 ^ 53 ->
  SF64sub (Zfloat_sf a) (Zfloat_sf b) = Zfloat_sf (a - b).
Proof.
  intros Ha Hb Hab.
  destruct (Z.eq_dec b 0) as [-> | Nb].
  { rewrite Z.sub_0_r. destruct a; reflexivity. }
  destruct (Z.eq_dec a 0) as [-> | Na].
  { destruct b; reflexivity. }
  destruct (Zfloat_sf_finite a Na) as [-> Ea].
  destruct (Zfloat_sf_finite b Nb) as [-> Eb].
  set (pa := Z.to_pos (Z.abs a)) in *. set (pb := Z.to_pos (Z.abs b)) in *.
  assert (Hpa : Zpos pa < 2 ^ 53) by (unfold pa; rewrite Z2Pos.id; lia).
  assert (Hpb : Zpos pb < 2 ^ 53) by (unfold pb; rewrite Z2Pos.id; lia).
  pose proof (norm_exp_range pa Hpa). pose proof (norm_exp_range pb Hpb).
  unfold SF64sub, SFsub.
  apply binary_normalize_int; [assumption | lia |].
  rewrite !aligned_int by lia. rewrite Ea, Eb. ring.
Qed.

Lemma SFmul_Zfloat (a b : Z) :
  a <> 0 -> b <> 0 -> Z.abs (a * b) < 2 ^ 53 ->
  SF64mul (Zfloat_sf a) (Zfloat_sf b) = Zfloat_sf (a * b).
Proof.
  intros Na Nb Hab.
  assert (Nab : a * b <> 0) by nia.
  destruct (Zfloat_sf_finite a Na) as [-> _].
  destruct (Zfloat_sf_finite b Nb) as [-> _].
  destruct (Zfloat_sf_finite (a * b) Nab) as [-> _].
  rewrite SFmul_norm.
  - rewrite Z.abs_mul, Z2Pos.inj_mul by lia. f_equal.
    destruct a, b; try congruence; reflexivity.
  - rewrite !Z2Pos.id by lia. rewrite <- Z.abs_mul. assumption.
Qed.

(** ** Exact operations on integer-valued numbers *)

Lemma int_sf_add (a b : Z) (x y : spec_float) :
  int_sf a x -> int_sf b y -> Z.abs (a + b) < 2 ^ 53 ->
  int_sf (a + b) (SF64add x y).
Proof.
  intros [Ha [-> | [-> ->]]] [Hb [-> | [-> ->]]] Hab; split; try assumption.
  - left. apply SFadd_Zfloat; assumption.
  - left. rewrite Z.add_0_r. destruct a; reflexivity.
  - left. destruct b; reflexivity.
  - right. split; reflexivity.
Qed.

Lemma int_sf_sub (a b : Z) (x y : spec_float) :
  int_sf a x -> int_sf b y -> Z.abs (a - b) < 2 ^ 53 ->
  int_sf (a - b) (SF64sub x y).
Proof.
  intros [Ha [-> | [-> ->]]] [Hb [-> | [-> ->]]] Hab; split; try assumption.
  - left. apply SFsub_Zfloat; assumption.
  - left. rewrite Z.sub_0_r. destruct a; reflexivity.
  - destruct b; [right; split; reflexivity | left; reflexivity ..].
  - left. reflexivity.
Qed.

Lemma int_sf_mul (a b : Z) (x y : spec_float) :
  int_sf a x -> int_sf b y -> Z.abs (a * b) < 2 ^ 53 ->
  int_sf (a * b) (SF64mul x y).
Proof.
  intros [Ha Hx] [Hb Hy] Hab. split; [assumption |].
  destruct (Z.eq_dec a 0) as [-> | Na].
  { assert (Hz : exists s, x = S754_zero s)
      by (destruct Hx as [-> | [_ ->]]; [exists false | exists true]; reflexivity).
    destruct Hz as [s ->]. rewrite Z.mul_0_l.
    destruct Hy as [-> | [_ ->]]; [destruct b |]; destruct s; cbn; auto. }
  destruct (Z.eq_dec b 0) as [-> | Nb].
  { assert (Hz : exists s, y = S754_zero s)
      by (destruct Hy as [-> | [_ ->]]; [exists false | exists true]; reflexivity).
    destruct Hz as [s ->]. rewrite Z.mul_0_r.
    destruct Hx as [-> | [_ ->]]; [destruct a |]; destruct s; cbn; auto. }
  destruct Hx as [-> | [? _]]; [| congruence].
  destruct Hy as [-> | [? _]]; [| congruence].
  left. apply SFmul_Zfloat; assumption.
Qed.

Local Open Scope float_scope.

Lemma int_float_add (a b : Z) (x y : float) :
  int_float a x -> int_float b y -> (Z.abs (a + b) < 2 ^ 53)%Z ->
  int_float (a + b) (x + y).
Proof. unfold int_float. rewrite add_spec. apply int_sf_add. Qed.

Lemma int_float_sub (a b : Z) (x y : float) :
  int_float a x -> int_float b y -> (Z.abs (a - b) < 2 ^ 53)%Z ->
  int_float (a - b) (x - y).
Proof. unfold int_float. rewrite sub_spec. apply int_sf_sub. Qed.

Lemma int_float_mul (a b : Z) (x y : float) :
  int_float a x -> int_float b y -> (Z.abs (a * b) < 2 ^ 53)%Z ->
  int_float (a * b) (x * y).
Proof. unfold int_float. rewrite mul_spec. apply int_sf_mul. Qed.

Lemma int_float_minus_two : int_float (-2) (-2).
Proof. split; [reflexivity | left; reflexivity]. Qed.

Lemma Prim2SF_neg_zero : Prim2SF (-0) = S754_zero true.
Proof. reflexivity. Qed.

(** Two floats that are the same integer are the same float, up to the
    sign of zero. *)
Lemma int_float_same (z : Z) (x y : float) :
  int_float z x -> int_float z y ->
  x = y \/ ((x = 0 \/ x = -0) /\ (y = 0 \/ y = -0)).
Proof.
  assert (Hzero : forall (s : bool) (u : float),
            Prim2SF u = S754_zero s -> u = 0 \/ u = -0).
  { intros s u Hu. destruct s; [right | left]; apply Prim2SF_inj;
      rewrite Hu; reflexivity. }
  intros [_ Hx] [_ Hy].
  destruct Hx as [Hx | [-> Hx]], Hy as [Hy | [Ez Hy]].
  - left. apply Prim2SF_inj. congruence.
  - subst z. right. split; [apply (Hzero false) | apply (Hzero true)]; assumption.
  - right. split; [apply (Hzero true) | apply (Hzero false)]; assumption.
  - right. split; apply (Hzero true); assumption.
Qed.

Lemma int_float_nonneg (z : Z) (x : float) :
  (0 <= z)%Z -> int_float z x -> is_nan x = false /\ (x <? 0) = false.
Proof.
  intros Hz [_ Hx]. rewrite is_nan_spec, ltb_spec, Prim2SF_zero.
  destruct Hx as [-> | [_ ->]]; [| split; reflexivity].
  destruct z; [split; reflexivity .. | lia].
Qed.

End B64_exact.

(** ** The distance on integer coordinates *)

(** The point [a] has the integer coordinates [(zx, zy)]. *)
Definition int_point (zx zy : Z) (a : float * float) : Prop :=
  B64_exact.int_float zx (fst a) /\ B64_exact.int_float zy (snd a).

Lemma prod_bound (x y K : Z) :
  (Z.abs x <= K -> Z.abs y <= K -> - (K * K) <= x * y <= K * K)%Z.
Proof.
  intros Hx Hy. apply Z.abs_le. rewrite Z.abs_mul.
  apply Z.mul_le_mono_nonneg; try assumption; apply Z.abs_nonneg.
Qed.

Section IntegerCoordinates.
Import B64_exact.
Variables (xa ya xb yb : Z) (a b : float * float).
Hypothesis Ha : int_point xa ya a.
Hypothesis Hb : int_point xb yb b.
Hypothesis Bxa : (Z.abs xa <= 2 ^ 24)%Z.
Hypothesis Bya : (Z.abs ya <= 2 ^ 24)%Z.
Hypothesis Bxb : (Z.abs xb <= 2 ^ 24)%Z.
Hypothesis Byb : (Z.abs yb <= 2 ^ 24)%Z.

Let sqdist : Z := ((xa - xb) * (xa - xb) + (ya - yb) * (ya - yb))%Z.

(** Each operation of the expression is exact; its bound is linear in
    the products bounded beforehand. *)
Ltac int_steps :=
  repeat first [ apply int_float_add | apply int_float_mul | apply int_float_sub
               | exact int_float_minus_two | assumption ];
  apply Z.abs_lt; change (2 ^ 53)%Z with 9007199254740992%Z; lia.

Lemma radicand_at_int : int_float sqdist (radicand_at binary64 a b).
Proof.
  destruct Ha as [Hax Hay], Hb as [Hbx Hby].
  pose proof (prod_bound xa xa _ Bxa Bxa). pose proof (prod_bound ya ya _ Bya Bya).
  pose proof (prod_bound xb xb _ Bxb Bxb). pose proof (prod_bound yb yb _ Byb Byb).
  pose proof (prod_bound xa xb _ Bxa Bxb). pose proof (prod_bound ya yb _ Bya Byb).
  change (2 ^ 24 * 2 ^ 24)%Z with 281474976710656%Z in *.
  clear Ha Hb Bxa Bya Bxb Byb.
  replace sqdist
    with ((xa * xa + ya * ya + (xb * xb + yb * yb))
          + -2 * (xa * xb + ya * yb))%Z by (unfold sqdist; ring).
  unfold radicand_at. cbn [add mul minus_two binary64].
  int_steps.
Qed.

Lemma naive_radicand_int :
  int_float sqdist
    ((fst a - fst b) * (fst a - fst b) + (snd a - snd b) * (snd a - snd b)).
Proof.
  destruct Ha as [Hax Hay], Hb as [Hbx Hby].
  assert (Bdx : (Z.abs (xa - xb) <= 2 ^ 25)%Z)
    by (change (2 ^ 25)%Z with (2 * 2 ^ 24)%Z; lia).
  assert (Bdy : (Z.abs (ya - yb) <= 2 ^ 25)%Z)
    by (change (2 ^ 25)%Z with (2 * 2 ^ 24)%Z; lia).
  pose proof (prod_bound _ _ _ Bdx Bdx). pose proof (prod_bound _ _ _ Bdy Bdy).
  apply Z.abs_le in Bdx, Bdy.
  change (2 ^ 25 * 2 ^ 25)%Z with 1125899906842624%Z in *.
  change (2 ^ 25)%Z with 33554432%Z in *.
  clear Ha Hb Bxa Bya Bxb Byb.
  unfold sqdist. int_steps.
Qed.

(** On integer coordinates no term of the identity is rounded, and the
    entry is the per-pair distance rounded to two decimals. *)
Lemma distance_at_int :
  (distance_at binary64 a b =? np.round2 (naive_distance binary64 a b)) = true.
Proof.
  pose proof radicand_at_int as Hr. pose proof naive_radicand_int as Hq.
  unfold distance_at, naive_distance. cbn [add sub mul sqrt round2 binary64].
  set (r := radicand_at binary64 a b) in *.
  set (q := (fst a - fst b) * (fst a - fst b) + (snd a - snd b) * (snd a - snd b)) in *.
  assert (Hz : (0 <= sqdist)%Z)
    by (unfold sqdist; apply Z.add_nonneg_nonneg; apply Z.square_nonneg).
  destruct (int_float_same _ _ _ Hr Hq) as [E | [[-> | ->] [-> | ->]]];
    try reflexivity.
  rewrite <- E. destruct (int_float_nonneg _ _ Hz Hr) as [Hn Hl].
  rewrite B64.eqb_key, B64_round.round2_is_nan, B64_round.sqrt_is_nan, Hn, Hl.
  cbn [orb negb andb]. apply Z.eqb_refl.
Qed.

(** On integer coordinates the sum [p1 + p2 + p3] is the exact squared
    distance, so the entry is a non-negative number. *)
Lemma distance_at_int_number :
  is_nan (distance_at binary64 a b) = false /\
  (0 <=? distance_at binary64 a b) = true.
Proof.
  pose proof radicand_at_int as Hr.
  assert (Hz : (0 <= sqdist)%Z)
    by (unfold sqdist; apply Z.add_nonneg_nonneg; apply Z.square_nonneg).
  destruct (int_float_nonneg _ _ Hz Hr) as [Hn Hl].
  unfold distance_at. cbn [sqrt round2 binary64].
  assert (Hs : is_nan (PrimFloat.sqrt (radicand_at binary64 a b)) = false)
    by (rewrite B64_round.sqrt_is_nan, Hn, Hl; reflexivity).
  split.
  - rewrite B64_round.round2_is_nan. exact Hs.
  - apply B64_round.round2_nonneg, B64_round.sqrt_nonneg, Hs.
Qed.
End IntegerCoordinates.

(** ** Rounding errors

    Every operation of binary64 returns its exact result rounded; the
    lemmas below bound the error of one rounding, [eps] relative to the
    exact result plus [eta] where the result is subnormal, from the
    definitions of [SpecFloat]. *)

Module B64_rounding.
Import B64 B64_real.
Local Open Scope R_scope.

Lemma bpow_add (a b : Z) : bpow (a + b) = bpow a * bpow b.
Proof. unfold bpow. apply powerRZ_add. lra. Qed.

Lemma bpow_pos (e : Z) : 0 < bpow e.
Proof. unfold bpow. apply powerRZ_lt. lra. Qed.

Lemma bpow_0 : bpow 0 = 1.
Proof. reflexivity. Qed.

Lemma bpow_1 : bpow 1 = 2.
Proof. exact (powerRZ_1 2). Qed.

Lemma bpow_nonneg_ge_1 (n : Z) : (0 <= n)%Z -> 1 <= bpow n.
Proof.
  intros Hn. pattern n. apply natlike_ind; [rewrite bpow_0; lra | | exact Hn].
  intros k Hk IH. unfold Z.succ. rewrite bpow_add, bpow_1. lra.
Qed.

Lemma bpow_le (a b : Z) : (a <= b)%Z -> bpow a <= bpow b.
Proof.
  intros H. replace b with (a + (b - a))%Z by lia. rewrite bpow_add.
  pose proof (bpow_pos a). pose proof (bpow_nonneg_ge_1 (b - a) ltac:(lia)). nra.
Qed.

Lemma bpow_lt (a b : Z) : (a < b)%Z -> bpow a < bpow b.
Proof.
  intros H. replace b with (a + 1 + (b - a - 1))%Z by lia.
  rewrite !bpow_add, bpow_1.
  pose proof (bpow_pos a). pose proof (bpow_nonneg_ge_1 (b - a - 1) ltac:(lia)). nra.
Qed.

Lemma bpow_le_inv (a b : Z) : bpow a <= bpow b -> (a <= b)%Z.
Proof.
  intros H. destruct (Z.le_gt_cases a b) as [Hle | Hgt]; [exact Hle |].
  apply bpow_lt in Hgt. lra.
Qed.

Lemma bpow_IZR (n : Z) : (0 <= n)%Z -> IZR (2 ^ n) = bpow n.
Proof.
  intros Hn. pattern n. apply natlike_ind; [reflexivity | | exact Hn].
  intros k Hk IH. rewrite Z.pow_succ_r by exact Hk. rewrite mult_IZR, IH.
  unfold Z.succ. rewrite bpow_add, bpow_1. lra.
Qed.

Lemma eps_pos : 0 < eps.
Proof. apply bpow_pos. Qed.

Lemma eta_pos : 0 < eta.
Proof. apply bpow_pos. Qed.


Local Open Scope Z_scope.

Lemma Zdigits2_bounds (m : Z) :
  0 < m -> 2 ^ (Zdigits2 m - 1) <= m < 2 ^ Zdigits2 m.
Proof.
  destruct m as [| p | p]; try lia. intros _. apply digits2_pos_bounds.
Qed.

Lemma Zdigits2_nonneg (m : Z) : 0 <= Zdigits2 m.
Proof. destruct m; cbn; lia. Qed.

Lemma Zdigits2_le (m : Z) (n : Z) : 0 <= m < 2 ^ n -> 0 <= n -> Zdigits2 m <= n.
Proof.
  intros [H0 Hm] Hn. destruct (Z.eq_dec m 0) as [-> | Hz]; [cbn; lia |].
  pose proof (Zdigits2_bounds m ltac:(lia)) as [Hlo _].
  destruct (Z.le_gt_cases (Zdigits2 m) n) as [H | H]; [exact H |].
  assert (2 ^ n <= 2 ^ (Zdigits2 m - 1)) by (apply Z.pow_le_mono_r; lia). lia.
Qed.

Lemma shr_spec (mrs : shr_record) (e n : Z) :
  0 <= shr_m mrs ->
  shr_m (fst (shr mrs e n)) = shr_m mrs / 2 ^ Z.max 0 n /\
  snd (shr mrs e n) = e + Z.max 0 n /\
  (n <= 0 -> fst (shr mrs e n) = mrs).
Proof.
  intros Hm. destruct n as [| p | p]; cbn [shr fst snd].
  - rewrite Z.max_l by lia. rewrite Z.pow_0_r, Z.div_1_r. auto with zarith.
  - rewrite Z.max_r by lia. rewrite iter_shr_1_m by exact Hm.
    repeat split. lia.
  - rewrite Z.max_l by lia. rewrite Z.pow_0_r, Z.div_1_r. auto with zarith.
Qed.

Lemma round_nearest_even_range (m : Z) (l : location) :
  m <= round_nearest_even m l <= m + 1.
Proof.
  destruct l as [| []]; cbn [round_nearest_even]; try lia.
  destruct (Z.even m); lia.
Qed.

Lemma loc_of_shr_record_of_loc (m : Z) (l : location) :
  loc_of_shr_record (shr_record_of_loc m l) = l.
Proof. destruct l as [| []]; reflexivity. Qed.

(** The shape of a rounding: the mantissa [m] at exponent [e] is cut to
    [m1] at exponent [e + k], one of the two neighbours of [m / 2^k];
    the result is [m1 * 2^(e+k)], renormalised without loss. *)
Lemma round_aux_shape (s : bool) (m e : Z) (l : location) :
  0 <= m ->
  let k := Z.max 0 (fexp prec emax (Zdigits2 m + e) - e) in
  exists m1 mf ef : Z,
    m / 2 ^ k <= m1 <= m / 2 ^ k + 1 /\
    (k = 0 -> l = loc_Exact -> m1 = m) /\
    e + k <= ef /\ mf * 2 ^ (ef - (e + k)) = m1 /\ 0 <= mf /\
    binary_round_aux prec emax s m e l =
    match mf with
    | Z0 => S754_zero s
    | Zpos p => if ef <=? 971 then S754_finite s p ef else S754_infinity s
    | Zneg _ => S754_nan
    end.
Proof.
  intros Hm k.
  set (d := Zdigits2 m) in *. set (f := fexp prec emax (d + e)) in *.
  assert (Hf : f = Z.max (d + e - 53) (-1074)) by reflexivity.
  assert (Hd0 : 0 <= d) by apply Zdigits2_nonneg.
  assert (Hk0 : 0 <= k) by (unfold k; lia).
  assert (Hp : 0 < 2 ^ k) by (apply Z.pow_pos_nonneg; lia).
  unfold binary_round_aux, shr_fexp. fold d f.
  destruct (shr_spec (shr_record_of_loc m l) e (f - e)) as (S1 & S2 & S3).
  { rewrite shr_record_of_loc_m. exact Hm. }
  rewrite shr_record_of_loc_m in S1. fold k in S1, S2.
  destruct (shr (shr_record_of_loc m l) e (f - e)) as [mrs' e'] eqn:E1.
  cbn [fst snd] in S1, S2, S3. subst e'.
  set (q := m / 2 ^ k) in *.
  set (m1 := round_nearest_even (shr_m mrs') (loc_of_shr_record mrs')).
  assert (Hq0 : 0 <= q) by (apply Z.div_pos; lia).
  assert (Hm1 : q <= m1 <= q + 1).
  { unfold m1. rewrite S1. apply round_nearest_even_range. }
  (* the cut mantissa has at most 53 digits *)
  assert (Hq53 : q < 2 ^ 53).
  { apply Z.div_lt_upper_bound; [exact Hp |].
    destruct (Z.eq_dec m 0) as [-> | Hz].
    - apply Z.mul_pos_pos; [exact Hp | lia].
    - pose proof (Zdigits2_bounds m ltac:(lia)) as [_ Hhi]. fold d in Hhi.
      rewrite <- Z.pow_add_r by lia.
      apply Z.lt_le_trans with (2 ^ d); [exact Hhi |].
      apply Z.pow_le_mono_r; unfold k; lia. }
  assert (He1 : -1074 <= e + k) by (unfold k; lia).
  assert (Hexact : k = 0 -> l = loc_Exact -> m1 = m).
  { intros K0 ->. unfold m1. rewrite S3 by (unfold k in K0; lia).
    rewrite shr_record_of_loc_m. reflexivity. }
  destruct (Z.eq_dec m1 (2 ^ 53)) as [E53 | N53].
  - (* the cut mantissa was rounded up to 2^53 *)
    exists m1, (2 ^ 52), (e + k + 1).
    split; [exact Hm1 |]. split; [exact Hexact |].
    split; [lia |]. split; [rewrite E53; replace (e + k + 1 - (e + k)) with 1 by lia; reflexivity |].
    split; [lia |].
    rewrite E53.
    replace (fexp prec emax (Zdigits2 (2 ^ 53) + (e + k)) - (e + k)) with 1
      by (change (Zdigits2 (2 ^ 53)) with 54;
          unfold fexp, SpecFloat.emin, prec, emax; lia).
    cbn [shr shr_record_of_loc iter_pos shr_1 shr_m]. reflexivity.
  - exists m1, m1, (e + k).
    split; [exact Hm1 |]. split; [exact Hexact |].
    split; [lia |]. split; [rewrite Z.sub_diag; lia |]. split; [lia |].
    assert (Hd1 : Zdigits2 m1 <= 53) by (apply Zdigits2_le; lia).
    destruct (fexp prec emax (Zdigits2 m1 + (e + k)) - (e + k)) as [| p | p] eqn:En;
      cbn [shr shr_record_of_loc shr_m];
      try (unfold fexp, SpecFloat.emin, prec, emax in En; lia); reflexivity.
Qed.


Local Open Scope R_scope.

Lemma eps_le_1 : eps <= 1.
Proof.
  unfold eps. rewrite <- bpow_0. apply bpow_le. lia.
Qed.

Lemma Rabs_bound (a b : R) : Rabs a <= b -> - b <= a <= b.
Proof. unfold Rabs. destruct (Rcase_abs a); lra. Qed.

Lemma eps_scaled_le (a x c : R) :
  0 < c -> a <= x -> eps * (a * c) <= eps * (x * c).
Proof.
  intros Hc Hax. apply Rmult_le_compat_l; [apply Rlt_le, eps_pos |].
  apply Rmult_le_compat_r; lra.
Qed.

(** One rounding: the result is a finite number within one unit in the
    last place of the real number [x * 2^e] it rounds, where [x] lies
    between the mantissa and its successor. *)
Lemma round_aux_error (s : bool) (m e : Z) (l : location) (x : R) :
  (0 <= m)%Z -> IZR m <= x <= IZR m + 1 ->
  (l = loc_Exact -> x = IZR m) ->
  (l <> loc_Exact -> (2 ^ 52 <= m)%Z \/ (e <= -1074)%Z) ->
  x * bpow e <= bpow 900 ->
  sf_finite (binary_round_aux prec emax s m e l) = true /\
  exists y : R,
    SF2R (binary_round_aux prec emax s m e l) = (if s then - y else y) /\
    0 <= y /\ Rabs (y - x * bpow e) <= eps * (x * bpow e) + eta.
Proof.
  intros Hm Hx Hexact Hinexact Hov.
  destruct (round_aux_shape s m e l Hm) as (m1 & mf & ef & Hm1 & Hex & Hef & Hmf & Hmf0 & ->).
  set (k := Z.max 0 (fexp prec emax (Zdigits2 m + e) - e)) in *.
  assert (Hk0 : (0 <= k)%Z) by (unfold k; lia).
  assert (Hp : (0 < 2 ^ k)%Z) by (apply Z.pow_pos_nonneg; lia).
  pose proof (bpow_pos e) as Pe. pose proof (bpow_pos k) as Pk.
  pose proof eps_pos as Peps. pose proof eta_pos as Peta.
  assert (Hx0 : 0 <= x) by (pose proof (IZR_le 0 m Hm); lra).
  set (y := IZR m1 * bpow (e + k)).
  assert (Hy : IZR mf * bpow ef = y).
  { unfold y. rewrite <- Hmf, mult_IZR, bpow_IZR by lia.
    rewrite Rmult_assoc, <- bpow_add. f_equal. f_equal. lia. }
  assert (Hy0 : 0 <= y).
  { unfold y. apply Rmult_le_pos; [| apply Rlt_le, bpow_pos].
    apply (IZR_le 0). pose proof (Z.div_pos m (2 ^ k) Hm Hp). lia. }
  (* the error is at most one unit of the cut *)
  assert (Herr : Rabs (y - x * bpow e) <= bpow (e + k)).
  { pose proof (Z.mul_div_le m (2 ^ k) Hp) as D1.
    pose proof (Z.mul_succ_div_gt m (2 ^ k) Hp) as D2.
    set (q := (m / 2 ^ k)%Z) in *.
    assert (Q1 : IZR q * bpow k <= IZR m).
    { rewrite <- bpow_IZR, <- mult_IZR by lia. apply IZR_le. lia. }
    assert (Q2 : IZR m + 1 <= (IZR q + 1) * bpow k).
    { rewrite <- bpow_IZR by lia. rewrite <- (plus_IZR q 1), <- (plus_IZR m 1), <- mult_IZR.
      apply IZR_le. unfold Z.succ in D2. lia. }
    assert (M1 : IZR q <= IZR m1 <= IZR q + 1).
    { rewrite <- (plus_IZR q 1). split; apply IZR_le; lia. }
    unfold y. rewrite bpow_add.
    replace (IZR m1 * (bpow e * bpow k) - x * bpow e)
      with ((IZR m1 * bpow k - x) * bpow e) by ring.
    rewrite Rabs_mult, (Rabs_pos_eq (bpow e)) by lra.
    rewrite (Rmult_comm (bpow e)). apply Rmult_le_compat_r; [lra |].
    apply Rabs_le. split; nra. }
  assert (Hbound : Rabs (y - x * bpow e) <= eps * (x * bpow e) + eta).
  { assert (Hxe : 0 <= eps * (x * bpow e)) by (apply Rmult_le_pos; [lra | nra]).
    destruct (Z.eq_dec k 0) as [K0 | K0].
    - destruct l as [| c] eqn:El.
      + (* exact, and not cut *)
        assert (Ey : y = x * bpow e).
        { unfold y. rewrite (Hex K0 eq_refl), K0, Z.add_0_r, (Hexact eq_refl).
          reflexivity. }
        rewrite Ey. replace (x * bpow e - x * bpow e) with 0 by ring.
        rewrite Rabs_R0. lra.
      + eapply Rle_trans; [exact Herr |]. rewrite K0, Z.add_0_r.
        destruct (Hinexact ltac:(discriminate)) as [H52 | He].
        * assert (bpow 52 <= x).
          { rewrite <- bpow_IZR by lia. apply Rle_trans with (IZR m); [apply IZR_le; exact H52 | lra]. }
          assert (E1 : eps * bpow 52 = 1)
            by (unfold eps; rewrite <- bpow_add; reflexivity).
          assert (E : bpow e = eps * (bpow 52 * bpow e))
            by (rewrite <- Rmult_assoc, E1; ring).
          rewrite E at 1. pose proof (eps_scaled_le _ _ _ Pe H). lra.
        * pose proof (bpow_le e (-1074) He). unfold eta. lra.
    - eapply Rle_trans; [exact Herr |].
      set (f := fexp prec emax (Zdigits2 m + e)) in *.
      assert (Ef : (e + k = f)%Z) by (unfold k in *; lia).
      assert (Hf : f = Z.max (Zdigits2 m + e - 53) (-1074)) by reflexivity.
      rewrite Ef.
      destruct (Z.eq_dec f (-1074)) as [-> | Nf]; [unfold eta; lra |].
      assert (Hmpos : (0 < m)%Z).
      { destruct (Z.eq_dec m 0) as [E0 | E0]; [| lia].
        rewrite E0 in Hf. cbn [Zdigits2] in Hf. unfold k in K0. lia. }
      pose proof (Zdigits2_bounds m Hmpos) as [Dlo _].
      set (d := Zdigits2 m) in *.
      assert (Hd1 : (1 <= d)%Z).
      { pose proof (Zdigits2_nonneg m). destruct (Z.eq_dec d 0) as [D0 | D0]; [| fold d in H; lia].
        unfold d in D0. destruct m; cbn in D0; lia. }
      assert (Efd : f = (-52 + ((d - 1) + e))%Z) by lia.
      rewrite Efd, !bpow_add. fold eps.
      assert (bpow (d - 1) <= x).
      { rewrite <- bpow_IZR by lia. apply Rle_trans with (IZR m); [apply IZR_le; exact Dlo | lra]. }
      pose proof (eps_scaled_le _ _ _ Pe H). lra. }
  assert (Hysmall : y <= bpow 902).
  { assert (y <= x * bpow e + (eps * (x * bpow e) + eta)).
    { apply Rabs_bound in Hbound. lra. }
    pose proof eps_le_1.
    assert (eta <= bpow 900) by (apply bpow_le; lia).
    assert (bpow 902 = 4 * bpow 900).
    { replace 902%Z with (2 + 900)%Z by lia. rewrite bpow_add.
      replace (bpow 2) with 4; [reflexivity |].
      replace 2%Z with (1 + 1)%Z by lia. rewrite bpow_add, bpow_1. lra. }
    assert (0 <= x * bpow e) by nra.
    nra. }
  destruct mf as [| p | p]; [| | lia].
  - split; [reflexivity |]. exists y.
    assert (Y0 : y = 0) by (rewrite <- Hy; ring).
    split; [| split; [exact Hy0 | exact Hbound]].
    cbn [SF2R]. rewrite Y0. destruct s; lra.
  - assert (Hef971 : (ef <= 971)%Z).
    { assert (bpow ef <= bpow 902).
      { apply Rle_trans with y; [| exact Hysmall]. rewrite <- Hy.
        pose proof (bpow_pos ef). assert (1 <= IZR (Zpos p)) by (apply IZR_le; lia). nra. }
      apply bpow_le_inv in H. lia. }
    replace (ef <=? 971)%Z with true by (symmetry; apply Z.leb_le; exact Hef971).
    split; [reflexivity |]. exists y.
    split; [| split; [exact Hy0 | exact Hbound]].
    cbn [SF2R]. rewrite <- Hy.
    destruct s; cbn [cond_Zopp]; [| reflexivity].
    rewrite opp_IZR. ring.
Qed.

End B64_rounding.

(** ** The error of one operation *)

Module B64_ops.
Import B64 B64_real B64_rounding.
Local Open Scope R_scope.

(** [x] approximates [X] with the error of one rounding. *)
Definition rounds_to (x : spec_float) (X : R) : Prop :=
  sf_finite x = true /\ Rabs (SF2R x - X) <= eps * Rabs X + eta.

Lemma rounds_to_exact (x : spec_float) :
  sf_finite x = true -> rounds_to x (SF2R x).
Proof.
  intros Hf. split; [exact Hf |].
  replace (SF2R x - SF2R x) with 0 by ring. rewrite Rabs_R0.
  pose proof eps_pos. pose proof eta_pos. pose proof (Rabs_pos (SF2R x)). nra.
Qed.

Lemma round_aux_rounds (s : bool) (m e : Z) (l : location) (x : R) :
  (0 <= m)%Z -> IZR m <= x <= IZR m + 1 ->
  (l = loc_Exact -> x = IZR m) ->
  (l <> loc_Exact -> (2 ^ 52 <= m)%Z \/ (e <= -1074)%Z) ->
  x * bpow e <= bpow 900 ->
  rounds_to (binary_round_aux prec emax s m e l)
            (if s then - (x * bpow e) else x * bpow e).
Proof.
  intros Hm Hx He Hi Hov.
  destruct (round_aux_error s m e l x Hm Hx He Hi Hov) as (Hf & y & Hy & Hy0 & Hb).
  split; [exact Hf |]. rewrite Hy.
  assert (Hx0 : 0 <= x * bpow e).
  { apply Rmult_le_pos; [pose proof (IZR_le 0 m Hm); lra | apply Rlt_le, bpow_pos]. }
  destruct s.
  - replace (- y - - (x * bpow e)) with (- (y - x * bpow e)) by ring.
    rewrite Rabs_Ropp, Rabs_Ropp, (Rabs_pos_eq _ Hx0). exact Hb.
  - rewrite (Rabs_pos_eq _ Hx0). exact Hb.
Qed.

Lemma SF2R_finite (s : bool) (m : positive) (e : Z) :
  SF2R (S754_finite s m e) = (if s then - (IZR (Zpos m) * bpow e) else IZR (Zpos m) * bpow e).
Proof. destruct s; cbn [SF2R cond_Zopp]; [rewrite opp_IZR; ring | reflexivity]. Qed.

(** *** Multiplication *)

Lemma SFmul_rounds (x y : spec_float) :
  sf_finite x = true -> sf_finite y = true ->
  Rabs (SF2R x * SF2R y) <= bpow 900 ->
  rounds_to (SF64mul x y) (SF2R x * SF2R y).
Proof.
  intros Hx Hy Hov.
  destruct x as [sx | sx | | sx mx ex]; try discriminate;
  destruct y as [sy | sy | | sy my ey]; try discriminate;
    try (cbn [SF64mul SFmul SF2R]; rewrite ?Rmult_0_l, ?Rmult_0_r;
         apply (rounds_to_exact (S754_zero _)); reflexivity).
  cbn [SF64mul SFmul].
  assert (E : SF2R (S754_finite sx mx ex) * SF2R (S754_finite sy my ey)
              = if xorb sx sy then - (IZR (Zpos (mx * my)) * bpow (ex + ey))
                else IZR (Zpos (mx * my)) * bpow (ex + ey)).
  { rewrite !SF2R_finite, Pos2Z.inj_mul, mult_IZR, bpow_add.
    destruct sx, sy; cbn [xorb]; ring. }
  rewrite E in *. apply round_aux_rounds; try lia.
  - lra.
  - reflexivity.
  - discriminate 1 || (intros H; exfalso; apply H; reflexivity).
  - destruct (xorb sx sy); [rewrite Rabs_Ropp in Hov |];
      rewrite Rabs_pos_eq in Hov; try exact Hov;
      apply Rmult_le_pos; [apply (IZR_le 0); lia | apply Rlt_le, bpow_pos
                          | apply (IZR_le 0); lia | apply Rlt_le, bpow_pos].
Qed.


(** *** Addition and subtraction *)

Lemma shl_align_value (m : positive) (e e' : Z) :
  IZR (Zpos (fst (shl_align m e e'))) * bpow (snd (shl_align m e e'))
  = IZR (Zpos m) * bpow e.
Proof.
  unfold shl_align. destruct (e' - e)%Z as [| d | d] eqn:Hd; cbn [fst snd];
    try reflexivity.
  change (Pos.iter xO m d) with (shift_pos d m).
  rewrite shift_pos_correct, Z.pow_pos_fold, mult_IZR, bpow_IZR by lia.
  replace (bpow e) with (bpow (e' + Zpos d)) by (f_equal; lia).
  rewrite bpow_add. ring.
Qed.

Lemma binary_round_rounds (s : bool) (m : positive) (e : Z) :
  IZR (Zpos m) * bpow e <= bpow 900 ->
  rounds_to (binary_round prec emax s m e)
            (if s then - (IZR (Zpos m) * bpow e) else IZR (Zpos m) * bpow e).
Proof.
  intros Hov. unfold binary_round.
  pose proof (shl_align_value m e (fexp prec emax (Zpos (digits2_pos m) + e))) as E.
  destruct (shl_align m e _) as [mz ez]. cbn [fst snd] in E.
  rewrite <- E in *. apply round_aux_rounds; try lia.
  - lra.
  - reflexivity.
  - intros H. exfalso. apply H. reflexivity.
  - exact Hov.
Qed.

Lemma binary_normalize_rounds (M e : Z) :
  Rabs (IZR M * bpow e) <= bpow 900 ->
  rounds_to (binary_normalize prec emax M e false) (IZR M * bpow e).
Proof.
  intros Hov. pose proof (bpow_pos e) as Pe.
  destruct M as [| p | p]; cbn [binary_normalize].
  - rewrite Rmult_0_l. apply (rounds_to_exact (S754_zero false)). reflexivity.
  - apply (binary_round_rounds false p e).
    rewrite Rabs_pos_eq in Hov; [exact Hov |].
    apply Rmult_le_pos; [apply (IZR_le 0); lia | lra].
  - change (Zneg p) with (- Zpos p)%Z in *. rewrite opp_IZR in *.
    replace (- IZR (Zpos p) * bpow e) with (- (IZR (Zpos p) * bpow e)) in * by ring.
    apply (binary_round_rounds true p e).
    rewrite Rabs_Ropp, Rabs_pos_eq in Hov; [exact Hov |].
    apply Rmult_le_pos; [apply (IZR_le 0); lia | lra].
Qed.

Lemma aligned_value (s : bool) (m : positive) (e ez : Z) :
  (ez <= e)%Z ->
  IZR (cond_Zopp s (Zpos (fst (shl_align m e ez)))) * bpow ez
  = SF2R (S754_finite s m e).
Proof.
  intros Hle. rewrite shl_align_fst by exact Hle. cbn [SF2R].
  replace (bpow e) with (bpow (ez + (e - ez))) by (f_equal; lia). rewrite bpow_add.
  rewrite <- (bpow_IZR (e - ez)) by lia.
  destruct s; cbn [cond_Zopp]; rewrite ?opp_IZR, ?mult_IZR; ring.
Qed.

Lemma SFadd_rounds (x y : spec_float) :
  sf_finite x = true -> sf_finite y = true ->
  Rabs (SF2R x + SF2R y) <= bpow 900 ->
  rounds_to (SF64add x y) (SF2R x + SF2R y).
Proof.
  intros Hx Hy Hov.
  destruct x as [sx | sx | | sx mx ex]; try discriminate;
  destruct y as [sy | sy | | sy my ey]; try discriminate.
  - cbn [SF2R]. rewrite Rplus_0_l.
    destruct sx, sy; apply (rounds_to_exact (S754_zero _)); reflexivity.
  - cbn [SF64add SFadd]. change (SF2R (S754_zero sx)) with 0. rewrite Rplus_0_l.
    apply rounds_to_exact. reflexivity.
  - cbn [SF64add SFadd]. change (SF2R (S754_zero sy)) with 0. rewrite Rplus_0_r.
    apply rounds_to_exact. reflexivity.
  - cbn [SF64add SFadd].
    set (ez := Z.min ex ey).
    assert (E : IZR (cond_Zopp sx (Zpos (fst (shl_align mx ex ez)))
                     + cond_Zopp sy (Zpos (fst (shl_align my ey ez)))) * bpow ez
                = SF2R (S754_finite sx mx ex) + SF2R (S754_finite sy my ey)).
    { rewrite plus_IZR, Rmult_plus_distr_r, !aligned_value by (unfold ez; lia).
      reflexivity. }
    rewrite <- E in *. apply binary_normalize_rounds. exact Hov.
Qed.

Lemma SFsub_rounds (x y : spec_float) :
  sf_finite x = true -> sf_finite y = true ->
  Rabs (SF2R x - SF2R y) <= bpow 900 ->
  rounds_to (SF64sub x y) (SF2R x - SF2R y).
Proof.
  intros Hx Hy Hov.
  destruct x as [sx | sx | | sx mx ex]; try discriminate;
  destruct y as [sy | sy | | sy my ey]; try discriminate.
  - cbn [SF2R]. rewrite Rminus_0_r.
    destruct sx, sy; apply (rounds_to_exact (S754_zero _)); reflexivity.
  - cbn [SF64sub SFsub]. change (SF2R (S754_zero sx)) with 0.
    replace (0 - SF2R (S754_finite sy my ey)) with (SF2R (S754_finite (negb sy) my ey)).
    + apply rounds_to_exact. reflexivity.
    + rewrite !SF2R_finite. destruct sy; cbn [negb]; ring.
  - cbn [SF64sub SFsub]. change (SF2R (S754_zero sy)) with 0. rewrite Rminus_0_r.
    apply rounds_to_exact. reflexivity.
  - cbn [SF64sub SFsub].
    set (ez := Z.min ex ey).
    assert (E : IZR (cond_Zopp sx (Zpos (fst (shl_align mx ex ez)))
                     - cond_Zopp sy (Zpos (fst (shl_align my ey ez)))) * bpow ez
                = SF2R (S754_finite sx mx ex) - SF2R (S754_finite sy my ey)).
    { rewrite minus_IZR, Rmult_minus_distr_r, !aligned_value by (unfold ez; lia).
      reflexivity. }
    rewrite <- E in *. apply binary_normalize_rounds. exact Hov.
Qed.


(** *** Square root *)

Lemma bpow_double (e : Z) : bpow (2 * e) = bpow e * bpow e.
Proof. replace (2 * e)%Z with (e + e)%Z by lia. apply bpow_add. Qed.

Lemma sqrt_core_spec (m : positive) (e : Z) :
  let '(q, e', l) := SFsqrt_core_binary prec emax (Zpos m) e in
  (0 <= q)%Z /\
  IZR q <= R_sqrt.sqrt (IZR (Zpos m) * bpow e) * bpow (- e') <= IZR q + 1 /\
  (l = loc_Exact -> R_sqrt.sqrt (IZR (Zpos m) * bpow e) * bpow (- e') = IZR q) /\
  (l <> loc_Exact -> (2 ^ 52 <= q)%Z \/ (e' <= -1074)%Z).
Proof.
  unfold SFsqrt_core_binary.
  set (d := Zdigits2 (Zpos m)).
  set (e' := Z.min (fexp prec emax (Z.div2 (d + e + 1))) (Z.div2 e)).
  set (s := (e - 2 * e')%Z).
  assert (Hs : (0 <= s)%Z).
  { unfold s, e'. pose proof (Z.div2_div e). pose proof (Z.div_mod e 2 ltac:(lia)).
    pose proof (Z.mod_pos_bound e 2 ltac:(lia)). lia. }
  set (m' := match s with Z0 => Zpos m | Zpos _ => Z.shiftl (Zpos m) s | Zneg _ => 0%Z end).
  assert (Hm' : m' = (Zpos m * 2 ^ s)%Z).
  { unfold m'. destruct s as [| p | p] eqn:Es; [lia | | lia].
    apply Z.shiftl_mul_pow2. lia. }
  assert (Hps : (0 < 2 ^ s)%Z) by (apply Z.pow_pos_nonneg; lia).
  assert (Hm'0 : (0 < m')%Z) by (rewrite Hm'; lia).
  pose proof (Z.sqrtrem_spec m' ltac:(lia)) as Hsq.
  destruct (Z.sqrtrem m') as [q r]. destruct Hsq as [Hq Hr].
  assert (Hq0 : (0 <= q)%Z) by lia.
  (* the real square root, in units of 2^e' *)
  assert (Hv : R_sqrt.sqrt (IZR (Zpos m) * bpow e) * bpow (- e') = R_sqrt.sqrt (IZR m')).
  { assert (E : IZR (Zpos m) * bpow e = IZR m' * (bpow e' * bpow e')).
    { rewrite Hm', mult_IZR, bpow_IZR by lia. rewrite <- bpow_double.
      rewrite Rmult_assoc, <- bpow_add. f_equal. f_equal. unfold s. lia. }
    rewrite E, sqrt_mult_alt by (apply (IZR_le 0); lia).
    rewrite sqrt_square by (apply Rlt_le, bpow_pos).
    rewrite Rmult_assoc, <- bpow_add. replace (e' + - e')%Z with 0%Z by lia.
    rewrite bpow_0. ring. }
  rewrite Hv.
  assert (Q1 : IZR q * IZR q <= IZR m').
  { rewrite <- mult_IZR. apply IZR_le. lia. }
  assert (Q2 : IZR m' <= (IZR q + 1) * (IZR q + 1)).
  { rewrite <- (plus_IZR q 1), <- mult_IZR. apply IZR_le. nia. }
  assert (Pq : 0 <= IZR q) by (apply (IZR_le 0); lia).
  split; [exact Hq0 |]. split; [| split].
  - split.
    + rewrite <- (sqrt_square (IZR q)) by exact Pq. apply sqrt_le_1_alt. exact Q1.
    + rewrite <- (sqrt_square (IZR q + 1)) by lra. apply sqrt_le_1_alt. exact Q2.
  - intros Hl. destruct (Z.eqb_spec r 0) as [R0 | R0]; [| discriminate].
    assert (E : m' = (q * q)%Z) by lia.
    rewrite E, mult_IZR. apply sqrt_square. exact Pq.
  - intros _.
    assert (Hf : fexp prec emax (Z.div2 (d + e + 1))
                 = Z.max (Z.div2 (d + e + 1) - 53) (-1074)) by reflexivity.
    destruct (Z.le_gt_cases e' (-1074)) as [He | He]; [right; exact He | left].
    assert (He' : (e' <= Z.div2 (d + e + 1) - 53)%Z) by (unfold e' in *; lia).
    pose proof (Z.div2_div (d + e + 1)) as D2.
    pose proof (Z.div_mod (d + e + 1) 2 ltac:(lia)).
    pose proof (Z.mod_pos_bound (d + e + 1) 2 ltac:(lia)).
    assert (Hsd : (105 - d <= s)%Z) by (unfold s; lia).
    pose proof (digits2_pos_bounds m) as [Dlo _].
    change (Zpos (digits2_pos m)) with d in Dlo.
    assert (Hd1 : (1 <= d)%Z) by (unfold d; cbn; lia).
    assert (H104 : (2 ^ 104 <= m')%Z).
    { rewrite Hm'. apply Z.le_trans with (2 ^ ((d - 1) + s))%Z.
      - apply Z.pow_le_mono_r; lia.
      - rewrite Z.pow_add_r by lia. apply Z.mul_le_mono_nonneg_r; [lia | exact Dlo]. }
    destruct (Z.le_gt_cases (2 ^ 52) q) as [Hq52 | Hq52]; [exact Hq52 | exfalso].
    assert (Hq1 : (q + 1 <= 2 ^ 52)%Z) by lia.
    assert (Hqq : ((q + 1) * (q + 1) <= 2 ^ 52 * 2 ^ 52)%Z)
      by (apply Z.mul_le_mono_nonneg; lia).
    change (2 ^ 52 * 2 ^ 52)%Z with (2 ^ 104)%Z in Hqq. lia.
Qed.


Lemma bpow_opp_cancel (e : Z) : bpow (- e) * bpow e = 1.
Proof. rewrite <- bpow_add. replace (- e + e)%Z with 0%Z by lia. apply bpow_0. Qed.

Lemma sqrt_le_bpow (v : R) : 0 <= v -> v <= bpow 900 -> R_sqrt.sqrt v <= bpow 900.
Proof.
  intros H0 Hv. apply Rle_trans with (R_sqrt.sqrt (bpow 900)).
  - apply sqrt_le_1_alt. exact Hv.
  - replace 900%Z with (2 * 450)%Z by lia. rewrite bpow_double.
    rewrite sqrt_square by (apply Rlt_le, bpow_pos).
    rewrite <- bpow_double. apply bpow_le. lia.
Qed.

Lemma SFsqrt_rounds (x : spec_float) :
  sf_finite x = true -> 0 <= SF2R x -> SF2R x <= bpow 900 ->
  (forall m e, x <> S754_finite true m e) ->
  rounds_to (SF64sqrt x) (R_sqrt.sqrt (SF2R x)).
Proof.
  intros Hf H0 Hov Hpos.
  destruct x as [s | s | | s m e]; try discriminate.
  - cbn [SF64sqrt SFsqrt SF2R]. rewrite sqrt_0.
    apply (rounds_to_exact (S754_zero s)). reflexivity.
  - destruct s; [exfalso; apply (Hpos m e); reflexivity |].
    cbn [SF64sqrt SFsqrt]. rewrite SF2R_finite in *.
    pose proof (sqrt_core_spec m e) as Hc.
    destruct (SFsqrt_core_binary prec emax (Zpos m) e) as [[q e'] l].
    destruct Hc as (Hq0 & Hx & Hex & Hin).
    set (v := IZR (Zpos m) * bpow e) in *.
    assert (E : R_sqrt.sqrt v = R_sqrt.sqrt v * bpow (- e') * bpow e').
    { rewrite Rmult_assoc, bpow_opp_cancel. ring. }
    rewrite E.
    apply (round_aux_rounds false q e' l (R_sqrt.sqrt v * bpow (- e')));
      try assumption.
    rewrite <- E. apply sqrt_le_bpow; assumption.
Qed.

(** *** Division *)

Lemma new_location_exact (n r : Z) : new_location n r = loc_Exact -> r = 0%Z.
Proof.
  unfold new_location, new_location_even, new_location_odd.
  destruct (Z.even n); destruct (Z.eqb_spec r 0); try discriminate; auto.
Qed.

Lemma div_core_spec (m1 : positive) (e1 : Z) (m2 : positive) (e2 : Z) :
  let '(q, e', l) := SFdiv_core_binary prec emax (Zpos m1) e1 (Zpos m2) e2 in
  (0 <= q)%Z /\
  IZR q <= IZR (Zpos m1) * bpow e1 / (IZR (Zpos m2) * bpow e2) * bpow (- e')
        <= IZR q + 1 /\
  (l = loc_Exact ->
   IZR (Zpos m1) * bpow e1 / (IZR (Zpos m2) * bpow e2) * bpow (- e') = IZR q) /\
  (l <> loc_Exact -> (2 ^ 52 <= q)%Z \/ (e' <= -1074)%Z).
Proof.
  unfold SFdiv_core_binary.
  set (d1 := Zdigits2 (Zpos m1)). set (d2 := Zdigits2 (Zpos m2)).
  set (g := fexp prec emax (d1 + e1 - (d2 + e2))).
  set (e' := Z.min g (e1 - e2)).
  set (s := (e1 - e2 - e')%Z).
  assert (Hs : (0 <= s)%Z) by (unfold s, e'; lia).
  set (m' := match s with Z0 => Zpos m1 | Zpos _ => Z.shiftl (Zpos m1) s | Zneg _ => 0%Z end).
  assert (Hm' : m' = (Zpos m1 * 2 ^ s)%Z).
  { unfold m'. destruct s as [| p | p] eqn:Es; [lia | | lia].
    apply Z.shiftl_mul_pow2. lia. }
  assert (Hps : (0 < 2 ^ s)%Z) by (apply Z.pow_pos_nonneg; lia).
  assert (Hm'0 : (0 < m')%Z) by (rewrite Hm'; lia).
  pose proof (Z_div_mod m' (Zpos m2) ltac:(lia)) as Hdm.
  destruct (Z.div_eucl m' (Zpos m2)) as [q r]. destruct Hdm as [Hq Hr].
  assert (Hq0 : (0 <= q)%Z) by nia.
  pose proof (bpow_pos e1) as P1. pose proof (bpow_pos e2) as P2.
  assert (Pm2 : 0 < IZR (Zpos m2)) by (apply (IZR_lt 0); lia).
  assert (Hv : IZR (Zpos m1) * bpow e1 / (IZR (Zpos m2) * bpow e2) * bpow (- e')
               = IZR m' / IZR (Zpos m2)).
  { rewrite Hm', mult_IZR, bpow_IZR by lia.
    assert (E : bpow e1 = bpow s * bpow e2 * bpow e').
    { rewrite <- !bpow_add. f_equal. unfold s. lia. }
    rewrite E. pose proof (bpow_opp_cancel e') as C.
    rewrite Rmult_comm in C.
    replace (IZR (Zpos m1) * (bpow s * bpow e2 * bpow e') /
             (IZR (Zpos m2) * bpow e2) * bpow (- e'))
      with (IZR (Zpos m1) * bpow s / IZR (Zpos m2) * (bpow e' * bpow (- e')))
      by (field; split; lra).
    rewrite C. ring. }
  rewrite Hv.
  assert (Q1 : IZR q * IZR (Zpos m2) <= IZR m').
  { rewrite <- mult_IZR. apply IZR_le. lia. }
  assert (Q2 : IZR m' <= (IZR q + 1) * IZR (Zpos m2)).
  { rewrite <- (plus_IZR q 1), <- mult_IZR. apply IZR_le. lia. }
  split; [exact Hq0 |]. split; [| split].
  - split.
    + apply Rmult_le_reg_r with (IZR (Zpos m2)); [exact Pm2 |].
      unfold Rdiv. rewrite Rmult_assoc, Rinv_l by lra. lra.
    + apply Rmult_le_reg_r with (IZR (Zpos m2)); [exact Pm2 |].
      unfold Rdiv. rewrite Rmult_assoc, Rinv_l by lra. lra.
  - intros Hl. apply new_location_exact in Hl.
    assert (E : m' = (q * Zpos m2)%Z) by lia.
    rewrite E, mult_IZR. field. lra.
  - intros _.
    assert (Hg : g = Z.max (d1 + e1 - (d2 + e2) - 53) (-1074)) by reflexivity.
    destruct (Z.le_gt_cases e' (-1074)) as [He | He]; [right; exact He | left].
    assert (Hsd : (53 - d1 + d2 <= s)%Z) by (unfold s, e' in *; lia).
    pose proof (digits2_pos_bounds m1) as [Dlo1 _].
    pose proof (digits2_pos_bounds m2) as [_ Dhi2].
    change (Zpos (digits2_pos m1)) with d1 in Dlo1.
    change (Zpos (digits2_pos m2)) with d2 in Dhi2.
    assert (Hd1 : (1 <= d1)%Z) by (unfold d1; cbn; lia).
    assert (Hd2 : (1 <= d2)%Z) by (unfold d2; cbn; lia).
    assert (Hlow : (2 ^ 52 * Zpos m2 <= m')%Z).
    { rewrite Hm'. apply Z.le_trans with (2 ^ 52 * 2 ^ d2)%Z.
      - apply Z.mul_le_mono_nonneg_l; lia.
      - rewrite <- Z.pow_add_r by lia.
        apply Z.le_trans with (2 ^ ((d1 - 1) + s))%Z.
        + apply Z.pow_le_mono_r; lia.
        + rewrite Z.pow_add_r by lia. apply Z.mul_le_mono_nonneg_r; [lia | exact Dlo1]. }
    destruct (Z.le_gt_cases (2 ^ 52) q) as [Hq52 | Hq52]; [exact Hq52 | exfalso].
    assert (m' < 2 ^ 52 * Zpos m2)%Z by nia. lia.
Qed.

Lemma SFdiv_rounds (x y : spec_float) :
  sf_finite x = true -> sf_finite y = true -> SF2R y <> 0 ->
  Rabs (SF2R x / SF2R y) <= bpow 900 ->
  rounds_to (SF64div x y) (SF2R x / SF2R y).
Proof.
  intros Hx Hy Hy0 Hov.
  destruct y as [sy | sy | | sy my ey]; try discriminate;
    [exfalso; apply Hy0; reflexivity |].
  destruct x as [sx | sx | | sx mx ex]; try discriminate.
  - cbn [SF64div SFdiv]. change (SF2R (S754_zero sx)) with 0.
    unfold Rdiv. rewrite Rmult_0_l.
    apply (rounds_to_exact (S754_zero _)). reflexivity.
  - cbn [SF64div SFdiv].
    pose proof (div_core_spec mx ex my ey) as Hc.
    destruct (SFdiv_core_binary prec emax (Zpos mx) ex (Zpos my) ey) as [[q e'] l].
    destruct Hc as (Hq0 & Hxr & Hex & Hin).
    set (v := IZR (Zpos mx) * bpow ex / (IZR (Zpos my) * bpow ey)) in *.
    assert (Pv : 0 <= v).
    { unfold v. pose proof (bpow_pos ex). pose proof (bpow_pos ey).
      assert (0 < IZR (Zpos mx)) by (apply (IZR_lt 0); lia).
      assert (0 < IZR (Zpos my)) by (apply (IZR_lt 0); lia).
      apply Rlt_le, Rdiv_lt_0_compat; nra. }
    assert (Ev : SF2R (S754_finite sx mx ex) / SF2R (S754_finite sy my ey)
                 = if xorb sx sy then - (v * bpow (- e') * bpow e')
                   else v * bpow (- e') * bpow e').
    { rewrite (Rmult_assoc v), bpow_opp_cancel, Rmult_1_r. unfold v.
      rewrite !SF2R_finite.
      pose proof (bpow_pos ex). pose proof (bpow_pos ey).
      assert (0 < IZR (Zpos my)) by (apply (IZR_lt 0); lia).
      destruct sx, sy; cbn [xorb]; field; split; lra. }
    rewrite Ev in *.
    apply (round_aux_rounds (xorb sx sy) q e' l (v * bpow (- e'))); try assumption.
    destruct (xorb sx sy); [rewrite Rabs_Ropp in Hov |];
      rewrite Rabs_pos_eq in Hov; try exact Hov;
      rewrite Rmult_assoc, bpow_opp_cancel; lra.
Qed.

End B64_ops.

(** ** The operations on primitive floats *)

Module B64_float.
Import B64 B64_real B64_rounding B64_ops B64_exact.
Local Open Scope R_scope.

(** The float [x] is a finite number within one rounding of [X]. *)
Definition approx (x : float) (X : R) : Prop :=
  finite x = true /\ Rabs (value x - X) <= eps * Rabs X + eta.

Lemma approx_bound (x : float) (X B : R) :
  approx x X -> Rabs X <= B ->
  finite x = true /\ X - (eps * B + eta) <= value x <= X + (eps * B + eta).
Proof.
  intros [Hf He] HB. split; [exact Hf |].
  pose proof eps_pos. apply Rabs_bound in He.
  assert (eps * Rabs X <= eps * B) by (apply Rmult_le_compat_l; lra).
  lra.
Qed.

Lemma mul_approx (x y : float) :
  finite x = true -> finite y = true ->
  Rabs (value x * value y) <= bpow 900 ->
  approx (x * y)%float (value x * value y).
Proof.
  intros Hx Hy Hb. unfold approx, finite, value. rewrite mul_spec.
  apply SFmul_rounds; assumption.
Qed.

Lemma add_approx (x y : float) :
  finite x = true -> finite y = true ->
  Rabs (value x + value y) <= bpow 900 ->
  approx (x + y)%float (value x + value y).
Proof.
  intros Hx Hy Hb. unfold approx, finite, value. rewrite add_spec.
  apply SFadd_rounds; assumption.
Qed.

Lemma sub_approx (x y : float) :
  finite x = true -> finite y = true ->
  Rabs (value x - value y) <= bpow 900 ->
  approx (x - y)%float (value x - value y).
Proof.
  intros Hx Hy Hb. unfold approx, finite, value. rewrite sub_spec.
  apply SFsub_rounds; assumption.
Qed.

Lemma div_approx (x y : float) :
  finite x = true -> finite y = true -> value y <> 0 ->
  Rabs (value x / value y) <= bpow 900 ->
  approx (x / y)%float (value x / value y).
Proof.
  intros Hx Hy H0 Hb. unfold approx, finite, value. rewrite div_spec.
  apply SFdiv_rounds; assumption.
Qed.

Lemma sqrt_approx (x : float) :
  finite x = true -> 0 < value x -> value x <= bpow 900 ->
  approx (PrimFloat.sqrt x) (R_sqrt.sqrt (value x)).
Proof.
  intros Hx H0 Hb. unfold approx, finite, value in *. rewrite sqrt_spec.
  apply SFsqrt_rounds; try assumption; [lra |].
  intros m e E. rewrite E, SF2R_finite in H0.
  pose proof (bpow_pos e). assert (0 < IZR (Zpos m)) by (apply (IZR_lt 0); lia).
  nra.
Qed.

Lemma SF2R_opp (x : spec_float) : SF2R (SFopp x) = - SF2R x.
Proof.
  destruct x as [s | s | | s m e]; cbn [SFopp SF2R]; try lra.
  destruct s; cbn [negb cond_Zopp]; rewrite ?opp_IZR; lra.
Qed.

Lemma value_opp (x : float) : value (- x)%float = - value x.
Proof. unfold value. rewrite opp_spec. apply SF2R_opp. Qed.

Lemma finite_opp (x : float) : finite (- x)%float = finite x.
Proof. unfold finite. rewrite opp_spec. destruct (Prim2SF x); reflexivity. Qed.

Lemma value_abs (x : float) : value (abs x) = Rabs (value x).
Proof.
  unfold value. rewrite abs_spec.
  destruct (Prim2SF x) as [s | s | | s m e]; cbn [SFabs SF2R];
    try (symmetry; apply Rabs_R0).
  pose proof (bpow_pos e). assert (0 < IZR (Zpos m)) by (apply (IZR_lt 0); lia).
  destruct s; cbn [cond_Zopp].
  - change (Z.opp (Zpos m)) with (- Zpos m)%Z. rewrite opp_IZR.
    rewrite <- Ropp_mult_distr_l, Rabs_Ropp, Rabs_pos_eq; nra.
  - rewrite Rabs_pos_eq; nra.
Qed.

Lemma finite_abs (x : float) : finite (abs x) = finite x.
Proof. unfold finite. rewrite abs_spec. destruct (Prim2SF x); reflexivity. Qed.

Lemma finite_not_nan (x : float) : finite x = true -> is_nan x = false.
Proof. unfold finite. rewrite is_nan_spec. destruct (Prim2SF x); easy. Qed.

(** The order of two finite numbers is the order of their values. *)
Lemma key_value (x : float) :
  finite x = true -> IZR (key x) = value x * bpow 1074.
Proof.
  unfold finite, key, value. pose proof (Prim2SF_valid x) as Hv.
  destruct (Prim2SF x) as [s | s | | s m e]; try discriminate; intros _;
    cbn [SF2Z SF2R]; [lra |].
  apply bounded_inv in Hv. destruct Hv as (_ & He & _).
  destruct s; cbn [cond_Zopp]; rewrite ?opp_IZR, mult_IZR, bpow_IZR by lia;
    replace (e + 1074)%Z with (e + 1074)%Z by lia; rewrite bpow_add;
    change (Z.opp (Zpos m)) with (- Zpos m)%Z; rewrite ?opp_IZR; ring.
Qed.

Lemma leb_value (x y : float) :
  finite x = true -> finite y = true -> value x <= value y ->
  (x <=? y)%float = true.
Proof.
  intros Hx Hy Hle. rewrite leb_key.
  rewrite (finite_not_nan x Hx), (finite_not_nan y Hy). cbn [negb andb].
  apply Z.leb_le. apply le_IZR. rewrite !key_value by assumption.
  pose proof (bpow_pos 1074). nra.
Qed.

(** ** Rounding to the nearest integer *)

Lemma Zrne_spec (m k : Z) :
  (0 <= m)%Z -> (0 < k)%Z ->
  (0 <= np.Zrne m k <= m / 2 ^ k + 1)%Z /\
  Rabs (IZR (np.Zrne m k) - IZR m * bpow (- k)) <= 1 / 2.
Proof.
  intros Hm Hk. unfold np.Zrne.
  assert (HP : (0 < 2 ^ k)%Z) by (apply Z.pow_pos_nonneg; lia).
  pose proof (Z.div_mod m (2 ^ k) ltac:(lia)) as Hdm.
  pose proof (Z.mod_pos_bound m (2 ^ k) HP) as Hr.
  assert (Hq : (0 <= m / 2 ^ k)%Z) by (apply Z.div_pos; lia).
  set (q := (m / 2 ^ k)%Z) in *. set (r := (m mod 2 ^ k)%Z) in *.
  assert (EP : bpow (- k) * IZR (2 ^ k) = 1).
  { rewrite bpow_IZR by lia. apply bpow_opp_cancel. }
  assert (PP : 0 < IZR (2 ^ k)) by (apply (IZR_lt 0); exact HP).
  assert (Em : IZR m * bpow (- k) = IZR q + IZR r * bpow (- k)).
  { rewrite Hdm, plus_IZR, mult_IZR.
    replace ((IZR (2 ^ k) * IZR q + IZR r) * bpow (- k))
      with (IZR q * (bpow (- k) * IZR (2 ^ k)) + IZR r * bpow (- k)) by ring.
    rewrite EP. ring. }
  pose proof (bpow_pos (- k)) as Pk.
  assert (R0 : 0 <= IZR r) by (apply (IZR_le 0); lia).
  assert (Hscale : forall c : R, c * IZR (2 ^ k) * bpow (- k) = c).
  { intros c. rewrite Rmult_assoc, (Rmult_comm (IZR _)), EP. ring. }
  rewrite Em.
  destruct (Z.compare_spec (2 * r) (2 ^ k)) as [E | L | G].
  - assert (2 * (IZR r * bpow (- k)) = 1).
    { rewrite <- (Hscale 1). rewrite <- E, mult_IZR. ring. }
    split; [destruct (Z.even q); lia |].
    apply Rabs_le. destruct (Z.even q); rewrite ?plus_IZR; lra.
  - split; [lia |]. apply Rabs_le.
    assert (2 * (IZR r * bpow (- k)) <= 1).
    { rewrite <- (Hscale 1).
      replace (2 * (IZR r * bpow (- k))) with (IZR (2 * r) * bpow (- k))
        by (rewrite mult_IZR; ring).
      rewrite Rmult_1_l. apply Rmult_le_compat_r; [lra | apply IZR_le; lia]. }
    nra.
  - split; [lia |]. apply Rabs_le. rewrite plus_IZR.
    assert (1 <= 2 * (IZR r * bpow (- k))).
    { rewrite <- (Hscale 1) at 1.
      replace (2 * (IZR r * bpow (- k))) with (IZR (2 * r) * bpow (- k))
        by (rewrite mult_IZR; ring).
      rewrite Rmult_1_l. apply Rmult_le_compat_r; [lra | apply IZR_le; lia]. }
    assert (IZR r * bpow (- k) <= 1).
    { rewrite <- (Hscale 1). rewrite Rmult_1_l.
      apply Rmult_le_compat_r; [lra | apply IZR_le; lia]. }
    lra.
Qed.

Lemma SF2R_Zfloat (z : Z) : (Z.abs z < 2 ^ 53)%Z -> SF2R (Zfloat_sf z) = IZR z.
Proof.
  intros Hz. destruct z as [| p | p]; cbn [Zfloat_sf SF2R cond_Zopp]; [lra | |].
  - rewrite norm_mant_Z by lia. pose proof (digits_small p ltac:(lia)).
    unfold norm_exp. rewrite mult_IZR, bpow_IZR by lia.
    rewrite Rmult_assoc, <- bpow_add.
    replace (53 - Zpos (digits2_pos p) + (Zpos (digits2_pos p) - 53))%Z with 0%Z by lia.
    rewrite bpow_0. ring.
  - change (Z.opp (Zpos (norm_mant p))) with (- Zpos (norm_mant p))%Z.
    rewrite opp_IZR, norm_mant_Z by lia. pose proof (digits_small p ltac:(lia)).
    unfold norm_exp. rewrite mult_IZR, bpow_IZR by lia.
    change (Zneg p) with (- Zpos p)%Z. rewrite opp_IZR.
    rewrite <- Ropp_mult_distr_l, Rmult_assoc, <- bpow_add.
    replace (53 - Zpos (digits2_pos p) + (Zpos (digits2_pos p) - 53))%Z with 0%Z by lia.
    rewrite bpow_0. ring.
Qed.

Lemma of_uint63_value (z : Z) :
  (0 <= z < 2 ^ 53)%Z ->
  finite (of_uint63 (Uint63.of_Z z)) = true /\
  value (of_uint63 (Uint63.of_Z z)) = IZR z.
Proof.
  intros Hz. unfold finite, value. rewrite of_uint63_spec, Uint63.of_Z_spec.
  rewrite Z.mod_small by (change Uint63.wB with (2 ^ 63)%Z; lia).
  rewrite (binary_normalize_int z z 0) by (cbn; lia).
  split; [destruct z; reflexivity | apply SF2R_Zfloat; lia].
Qed.

Lemma rint_value (x : float) :
  finite x = true ->
  finite (np.rint x) = true /\ Rabs (value (np.rint x) - value x) <= 1 / 2.
Proof.
  intros Hx.
  assert (Hsame : finite x = true /\ Rabs (value x - value x) <= 1 / 2).
  { split; [exact Hx |]. rewrite Rminus_diag, Rabs_R0. lra. }
  unfold np.rint. pose proof (Prim2SF_valid x) as Hv.
  destruct (Prim2SF x) as [s | s | | s m e] eqn:Ex; try exact Hsame.
  destruct (Z.leb_spec 0 e) as [He | He]; [exact Hsame |].
  apply bounded_inv in Hv. destruct Hv as (Hd & _ & _).
  pose proof (digits2_pos_bounds m) as [_ Hm].
  assert (Hm53 : (Zpos m < 2 ^ 53)%Z).
  { eapply Z.lt_le_trans; [exact Hm | apply Z.pow_le_mono_r; lia]. }
  destruct (Zrne_spec (Zpos m) (- e) ltac:(lia) ltac:(lia)) as [[Z0 Z1] Zr].
  set (z := np.Zrne (Zpos m) (- e)) in *.
  assert (Hz : (0 <= z < 2 ^ 53)%Z).
  { split; [exact Z0 |].
    assert (Zpos m / 2 ^ (- e) <= Zpos m / 2 ^ 1)%Z.
    { apply Z.div_le_compat_l; [lia |]. split; [lia |].
      apply Z.pow_le_mono_r; lia. }
    assert (Zpos m / 2 ^ 1 < 2 ^ 52)%Z by (apply Z.div_lt_upper_bound; lia).
    lia. }
  destruct (of_uint63_value z Hz) as [Fr Vr].
  assert (Vx : value x = if s then - (IZR (Zpos m) * bpow e) else IZR (Zpos m) * bpow e).
  { unfold value. rewrite Ex. apply SF2R_finite. }
  replace (- - e)%Z with e in Zr by lia.
  rewrite Vx. destruct s.
  - rewrite finite_opp, value_opp, Vr. split; [exact Fr |].
    replace (- IZR z - - (IZR (Zpos m) * bpow e))
      with (- (IZR z - IZR (Zpos m) * bpow e)) by ring.
    rewrite Rabs_Ropp. exact Zr.
  - rewrite Vr. split; [exact Fr | exact Zr].
Qed.

(** ** The constants of the computation *)

Lemma bpow_neg_pos (p : positive) : bpow (Zneg p) = / IZR (2 ^ Zpos p).
Proof.
  rewrite bpow_IZR by lia. apply Rmult_eq_reg_r with (bpow (Zpos p)).
  - change (Zneg p) with (- Zpos p)%Z. rewrite bpow_opp_cancel.
    rewrite Rinv_l; [reflexivity |]. pose proof (bpow_pos (Zpos p)). lra.
  - pose proof (bpow_pos (Zpos p)). lra.
Qed.

Lemma eps_value : eps = / 4503599627370496.
Proof. unfold eps. rewrite bpow_neg_pos. reflexivity. Qed.

Lemma value_100 : finite 100 = true /\ value 100 = 100.
Proof.
  split; [reflexivity |]. unfold value. rewrite B64_round.Prim2SF_100.
  cbn [SF2R cond_Zopp]. rewrite bpow_neg_pos.
  change (2 ^ 46)%Z with 70368744177664%Z. lra.
Qed.

Lemma value_minus_two : finite (-2) = true /\ value (-2) = -2.
Proof.
  split; [reflexivity |]. unfold value.
  change (Prim2SF (-2)) with (S754_finite true 4503599627370496 (-51)).
  cbn [SF2R cond_Zopp]. rewrite bpow_neg_pos.
  change (2 ^ 51)%Z with 2251799813685248%Z.
  change (Z.opp 4503599627370496) with (-4503599627370496)%Z. lra.
Qed.

Lemma value_tolerance :
  finite 0x1.47ae147ae147bp-7 = true /\ 1 / 100 <= value 0x1.47ae147ae147bp-7.
Proof.
  split; [reflexivity |]. unfold value.
  change (Prim2SF 0x1.47ae147ae147bp-7)
    with (S754_finite false 5764607523034235 (-59)).
  cbn [SF2R cond_Zopp]. rewrite bpow_neg_pos.
  change (2 ^ 59)%Z with 576460752303423488%Z. lra.
Qed.

Lemma bpow_900_large : 1329227995784915872903807060280344576 <= bpow 900.
Proof.
  replace 1329227995784915872903807060280344576 with (bpow 120).
  - apply bpow_le. lia.
  - rewrite <- bpow_IZR by lia. reflexivity.
Qed.

Lemma eta_small : eta <= / 1329227995784915872903807060280344576.
Proof.
  apply Rle_trans with (bpow (-120)).
  - apply bpow_le. lia.
  - rewrite bpow_neg_pos. apply Req_le. reflexivity.
Qed.

End B64_float.

(** ** Error bounds in linear form *)

Module B64_bounds.
Import B64 B64_real B64_rounding B64_ops B64_float.
Local Open Scope R_scope.

Lemma abs_leb_value (x c : float) :
  (abs x <=? c)%float = true -> finite c = true ->
  finite x = true /\ Rabs (value x) <= value c.
Proof.
  intros Hle Hc. rewrite leb_key in Hle.
  apply andb_prop in Hle. destruct Hle as [Hn Hk].
  apply andb_prop in Hn. destruct Hn as [Hnx _].
  rewrite is_nan_spec, abs_spec in Hnx.
  assert (Hx : finite x = true).
  { unfold finite. pose proof (Prim2SF_valid c) as Vc.
    unfold finite in Hc. unfold key in Hk. rewrite abs_spec in Hk.
    apply Z.leb_le in Hk. pose proof inf_key_pos.
    destruct (Prim2SF x) as [s | s | | s m e]; try reflexivity.
    - exfalso. cbn [SFabs SF2Z cond_Zopp] in Hk.
      destruct (Prim2SF c) as [sc | sc | | sc mc ec]; try discriminate;
        cbn [SF2Z] in Hk; [lia |].
      pose proof (finite_key_bounds mc ec Vc).
      destruct sc; cbn [cond_Zopp] in Hk; lia.
    - discriminate Hnx. }
  split; [exact Hx |].
  apply Z.leb_le in Hk. apply IZR_le in Hk.
  rewrite !key_value in Hk by (rewrite ?finite_abs; assumption).
  rewrite value_abs in Hk.
  pose proof (bpow_pos 1074). nra.
Qed.


Local Notation "'u52'" := (/ 4503599627370496) (only parsing).
Local Notation "'big'" := 1329227995784915872903807060280344576 (only parsing).

Lemma big_le_bpow (B : R) : B <= big -> B <= bpow 900.
Proof. intros H. pose proof bpow_900_large. lra. Qed.

Lemma mul_bound (x y : float) (B : R) :
  finite x = true -> finite y = true ->
  - B <= value x * value y <= B -> B <= big ->
  finite (x * y)%float = true /\
  value x * value y - (u52 * B + eta) <= value (x * y)%float
    <= value x * value y + (u52 * B + eta).
Proof.
  intros Fx Fy HB Hbig.
  assert (HR : Rabs (value x * value y) <= B) by (apply Rabs_le; lra).
  rewrite <- eps_value. apply approx_bound; [| exact HR].
  apply mul_approx; try assumption. apply big_le_bpow. lra.
Qed.

Lemma add_bound (x y : float) (B : R) :
  finite x = true -> finite y = true ->
  - B <= value x + value y <= B -> B <= big ->
  finite (x + y)%float = true /\
  value x + value y - (u52 * B + eta) <= value (x + y)%float
    <= value x + value y + (u52 * B + eta).
Proof.
  intros Fx Fy HB Hbig.
  assert (HR : Rabs (value x + value y) <= B) by (apply Rabs_le; lra).
  rewrite <- eps_value. apply approx_bound; [| exact HR].
  apply add_approx; try assumption. apply big_le_bpow. lra.
Qed.

Lemma sub_bound (x y : float) (B : R) :
  finite x = true -> finite y = true ->
  - B <= value x - value y <= B -> B <= big ->
  finite (x - y)%float = true /\
  value x - value y - (u52 * B + eta) <= value (x - y)%float
    <= value x - value y + (u52 * B + eta).
Proof.
  intros Fx Fy HB Hbig.
  assert (HR : Rabs (value x - value y) <= B) by (apply Rabs_le; lra).
  rewrite <- eps_value. apply approx_bound; [| exact HR].
  apply sub_approx; try assumption. apply big_le_bpow. lra.
Qed.

Lemma sqrt_bound (x : float) :
  finite x = true -> 0 < value x -> value x <= big ->
  finite (PrimFloat.sqrt x) = true /\
  R_sqrt.sqrt (value x) - (u52 * R_sqrt.sqrt (value x) + eta)
    <= value (PrimFloat.sqrt x)
    <= R_sqrt.sqrt (value x) + (u52 * R_sqrt.sqrt (value x) + eta).
Proof.
  intros Fx H0 Hbig. rewrite <- eps_value. apply approx_bound.
  - apply sqrt_approx; try assumption. apply big_le_bpow. exact Hbig.
  - rewrite Rabs_pos_eq; [lra | apply sqrt_pos].
Qed.

Lemma round2_bound (x : float) (B : R) :
  finite x = true -> - B <= value x <= B -> 1 <= B -> B <= 1000000000000 ->
  finite (np.round2 x) = true /\
  value x - (1 / 200 + 4 * u52 * B + 2 * eta) <= value (np.round2 x)
    <= value x + (1 / 200 + 4 * u52 * B + 2 * eta).
Proof.
  intros Fx HB H1 Hbig. unfold np.round2.
  destruct value_100 as [F100 V100]. pose proof eta_pos. pose proof eta_small.
  destruct (mul_bound x 100 (100 * B) Fx F100) as (Fh & Lh & Uh);
    [rewrite V100; lra | lra |].
  rewrite V100 in Lh, Uh.
  destruct (rint_value (x * 100)%float Fh) as [Fk Hk].
  apply Rabs_bound in Hk.
  assert (V0 : value 100 <> 0) by (rewrite V100; lra).
  assert (HR : Rabs (value (np.rint (x * 100)) / value 100) <= 2 * B).
  { rewrite V100. apply Rabs_le. lra. }
  pose proof (approx_bound _ _ (2 * B)
                (div_approx (np.rint (x * 100)) 100 Fk F100 V0
                   ltac:(apply big_le_bpow; apply Rle_trans with (2 * B); [exact HR | lra]))
                HR) as (Fd & Ld & Ud).
  rewrite eps_value, V100 in Ld, Ud.
  split; [exact Fd |]. lra.
Qed.

(** [sqrt] is as close to [t] as the radicand is to [t * t], relative
    to [t]. *)
Lemma sqrt_close (r t c : R) :
  0 <= r -> 0 < t -> - (c * t) <= r - t * t <= c * t ->
  - c <= R_sqrt.sqrt r - t <= c.
Proof.
  intros Hr Ht Hc. pose proof (sqrt_pos r) as Hy.
  pose proof (sqrt_sqrt r Hr) as Hyy.
  set (y := R_sqrt.sqrt r) in *.
  assert (E : (y - t) * (y + t) = r - t * t) by (rewrite <- Hyy; ring).
  split.
  - destruct (Rle_lt_dec t y) as [L | L]; [| ].
    + assert (0 <= c * t) by (rewrite <- E in Hc; nra).
      assert (0 <= c) by nra. lra.
    + apply Rnot_lt_le. intros Hlt.
      assert (c * t < (t - y) * t) by nra.
      assert ((t - y) * t <= (t - y) * (y + t)) by nra.
      nra.
  - destruct (Rle_lt_dec y t) as [L | L].
    + assert (0 <= c * t) by (rewrite <- E in Hc; nra).
      assert (0 <= c) by nra. lra.
    + apply Rnot_lt_le. intros Hlt.
      assert (c * t < (y - t) * t) by nra.
      assert ((y - t) * t <= (y - t) * (y + t)) by nra.
      nra.
Qed.

(** The square of a rounded difference. *)
Lemma square_close (x X : R) :
  - 134217728 <= X <= 134217728 ->
  Rabs (x - X) <= u52 * Rabs X + eta ->
  - (3 * u52 * (X * X) + 536870912 * eta) <= x * x - X * X
    <= 3 * u52 * (X * X) + 536870912 * eta.
Proof.
  intros HX Hx. pose proof eta_pos. pose proof eta_small.
  assert (Ha : 0 <= Rabs X <= 134217728).
  { split; [apply Rabs_pos | apply Rabs_le; lra]. }
  assert (Haa : Rabs X * Rabs X = X * X).
  { unfold Rabs. destruct (Rcase_abs X); ring. }
  assert (HXa : - Rabs X <= X <= Rabs X).
  { unfold Rabs. destruct (Rcase_abs X); lra. }
  set (a := Rabs X) in *. set (d := u52 * a + eta) in *.
  apply Rabs_bound in Hx.
  assert (Hd : 0 <= d <= 1) by (unfold d; lra).
  assert (Hm : - (d * (2 * a + d)) <= x * x - X * X <= d * (2 * a + d)).
  { replace (x * x - X * X) with ((x - X) * (x + X)) by ring.
    assert (- (2 * a + d) <= x + X <= 2 * a + d) by lra.
    split; nra. }
  assert (Hb : d * (2 * a + d) <= 3 * u52 * (a * a) + 536870912 * eta).
  { unfold d.
    replace ((u52 * a + eta) * (2 * a + (u52 * a + eta)))
      with (2 * u52 * (a * a) + u52 * u52 * (a * a) + eta * (2 * a + 2 * u52 * a + eta))
      by ring.
    assert (0 <= a * a) by nra.
    assert (eta * (2 * a + 2 * u52 * a + eta) <= eta * 536870912).
    { apply Rmult_le_compat_l; lra. }
    lra. }
  rewrite <- Haa. lra.
Qed.


Lemma in_range_value (x : float) :
  in_range x = true -> finite x = true /\ - 67108864 <= value x <= 67108864.
Proof.
  intros H. destruct (abs_leb_value x 0x1p26 H eq_refl) as [Fx Hx].
  split; [exact Fx |].
  assert (V : value 0x1p26 = 67108864).
  { unfold value.
    change (Prim2SF 0x1p26) with (S754_finite false 4503599627370496 (-26)).
    cbn [SF2R cond_Zopp]. rewrite bpow_neg_pos.
    change (2 ^ 26)%Z with 67108864%Z. lra. }
  rewrite V in Hx. apply Rabs_bound in Hx. exact Hx.
Qed.

Lemma product_bounds (x y : R) :
  - 67108864 <= x <= 67108864 -> - 67108864 <= y <= 67108864 ->
  0 <= x * x <= 4503599627370496 /\
  0 <= Rabs (x * y) /\ - Rabs (x * y) <= x * y <= Rabs (x * y) /\
  2 * Rabs (x * y) <= x * x + y * y.
Proof.
  intros Hx Hy. repeat split; try nra.
  - apply Rabs_pos.
  - unfold Rabs. destruct (Rcase_abs (x * y)); lra.
  - unfold Rabs. destruct (Rcase_abs (x * y)); lra.
  - pose proof (Rle_0_sqr (x + y)) as H1. pose proof (Rle_0_sqr (x - y)) as H2.
    unfold Rsqr in H1, H2. unfold Rabs. destruct (Rcase_abs (x * y)); lra.
Qed.

End B64_bounds.

(** * Part IV. Properties *)

(** ** Arrays *)

Module np_facts.
Import np.

Lemma nth_error_map2 {A B C : Type} (op : A -> B -> C) (xs : list A) :
  forall (ys : list B) (i : nat),
  nth_error (map2 op xs ys) i =
  match nth_error xs i, nth_error ys i with
  | Some x, Some y => Some (op x y)
  | _, _ => None
  end.
Proof.
  induction xs as [| x xs IH]; intros [| y ys] [| i]; cbn; try reflexivity.
  - destruct (nth_error xs i); reflexivity.
  - apply IH.
Qed.

Lemma entry_outer {A B C : Type} (op : A -> B -> C) (col : list A)
    (row : list B) (i j : nat) :
  entry (outer op col row) i j =
  match nth_error col i, nth_error row j with
  | Some c, Some r => Some (op c r)
  | _, _ => None
  end.
Proof.
  unfold entry, outer. rewrite nth_error_map.
  destruct (nth_error col i) as [c |]; cbn; [| reflexivity].
  rewrite nth_error_map. destruct (nth_error row j); reflexivity.
Qed.

Lemma entry_mmap {A B : Type} (f : A -> B) (M : matrix A) (i j : nat) :
  entry (mmap f M) i j = option_map f (entry M i j).
Proof.
  unfold entry, mmap. rewrite nth_error_map.
  destruct (nth_error M i) as [row |]; cbn; [| reflexivity].
  apply nth_error_map.
Qed.

Lemma entry_mmap2 {A B C : Type} (op : A -> B -> C) (M : matrix A)
    (N : matrix B) (i j : nat) :
  entry (mmap2 op M N) i j =
  match entry M i j, entry N i j with
  | Some a, Some b => Some (op a b)
  | _, _ => None
  end.
Proof.
  unfold entry, mmap2. rewrite nth_error_map2.
  destruct (nth_error M i) as [r1 |], (nth_error N i) as [r2 |];
    try reflexivity.
  - apply nth_error_map2.
  - destruct (nth_error r1 j); reflexivity.
Qed.

(** [np.where] lists exactly the true cells. *)
Lemma where_row_In (i : nat) (row : list bool) : forall (j0 : nat) (p : nat * nat),
  In p (where_row i j0 row) <->
  fst p = i /\ (j0 <= snd p)%nat /\ nth_error row (snd p - j0) = Some true.
Proof.
  induction row as [| b row IH]; intros j0 [pi pj]; cbn [where_row fst snd].
  - split; [contradiction |]. intros (_ & _ & H). destruct (pj - j0)%nat; discriminate.
  - rewrite in_app_iff, IH. cbn [fst snd]. split.
    + intros [H | (-> & Hle & Hn)].
      * destruct b; cbn in H; [| contradiction].
        destruct H as [H | []]. injection H as <- <-.
        rewrite Nat.sub_diag. auto.
      * repeat split; [lia |].
        replace (pj - j0)%nat with (S (pj - S j0)) by lia. exact Hn.
    + intros (-> & Hle & Hn).
      destruct (Nat.eq_dec pj j0) as [-> | Hne].
      * rewrite Nat.sub_diag in Hn. cbn in Hn. injection Hn as ->.
        left. left. reflexivity.
      * right. repeat split; [lia |].
        replace (pj - j0)%nat with (S (pj - S j0)) in Hn by lia. exact Hn.
Qed.

Lemma where_from_In (cond : matrix bool) : forall (i0 : nat) (p : nat * nat),
  In p (where_from i0 cond) <->
  (i0 <= fst p)%nat /\ entry cond (fst p - i0) (snd p) = Some true.
Proof.
  induction cond as [| row cond IH]; intros i0 [pi pj]; cbn [where_from fst snd].
  - split; [contradiction |]. intros (_ & H). unfold entry in H.
    destruct (pi - i0)%nat; discriminate.
  - rewrite in_app_iff, where_row_In, IH. cbn [fst snd]. rewrite Nat.sub_0_r.
    unfold entry. split.
    + intros [(-> & _ & H) | (Hle & H)].
      * rewrite Nat.sub_diag. auto.
      * split; [lia |].
        replace (pi - i0)%nat with (S (pi - S i0)) by lia. exact H.
    + intros (Hle & H).
      destruct (Nat.eq_dec pi i0) as [-> | Hne].
      * rewrite Nat.sub_diag in H. left. repeat split; [lia | exact H].
      * right. split; [lia |].
        replace (pi - i0)%nat with (S (pi - S i0)) in H by lia. exact H.
Qed.

Lemma where_row_sorted (i : nat) (row : list bool) : forall j0 : nat,
  StronglySorted row_major_lt (where_row i j0 row).
Proof.
  induction row as [| b row IH]; intros j0; cbn [where_row]; [constructor |].
  destruct b; cbn [app]; [| apply IH].
  constructor; [apply IH |].
  apply Forall_forall. intros p Hp. apply where_row_In in Hp.
  destruct Hp as (Hi & Hj & _). right. cbn [fst snd]. lia.
Qed.

Lemma StronglySorted_app {A : Type} (R : A -> A -> Prop) (l1 l2 : list A) :
  StronglySorted R l1 -> StronglySorted R l2 ->
  (forall x y, In x l1 -> In y l2 -> R x y) ->
  StronglySorted R (l1 ++ l2).
Proof.
  induction l1 as [| a l1 IH]; intros H1 H2 H12; cbn [app]; [assumption |].
  inversion H1 as [| ? ? Hs Hf]; subst. constructor.
  - apply IH; [assumption .. |]. intros x y Hx Hy. apply H12; [right |]; assumption.
  - apply Forall_app. split; [assumption |].
    apply Forall_forall. intros y Hy. apply H12; [left; reflexivity | assumption].
Qed.

Lemma where_from_sorted (cond : matrix bool) : forall i0 : nat,
  StronglySorted row_major_lt (where_from i0 cond).
Proof.
  induction cond as [| row cond IH]; intros i0; cbn [where_from]; [constructor |].
  apply StronglySorted_app; [apply where_row_sorted | apply IH |].
  intros x y Hx Hy. apply where_row_In in Hx. apply where_from_In in Hy.
  left. lia.
Qed.

(** Line 40 pairs the two index arrays back up. *)
Lemma rezip (hits : list (nat * nat)) :
  map (fun n => (nth n (map fst hits) 0%nat, nth n (map snd hits) 0%nat))
      (seq 0 (List.length (map fst hits))) = hits.
Proof.
  rewrite length_map.
  apply nth_error_ext. intros n.
  rewrite nth_error_map.
  destruct (nth_error hits n) as [[a b] |] eqn:Hn.
  - assert (Hlt : (n < List.length hits)%nat) by (apply nth_error_Some; congruence).
    rewrite nth_error_seq. 
    destruct (Nat.ltb_spec n (List.length hits)); [| lia]. cbn [option_map Nat.add].
    rewrite (nth_error_nth (map fst hits) n 0%nat (x := a)),
            (nth_error_nth (map snd hits) n 0%nat (x := b));
      [reflexivity | rewrite nth_error_map, Hn; reflexivity ..].
  - assert (Hge : (List.length hits <= n)%nat) by (apply nth_error_None; assumption).
    rewrite nth_error_seq.
    destruct (Nat.ltb_spec n (List.length hits)); [lia | reflexivity].
Qed.

End np_facts.

(** ** Cells of the matrices *)

Section EDM_cells.
Context {num : Type} (ar : arith num).
Import np np_facts.

Lemma entry_radicand (A B : list (point (num := num))) (i j : nat) :
  entry (radicand ar A B) i j =
  match nth_error A i, nth_error B j with
  | Some a, Some b => Some (radicand_at ar a b)
  | _, _ => None
  end.
Proof.
  unfold radicand, sum_sq, dot, point in *.
  rewrite entry_mmap2, entry_mmap, !entry_outer, !nth_error_map.
  destruct (nth_error A i) as [a |], (nth_error B j) as [b |]; reflexivity.
Qed.

Lemma entry_EDM (A B : list (point (num := num))) (i j : nat) :
  entry (EDM ar A B) i j =
  match nth_error A i, nth_error B j with
  | Some a, Some b => Some (distance_at ar a b)
  | _, _ => None
  end.
Proof.
  unfold EDM. rewrite !entry_mmap, entry_radicand. unfold point in *.
  destruct (nth_error A i) as [a |], (nth_error B j) as [b |]; reflexivity.
Qed.
End EDM_cells.

Section Candidates.
Import np np_facts.
Variables (gpx : list TrackPoint) (exp : list ExposureSite).
Variable minimum_distance : float.

Lemma entry_distances (i j : nat) :
  entry (distances gpx exp) i j =
  match nth_error gpx i, nth_error exp j with
  | Some tp, Some site =>
      Some (distance_at binary64 (tp_geometry tp) (geometry site))
  | _, _ => None
  end.
Proof.
  unfold distances. rewrite entry_EDM, !nth_error_map.
  destruct (nth_error gpx i), (nth_error exp j); reflexivity.
Qed.

(** The query cell: the strict comparison of the distance with the
    threshold and of the track point's time with the window. *)
Lemma entry_query_matrix (i j : nat) :
  entry (query_matrix gpx exp minimum_distance) i j =
  match entry (distances gpx exp) i j, nth_error gpx i, nth_error exp j with
  | Some d, Some tp, Some site =>
      Some ((d <? minimum_distance)
            && (arrival_epoch site <? time_epoch tp)
            && (time_epoch tp <? departure_epoch site))
  | _, _, _ => None
  end.
Proof.
  unfold query_matrix, query.
  rewrite !entry_mmap2, !entry_mmap, !entry_outer, !nth_error_map.
  rewrite entry_distances.
  destruct (nth_error gpx i) as [tp |], (nth_error exp j) as [site |];
    cbn [option_map]; try reflexivity.
  rewrite B64.ltb_sub_zero, B64.ltb_zero_sub. reflexivity.
Qed.

Lemma match_candidates_where :
  match_candidates gpx exp minimum_distance =
  where_from 0 (query_matrix gpx exp minimum_distance).
Proof.
  unfold match_candidates, pair_up, where_. cbn [fst snd].
  apply rezip.
Qed.

Lemma match_candidates_In (i j : nat) :
  In (i, j) (match_candidates gpx exp minimum_distance) <->
  entry (query_matrix gpx exp minimum_distance) i j = Some true.
Proof.
  rewrite match_candidates_where, where_from_In. cbn [fst snd].
  rewrite Nat.sub_0_r. split; [tauto | split; [lia | assumption]].
Qed.

Lemma match_candidates_sorted :
  StronglySorted row_major_lt (match_candidates gpx exp minimum_distance).
Proof. rewrite match_candidates_where. apply where_from_sorted. Qed.
End Candidates.

(** ** The report loop *)

Lemma remove_site_length (exp_id : nat) (index_pairs : list (nat * nat)) :
  (length (remove_site exp_id index_pairs) <= length index_pairs)%nat.
Proof.
  unfold remove_site.
  induction index_pairs as [| p ps IH]; cbn [filter List.length]; [lia |].
  destruct (negb (exp_id =? snd p)%nat); cbn [List.length]; lia.
Qed.

Lemma remove_site_head (gpx_id exp_id : nat) (rest : list (nat * nat)) :
  remove_site exp_id ((gpx_id, exp_id) :: rest) = remove_site exp_id rest.
Proof. unfold remove_site. cbn [filter snd]. rewrite Nat.eqb_refl. reflexivity. Qed.

Lemma printed_nil (w : World) : printed w [] = w.
Proof. destruct w. unfold printed. cbn. rewrite app_nil_r. reflexivity. Qed.

Lemma printed_app (w : World) (out1 out2 : list Line) :
  printed (printed w out1) out2 = printed w (out1 ++ out2).
Proof. unfold printed. cbn. rewrite app_assoc. reflexivity. Qed.

Lemma remove_site_In (exp_id : nat) (index_pairs : list (nat * nat))
    (p : nat * nat) :
  In p (remove_site exp_id index_pairs) <-> In p index_pairs /\ snd p <> exp_id.
Proof.
  unfold remove_site. rewrite filter_In, negb_true_iff, Nat.eqb_neq.
  intuition congruence.
Qed.

Lemma report_run (minimum_distance : float) (w : World)
    (my_point : TrackPoint) (exposure_location : ExposureSite) :
  report minimum_distance my_point exposure_location w =
  (inr tt,
   printed w
     [WithinDistance minimum_distance (USER_SiteName exposure_location)
        (USER_Contact exposure_location) (USER_Date exposure_location);
      FirstMatchingPoint (latitude my_point) (longitude my_point)
        (time my_point);
      ExposurePoint (Y exposure_location) (X exposure_location)
        (arrival_dt exposure_location) (departure_dt exposure_location)]).
Proof.
  unfold report, bind, print, printed. cbn. rewrite <- !app_assoc. reflexivity.
Qed.

(** With every index in range the loop prints the lines of the selected
    pairs and returns. *)
Lemma report_loop_run (minimum_distance : float) :
  forall (n : nat) (index_pairs : list (nat * nat)) (w : World),
  (List.length index_pairs <= n)%nat ->
  (forall p, In p index_pairs ->
     (fst p < List.length (gpx_gdf w))%nat /\
     (snd p < List.length (exp_gdf w))%nat) ->
  report_loop minimum_distance index_pairs w =
  (inr tt,
   printed w (flat_map (entry_lines (gpx_gdf w) (exp_gdf w) minimum_distance)
                (selected index_pairs))).
Proof.
  induction n as [| n IH]; intros [| [gpx_id exp_id] rest] w Hlen Hrange;
    simp report_loop selected; cbn [flat_map List.length] in *;
    try (unfold ret; rewrite printed_nil; reflexivity); try lia.
  destruct (Hrange (gpx_id, exp_id) (or_introl eq_refl)) as [Hi Hj].
  cbn [fst snd] in Hi, Hj.
  apply nth_error_Some in Hi. apply nth_error_Some in Hj.
  destruct (nth_error (gpx_gdf w) gpx_id) as [my_point |] eqn:Ei; [| congruence].
  destruct (nth_error (exp_gdf w) exp_id) as [exposure_location |] eqn:Ej;
    [| congruence].
  unfold bind at 1, gpx_iloc. rewrite Ei.
  unfold bind at 1, exp_iloc. rewrite Ej.
  unfold bind at 1. rewrite report_run.
  rewrite IH.
  - rewrite printed_app. unfold entry_lines at 2. cbn [fst snd gpx_gdf exp_gdf printed].
    rewrite Ei, Ej. reflexivity.
  - rewrite remove_site_head. pose proof (remove_site_length exp_id rest). lia.
  - intros p Hp. apply remove_site_In in Hp. destruct Hp as [Hp _].
    cbn [gpx_gdf exp_gdf printed]. apply Hrange. exact Hp.
Qed.

Lemma match_candidates_range (gpx : list TrackPoint) (exp : list ExposureSite)
    (minimum_distance : float) (p : nat * nat) :
  In p (match_candidates gpx exp minimum_distance) ->
  (fst p < List.length gpx)%nat /\ (snd p < List.length exp)%nat.
Proof.
  destruct p as [i j]. rewrite match_candidates_In, entry_query_matrix.
  rewrite entry_distances. cbn [fst snd].
  destruct (nth_error gpx i) eqn:Ei; [| discriminate].
  destruct (nth_error exp j) eqn:Ej; [| discriminate].
  intros _. split; apply nth_error_Some; congruence.
Qed.

(** ** The whole run *)

Lemma show_matches_spec (minimum_distance : float) (w : World) :
  show_matches minimum_distance w =
  (fst (outcome (gpx_gdf w) (exp_gdf w) minimum_distance),
   printed w (snd (outcome (gpx_gdf w) (exp_gdf w) minimum_distance))).
Proof.
  unfold show_matches, outcome.
  unfold bind at 1, gpx_column.
  destruct (gpx_gdf w) as [| tp gpx] eqn:Eg.
  { cbn. rewrite printed_nil. reflexivity. }
  unfold bind at 1. cbn [map vstack ret].
  unfold bind at 1, exp_column.
  destruct (exp_gdf w) as [| site exp] eqn:Ee.
  { cbn. rewrite printed_nil. reflexivity. }
  unfold bind at 1. cbn [map vstack ret].
  unfold bind at 1. unfold bind at 1. unfold bind at 1, gpx_column.
  rewrite Eg, Ee. cbn [fst snd].
  cbv zeta.
  change (pair_up _)
    with (match_candidates (tp :: gpx) (site :: exp) minimum_distance).
  unfold rendered.
  destruct (0 <? List.length (match_candidates (tp :: gpx) (site :: exp) minimum_distance))%nat.
  - unfold bind at 1, print at 1.
    rewrite report_loop_run
      with (n := List.length (match_candidates (tp :: gpx) (site :: exp) minimum_distance)).
    + cbn [gpx_gdf exp_gdf]. rewrite Eg, Ee.
      change {| gpx_gdf := tp :: gpx; exp_gdf := site :: exp;
                stdout := stdout w ++ [ExposuresFound] |}
        with (printed {| gpx_gdf := tp :: gpx; exp_gdf := site :: exp;
                         stdout := stdout w |} [ExposuresFound]).
      rewrite printed_app. unfold printed. cbn. rewrite Eg, Ee. reflexivity.
    + lia.
    + intros p Hp. cbn [gpx_gdf exp_gdf]. rewrite Eg, Ee.
      apply (match_candidates_range _ _ _ _ Hp).
  - unfold print, printed. rewrite Eg, Ee. reflexivity.
Qed.

(** ** The selected pairs *)

Lemma selected_In_first : forall (n : nat) (index_pairs : list (nat * nat)),
  (List.length index_pairs <= n)%nat ->
  forall p : nat * nat,
  In p (selected index_pairs) <->
  find (fun q => (snd q =? snd p)%nat) index_pairs = Some p.
Proof.
  induction n as [| n IH]; intros [| [gpx_id exp_id] rest] Hlen p;
    simp selected; cbn [List.length In find snd] in *; try lia;
    try (split; [contradiction | discriminate]).
  rewrite IH
    by (rewrite remove_site_head; pose proof (remove_site_length exp_id rest); lia).
  rewrite remove_site_head.
  destruct (Nat.eqb_spec exp_id (snd p)) as [E | E].
  - split.
    + intros [<- | H]; [reflexivity |].
      apply find_some in H. destruct H as [H _].
      apply remove_site_In in H. destruct H as [_ H]. congruence.
    + intros H. left. congruence.
  - split.
    + intros [<- | H]; [cbn in E; congruence |].
      clear IH Hlen. induction rest as [| q rest IHr]; [discriminate |].
      unfold remove_site in H. cbn [filter find] in *.
      destruct (Nat.eqb_spec exp_id (snd q)) as [Eq | Eq]; cbn [negb] in H.
      * destruct (Nat.eqb_spec (snd q) (snd p)); [congruence |]. auto.
      * cbn [find] in H. destruct (snd q =? snd p)%nat; [assumption | auto].
    + intros H. right.
      clear IH Hlen. induction rest as [| q rest IHr]; [discriminate |].
      unfold remove_site. cbn [filter find] in *.
      destruct (Nat.eqb_spec exp_id (snd q)) as [Eq | Eq]; cbn [negb].
      * destruct (Nat.eqb_spec (snd q) (snd p)); [congruence |]. auto.
      * cbn [find]. destruct (snd q =? snd p)%nat; [assumption | auto].
Qed.

Lemma selected_first (index_pairs : list (nat * nat)) (p : nat * nat) :
  In p (selected index_pairs) <->
  find (fun q => (snd q =? snd p)%nat) index_pairs = Some p.
Proof. apply (selected_In_first (List.length index_pairs)). lia. Qed.

Lemma selected_incl (index_pairs : list (nat * nat)) (p : nat * nat) :
  In p (selected index_pairs) -> In p index_pairs.
Proof.
  rewrite selected_first. intros H. apply find_some in H. tauto.
Qed.

Lemma selected_NoDup_sites : forall (n : nat) (index_pairs : list (nat * nat)),
  (List.length index_pairs <= n)%nat ->
  NoDup (map snd (selected index_pairs)).
Proof.
  induction n as [| n IH]; intros [| [gpx_id exp_id] rest] Hlen;
    simp selected; cbn [List.length map snd] in *; try lia; try constructor.
  - rewrite in_map_iff. intros ([i j] & Hj & Hin). cbn [snd] in Hj. subst j.
    apply selected_incl, remove_site_In in Hin. cbn [snd] in Hin. tauto.
  - apply IH. rewrite remove_site_head.
    pose proof (remove_site_length exp_id rest). lia.
Qed.

Lemma selected_covers (index_pairs : list (nat * nat)) (j : nat) :
  In j (map snd index_pairs) -> In j (map snd (selected index_pairs)).
Proof.
  rewrite !in_map_iff. intros ([i j'] & Hj & Hin). cbn [snd] in Hj. subst j'.
  destruct (find (fun q => (snd q =? j)%nat) index_pairs) as [q |] eqn:Hf.
  - exists q. pose proof (find_some _ _ Hf) as [_ Hq].
    apply Nat.eqb_eq in Hq. split; [assumption |].
    apply selected_first. rewrite Hq. exact Hf.
  - apply (find_none _ _ Hf) in Hin. cbn [snd] in Hin.
    rewrite Nat.eqb_refl in Hin. discriminate.
Qed.

(** ** Match candidates *)

(** C1. A pair [(i, j)] is a MatchCandidate exactly when [D[i][j]] is
    strictly below [minimum_distance] and the track point's time lies
    strictly inside the site's window; a pair at the threshold distance,
    at the arrival instant or at the departure instant is not one. *)
Theorem C1_match_candidate_iff (gpx : list TrackPoint) (exp : list ExposureSite)
    (minimum_distance : float) (i j : nat) :
  (In (i, j) (match_candidates gpx exp minimum_distance) <->
   exists d tp site,
     np.entry (distances gpx exp) i j = Some d /\
     nth_error gpx i = Some tp /\ nth_error exp j = Some site /\
     (d <? minimum_distance) = true /\
     (arrival_epoch site <? time_epoch tp) = true /\
     (time_epoch tp <? departure_epoch site) = true) /\
  (forall d tp site,
     np.entry (distances gpx exp) i j = Some d ->
     nth_error gpx i = Some tp -> nth_error exp j = Some site ->
     (d =? minimum_distance) = true \/
     (time_epoch tp =? arrival_epoch site) = true \/
     (time_epoch tp =? departure_epoch site) = true ->
     ~ In (i, j) (match_candidates gpx exp minimum_distance)).
Proof.
  assert (Hiff : In (i, j) (match_candidates gpx exp minimum_distance) <->
    exists d tp site,
      np.entry (distances gpx exp) i j = Some d /\
      nth_error gpx i = Some tp /\ nth_error exp j = Some site /\
      (d <? minimum_distance) = true /\
      (arrival_epoch site <? time_epoch tp) = true /\
      (time_epoch tp <? departure_epoch site) = true).
  { rewrite match_candidates_In, entry_query_matrix. split.
    - destruct (np.entry (distances gpx exp) i j) as [d |]; [| discriminate].
      destruct (nth_error gpx i) as [tp |]; [| discriminate].
      destruct (nth_error exp j) as [site |]; [| discriminate].
      intros H. injection H as H. apply andb_true_iff in H. destruct H as [H H3].
      apply andb_true_iff in H. destruct H as [H1 H2].
      exists d, tp, site. auto 10.
    - intros (d & tp & site & -> & -> & -> & -> & -> & ->). reflexivity. }
  split; [exact Hiff |].
  intros d tp site Hd Htp Hsite Hb Hin.
  apply Hiff in Hin. destruct Hin as (d' & tp' & site' & Hd' & Htp' & Hsite' & H1 & H2 & H3).
  assert (d' = d) by congruence. assert (tp' = tp) by congruence.
  assert (site' = site) by congruence. subst.
  destruct Hb as [Hb | [Hb | Hb]]; apply B64.eqb_not_ltb in Hb; destruct Hb; congruence.
Qed.

(** ** Reduction to one entry per site *)

Lemma find_split {A : Type} (f : A -> bool) (l : list A) (x : A) :
  find f l = Some x ->
  exists l1 l2, l = l1 ++ x :: l2 /\ forall y, In y l1 -> f y = false.
Proof.
  induction l as [| a l IH]; cbn [find]; [discriminate |].
  destruct (f a) eqn:Ea.
  - intros H. injection H as ->. exists [], l. split; [reflexivity | contradiction].
  - intros H. destruct (IH H) as (l1 & l2 & -> & Hl1).
    exists (a :: l1), l2. split; [reflexivity |].
    intros y [<- | Hy]; auto.
Qed.

Lemma sorted_after {A : Type} (R : A -> A -> Prop) (l1 l2 : list A) (x : A) :
  StronglySorted R (l1 ++ x :: l2) -> Forall (R x) l2.
Proof.
  induction l1 as [| a l1 IH]; cbn [app]; intros H;
    inversion H; subst; auto.
Qed.

Lemma first_is_lowest (gpx : list TrackPoint) (exp : list ExposureSite)
    (minimum_distance : float) (i j : nat) :
  find (fun q => (snd q =? j)%nat) (match_candidates gpx exp minimum_distance)
    = Some (i, j) ->
  forall i', In (i', j) (match_candidates gpx exp minimum_distance) -> (i <= i')%nat.
Proof.
  intros Hf i' Hin.
  pose proof (match_candidates_sorted gpx exp minimum_distance) as Hs.
  destruct (find_split _ _ _ Hf) as (l1 & l2 & E & Hl1).
  rewrite E in Hs, Hin. apply sorted_after in Hs.
  apply in_app_iff in Hin. destruct Hin as [Hin | [Hin | Hin]].
  - apply Hl1 in Hin. cbn [snd] in Hin. rewrite Nat.eqb_refl in Hin. discriminate.
  - injection Hin as ->. lia.
  - rewrite Forall_forall in Hs. apply Hs in Hin.
    destruct Hin as [Hlt | [Heq Hlt]]; cbn [fst snd] in *; lia.
Qed.

(** C3. The reduction emits at most one Report Entry per exposure-site
    index; the entry of a site is its first candidate in row-major order,
    which is its candidate with the lowest track-point index; every site
    with a candidate gets an entry and a site without one gets none; and
    these entries are what a run prints. *)
Theorem C3_one_entry_per_site (gpx : list TrackPoint) (exp : list ExposureSite)
    (minimum_distance : float) :
  let candidates := match_candidates gpx exp minimum_distance in
  let entries := report_entries gpx exp minimum_distance in
  NoDup (map snd entries) /\
  StronglySorted np.row_major_lt candidates /\
  (forall i j, In (i, j) entries <->
               find (fun q => (snd q =? j)%nat) candidates = Some (i, j)) /\
  (forall i j, In (i, j) entries ->
               In (i, j) candidates /\
               forall i', In (i', j) candidates -> (i <= i')%nat) /\
  (forall j, In j (map snd entries) <-> In j (map snd candidates)) /\
  (forall w, gpx_gdf w = gpx -> exp_gdf w = exp -> candidates <> [] ->
     show_matches minimum_distance w =
     (inr tt,
      printed w (ExposuresFound
                   :: flat_map (entry_lines gpx exp minimum_distance) entries))).
Proof.
  intros candidates entries. unfold entries, report_entries. fold candidates.
  split; [| split; [| split; [| split; [| split]]]].
  - apply (selected_NoDup_sites (List.length candidates)). lia.
  - apply match_candidates_sorted.
  - intros i j. apply (selected_first candidates (i, j)).
  - intros i j Hin. split; [apply selected_incl; assumption |].
    apply first_is_lowest. apply (selected_first candidates (i, j)). assumption.
  - intros j. split; [| apply selected_covers].
    rewrite !in_map_iff. intros (p & Hp & Hin). exists p.
    split; [assumption | apply selected_incl; assumption].
  - intros w Hg He Hne. rewrite show_matches_spec, Hg, He.
    unfold outcome.
    destruct gpx as [| tp gpx'].
    { exfalso. apply Hne. reflexivity. }
    destruct exp as [| site exp'].
    { exfalso. apply Hne. unfold candidates.
      destruct (match_candidates (tp :: gpx') [] minimum_distance) as [| p l] eqn:E;
        [reflexivity |].
      assert (Hp : In p (match_candidates (tp :: gpx') [] minimum_distance))
        by (rewrite E; left; reflexivity).
      apply match_candidates_range in Hp. cbn in Hp. lia. }
    cbn [fst snd]. unfold rendered, report_entries. subst candidates.
    destruct (match_candidates (tp :: gpx') (site :: exp') minimum_distance);
      [contradiction | reflexivity].
Qed.

(** ** Empty inputs *)

(** C5, as the specification states it, fails on Scenario E: with no
    track point and one exposure site the run does not complete, it
    raises. *)
Lemma C5_scenario_E_raises :
  ~ exists w' : World,
      show_matches 100 (world [] [exposure_site 50 0 900 1100]) = (inr tt, w').
Proof.
  intros [w' H]. rewrite show_matches_spec in H. cbn in H. discriminate.
Qed.

(** C5, amended. When the track-point set or the exposure-site set is
    empty the run stops with the [ValueError] of [np.vstack] before any
    matching: nothing is printed, so no Report Entry is produced, and the
    world is left as it was.  A run on two non-empty sets completes, and
    prints the single "no exposures" line when there is no candidate. *)
Theorem C5_empty_input_raises (minimum_distance : float) (w : World) :
  (gpx_gdf w = [] \/ exp_gdf w = [] ->
   show_matches minimum_distance w = (inl ValueError, w)) /\
  (gpx_gdf w <> [] -> exp_gdf w <> [] ->
   fst (show_matches minimum_distance w) = inr tt /\
   (match_candidates (gpx_gdf w) (exp_gdf w) minimum_distance = [] ->
    show_matches minimum_distance w = (inr tt, printed w [AllGood]))).
Proof.
  rewrite show_matches_spec. unfold outcome. split.
  - intros [E | E]; rewrite E; [| destruct (gpx_gdf w)];
      cbn [fst snd]; rewrite printed_nil; reflexivity.
  - intros Hg He.
    destruct (gpx_gdf w) as [| tp gpx]; [contradiction |].
    destruct (exp_gdf w) as [| site exp]; [contradiction |].
    cbn [fst snd]. split; [reflexivity |].
    intros E. unfold rendered. rewrite E. reflexivity.
Qed.

(** C5 on Scenario E, on an empty exposure set, and on Scenario C. *)
Lemma C5_empty_input_raises_witness :
  show_matches 100 (world [] [exposure_site 50 0 900 1100])
  = (inl ValueError, world [] [exposure_site 50 0 900 1100]) /\
  show_matches 100 (world [track_point 0 0 1000] [])
  = (inl ValueError, world [track_point 0 0 1000] []) /\
  show_matches 100 (world [track_point 0 0 800] [exposure_site 50 0 900 1100])
  = (inr tt, printed (world [track_point 0 0 800] [exposure_site 50 0 900 1100])
               [AllGood]).
Proof.
  split; [| split].
  - apply (C5_empty_input_raises 100 (world [] [exposure_site 50 0 900 1100])).
    left. reflexivity.
  - apply (C5_empty_input_raises 100 (world [track_point 0 0 1000] [])).
    right. reflexivity.
  - apply (C5_empty_input_raises 100
             (world [track_point 0 0 800] [exposure_site 50 0 900 1100]));
      [discriminate | discriminate | vm_compute; reflexivity].
Defined.

(** ** Windows that cannot match *)

Lemma never_candidate (gpx : list TrackPoint) (exp : list ExposureSite)
    (minimum_distance : float) (j : nat) (site : ExposureSite) :
  nth_error exp j = Some site ->
  (forall t, (arrival_epoch site <? t) = true ->
             (t <? departure_epoch site) = false) ->
  (forall i tp, nth_error gpx i = Some tp ->
     np.entry (query_matrix gpx exp minimum_distance) i j = Some false) /\
  (forall i, ~ In (i, j) (match_candidates gpx exp minimum_distance)) /\
  ~ In j (map snd (report_entries gpx exp minimum_distance)).
Proof.
  intros Hsite Hwin.
  assert (Hcell : forall i tp, nth_error gpx i = Some tp ->
    np.entry (query_matrix gpx exp minimum_distance) i j = Some false).
  { intros i tp Htp. rewrite entry_query_matrix, entry_distances, Htp, Hsite.
    f_equal. destruct (arrival_epoch site <? time_epoch tp) eqn:E.
    - rewrite (Hwin _ E). apply andb_false_r.
    - rewrite andb_false_r. reflexivity. }
  assert (Hno : forall i, ~ In (i, j) (match_candidates gpx exp minimum_distance)).
  { intros i Hin. pose proof (match_candidates_range _ _ _ _ Hin) as [Hi _].
    cbn [fst] in Hi. apply nth_error_Some in Hi.
    destruct (nth_error gpx i) as [tp |] eqn:Htp; [| congruence].
    apply match_candidates_In in Hin. rewrite (Hcell i tp Htp) in Hin.
    discriminate. }
  split; [exact Hcell | split; [exact Hno |]].
  rewrite in_map_iff. intros ([i j'] & Hj & Hin). cbn [snd] in Hj. subst j'.
  apply selected_incl in Hin. exact (Hno i Hin).
Qed.

(** C6. An exposure site whose window is invalid ([arrival > departure])
    stays in the computation, every track point has a cell for it in the
    query matrix, but the cell is false: no MatchCandidate carries its
    index and it never appears in the report. *)
Theorem C6_invalid_window_never_matches (gpx : list TrackPoint)
    (exp : list ExposureSite) (minimum_distance : float) (j : nat)
    (site : ExposureSite) :
  nth_error exp j = Some site ->
  (departure_epoch site <? arrival_epoch site) = true ->
  (forall i tp, nth_error gpx i = Some tp ->
     np.entry (query_matrix gpx exp minimum_distance) i j = Some false) /\
  (forall i, ~ In (i, j) (match_candidates gpx exp minimum_distance)) /\
  ~ In j (map snd (report_entries gpx exp minimum_distance)).
Proof.
  intros Hsite Hbad. apply (never_candidate gpx exp minimum_distance j site Hsite).
  intros t Hat. destruct (t <? departure_epoch site) eqn:Htd; [| reflexivity].
  pose proof (B64.ltb_trans _ _ _ Hat Htd) as Had.
  apply B64.ltb_asym in Had. congruence.
Qed.

(** C6 on a site whose window runs from 1100 back to 900. *)
Lemma C6_invalid_window_never_matches_witness :
  let gpx := [track_point 0 0 1000] in
  let exp := [exposure_site 50 0 1100 900] in
  (forall i tp, nth_error gpx i = Some tp ->
     np.entry (query_matrix gpx exp 100) i 0 = Some false) /\
  (forall i, ~ In (i, 0%nat) (match_candidates gpx exp 100)) /\
  ~ In 0%nat (map snd (report_entries gpx exp 100)).
Proof.
  apply (C6_invalid_window_never_matches [track_point 0 0 1000]
           [exposure_site 50 0 1100 900] 100 0 (exposure_site 50 0 1100 900));
    reflexivity.
Defined.

(** C9. An exposure site whose window has zero length
    ([arrival == departure]) never produces a MatchCandidate either, since
    the comparison with both ends is strict. *)
Theorem C9_zero_length_window_never_matches (gpx : list TrackPoint)
    (exp : list ExposureSite) (minimum_distance : float) (j : nat)
    (site : ExposureSite) :
  nth_error exp j = Some site ->
  (arrival_epoch site =? departure_epoch site) = true ->
  (forall i, ~ In (i, j) (match_candidates gpx exp minimum_distance)) /\
  ~ In j (map snd (report_entries gpx exp minimum_distance)).
Proof.
  intros Hsite Heq.
  apply (never_candidate gpx exp minimum_distance j site Hsite).
  intros t Hat. destruct (t <? departure_epoch site) eqn:Htd; [| reflexivity].
  pose proof (B64.ltb_trans _ _ _ Hat Htd) as Had.
  apply B64.eqb_not_ltb in Heq. destruct Heq. congruence.
Qed.

(** C9 on a site whose window is the single instant 1000, the time of
    the track point. *)
Lemma C9_zero_length_window_never_matches_witness :
  let gpx := [track_point 0 0 1000] in
  let exp := [exposure_site 50 0 1000 1000] in
  (forall i, ~ In (i, 0%nat) (match_candidates gpx exp 100)) /\
  ~ In 0%nat (map snd (report_entries gpx exp 100)).
Proof.
  apply (C9_zero_length_window_never_matches [track_point 0 0 1000]
           [exposure_site 50 0 1000 1000] 100 0 (exposure_site 50 0 1000 1000));
    reflexivity.
Defined.

(** ** Determinism and frame *)

(** C7. The engine is a function of the two datasets and of
    [minimum_distance]: two runs on identical datasets with the same
    threshold end the same way and print the same lines in the same
    order, whatever had been printed before; in particular a second run
    after the first repeats its output. *)
Theorem C7_deterministic (minimum_distance : float) (w1 w2 : World) :
  gpx_gdf w1 = gpx_gdf w2 -> exp_gdf w1 = exp_gdf w2 ->
  exists (r : Exn + unit) (out : list Line),
    show_matches minimum_distance w1 = (r, printed w1 out) /\
    show_matches minimum_distance w2 = (r, printed w2 out) /\
    show_matches minimum_distance (printed w1 out) = (r, printed (printed w1 out) out).
Proof.
  intros Hg He.
  exists (fst (outcome (gpx_gdf w1) (exp_gdf w1) minimum_distance)),
         (snd (outcome (gpx_gdf w1) (exp_gdf w1) minimum_distance)).
  rewrite !show_matches_spec. cbn [printed gpx_gdf exp_gdf].
  rewrite <- Hg, <- He. auto.
Qed.

(** C7 on Scenario A, run on a fresh output and after another line. *)
Lemma C7_deterministic_witness :
  exists (r : Exn + unit) (out : list Line),
    show_matches 100 (world [track_point 0 0 1000] [exposure_site 50 0 900 1100])
      = (r, printed (world [track_point 0 0 1000] [exposure_site 50 0 900 1100]) out) /\
    show_matches 100
      (printed (world [track_point 0 0 1000] [exposure_site 50 0 900 1100]) [AllGood])
      = (r, printed
              (printed (world [track_point 0 0 1000] [exposure_site 50 0 900 1100])
                 [AllGood]) out) /\
    show_matches 100
      (printed (world [track_point 0 0 1000] [exposure_site 50 0 900 1100]) out)
      = (r, printed
              (printed (world [track_point 0 0 1000] [exposure_site 50 0 900 1100]) out)
              out).
Proof.
  apply (C7_deterministic 100
           (world [track_point 0 0 1000] [exposure_site 50 0 900 1100])
           (printed (world [track_point 0 0 1000] [exposure_site 50 0 900 1100])
              [AllGood])); reflexivity.
Defined.

(** C8. A run leaves both data frames as they were: the world after it
    differs from the world before it only by the lines appended to
    standard output. *)
Theorem C8_inputs_unchanged (minimum_distance : float) (w : World) :
  gpx_gdf (snd (show_matches minimum_distance w)) = gpx_gdf w /\
  exp_gdf (snd (show_matches minimum_distance w)) = exp_gdf w /\
  exists out : list Line,
    stdout (snd (show_matches minimum_distance w)) = stdout w ++ out.
Proof.
  rewrite show_matches_spec. cbn [snd printed gpx_gdf exp_gdf stdout].
  repeat split. eexists. reflexivity.
Qed.

(** ** Termination of the report loop *)

Lemma selected_length : forall (n : nat) (index_pairs : list (nat * nat)),
  (List.length index_pairs <= n)%nat ->
  (List.length (selected index_pairs) <= List.length index_pairs)%nat.
Proof.
  induction n as [| n IH]; intros [| [gpx_id exp_id] rest] Hlen;
    simp selected; cbn [List.length] in *; try lia.
  pose proof (remove_site_length exp_id rest) as Hr.
  pose proof (IH (remove_site exp_id ((gpx_id, exp_id) :: rest))) as H.
  rewrite remove_site_head in *. lia.
Qed.

(** C10. Each pass of the loop takes the head pair and every pair on the
    head's site out of the list, so the list gets strictly shorter; hence
    passes cannot go on forever (the pass relation is well founded), the
    loop makes at most as many passes as there are pairs, and from any
    list of in-range pairs it returns. *)
Theorem C10_report_loop_terminates :
  (forall l l' : list (nat * nat), loop_step l = Some l' ->
     (List.length l' < List.length l)%nat /\
     exists head rest, l = head :: rest /\ ~ In head l' /\
       forall p, In p l' -> snd p <> snd head) /\
  well_founded (fun l' l : list (nat * nat) => loop_step l = Some l') /\
  (forall l : list (nat * nat),
     (List.length (selected l) <= List.length l)%nat) /\
  (forall (minimum_distance : float) (l : list (nat * nat)) (w : World),
     exists (r : Exn + unit) (w' : World),
       report_loop minimum_distance l w = (r, w')).
Proof.
  assert (Hstep : forall l l' : list (nat * nat), loop_step l = Some l' ->
     (List.length l' < List.length l)%nat /\
     exists head rest, l = head :: rest /\ ~ In head l' /\
       forall p, In p l' -> snd p <> snd head).
  { intros [| [gpx_id exp_id] rest] l' H; cbn [loop_step] in H; [discriminate |].
    rewrite remove_site_head in H.
    assert (E : l' = remove_site exp_id rest) by congruence.
    clear H. subst l'. split.
    - pose proof (remove_site_length exp_id rest).
      cbn [List.length]. lia.
    - exists (gpx_id, exp_id), rest. split; [reflexivity |]. split.
      + intros Hin. apply remove_site_In in Hin. cbn [snd] in Hin. tauto.
      + intros p Hp. apply remove_site_In in Hp. cbn [snd]. tauto. }
  split; [exact Hstep |]. split; [| split].
  - apply (well_founded_lt_compat _ (@List.length (nat * nat))).
    intros l' l H. apply Hstep in H. tauto.
  - intros l. apply (selected_length (List.length l)). lia.
  - intros minimum_distance l w.
    destruct (report_loop minimum_distance l w) as [r w']. eauto.
Qed.


(** ** The distance matrix *)

(** C2. [EDM] is documented as computing a Euclidean distance matrix,
    and the claim says its entries are non-negative numbers.  For a
    track point 3 cm from an exposure site the sum [p1 + p2 + p3] is
    computed as [-0.015625]; it is not replaced by [0], the entry of [D]
    is NaN, no comparison with a threshold holds for it, and a run on
    this track point, inside the site's window, reports no exposure. *)
Lemma C2_near_points_give_nan :
  sum_sq binary64 [near_track] = [37573811461906.890625] /\
  sum_sq binary64 [near_site] = [37573811505232.2109375] /\
  dot binary64 [near_track] [near_site] = [[37573811483569.5546875]] /\
  np.entry (radicand binary64 [near_track] [near_site]) 0 0 = Some (-0.015625) /\
  np.entry (EDM binary64 [near_track] [near_site]) 0 0 = Some nan /\
  is_nan nan = true /\ (0 <=? nan) = false /\
  let w := world [track_point (fst near_track) (snd near_track) 1000]
                 [exposure_site (fst near_site) (snd near_site) 900 1100] in
  match_candidates (gpx_gdf w) (exp_gdf w) default_minimum_distance = [] /\
  show_matches default_minimum_distance w = (inr tt, printed w [AllGood]).
Proof. vm_compute. repeat apply conj; reflexivity. Qed.

(** [EDM] takes the root of [p1 + p2 + p3] as it is: an entry of [D] is
    NaN exactly when that sum is negative or NaN, every other entry is a
    non-negative number, and no entry is below zero.  On integer
    coordinates of magnitude at most [2^24] the sum is computed exactly,
    and the entry is a non-negative number. *)
Theorem EDM_entry_nan_or_nonneg (A B : list (float * float)) (i j : nat)
    (d : float) :
  np.entry (EDM binary64 A B) i j = Some d ->
  (exists r : float,
     np.entry (radicand binary64 A B) i j = Some r /\
     is_nan d = is_nan r || (r <? 0) /\
     (is_nan d = false -> (0 <=? d) = true) /\
     (d <? 0) = false) /\
  (forall (a b : float * float) (xa ya xb yb : Z),
     nth_error A i = Some a -> nth_error B j = Some b ->
     int_point xa ya a -> int_point xb yb b ->
     (Z.abs xa <= 2 ^ 24)%Z -> (Z.abs ya <= 2 ^ 24)%Z ->
     (Z.abs xb <= 2 ^ 24)%Z -> (Z.abs yb <= 2 ^ 24)%Z ->
     is_nan d = false /\ (0 <=? d) = true).
Proof.
  rewrite entry_EDM, entry_radicand. unfold point.
  destruct (nth_error A i) as [a |]; [| discriminate].
  destruct (nth_error B j) as [b |]; [| discriminate].
  intros H. assert (E : d = distance_at binary64 a b) by congruence.
  clear H. subst d. split.
  - exists (radicand_at binary64 a b).
    split; [reflexivity |].
    unfold distance_at. cbn [round2 sqrt binary64].
    generalize (radicand_at binary64 a b). intros r.
    pose proof (B64_round.round2_is_nan (PrimFloat.sqrt r)) as Hr.
    pose proof (B64_round.sqrt_is_nan r) as Hs.
    pose proof (B64_round.sqrt_nonneg r) as Hq.
    pose proof (B64_round.round2_nonneg (PrimFloat.sqrt r)) as Hrn.
    remember (np.round2 (PrimFloat.sqrt r)) as d eqn:Ed.
    pose proof (B64.ltb_key d 0) as Hlt.
    pose proof (B64.leb_key 0 d) as Hle.
    clear Ed.
    assert (Hp : is_nan d = false -> (0 <=? d) = true).
    { intros H. apply Hrn, Hq. congruence. }
    split; [congruence | split; [exact Hp |]].
    rewrite Hlt. destruct (is_nan d); [reflexivity |].
    specialize (Hp eq_refl). rewrite Hle in Hp.
    apply andb_true_iff in Hp. destruct Hp as [Hp1 Hp].
    apply andb_true_iff in Hp1. destruct Hp1 as [_ ->].
    cbn [negb andb]. apply Z.leb_le in Hp. apply Z.ltb_ge. exact Hp.
  - intros a' b' xa ya xb yb Ha Hb Pa Pb Bxa Bya Bxb Byb.
    assert (a' = a) by congruence. assert (b' = b) by congruence. subst a' b'.
    apply (distance_at_int_number xa ya xb yb); assumption.
Qed.

(** On Scenario A, where the entry is 50. *)
Lemma EDM_entry_nan_or_nonneg_witness :
  (exists r : float,
     np.entry (radicand binary64 [(0, 0)] [(50, 0)]) 0 0 = Some r /\
     is_nan 50 = is_nan r || (r <? 0) /\
     (is_nan 50 = false -> (0 <=? 50) = true) /\
     (50 <? 0) = false) /\
  (forall (a b : float * float) (xa ya xb yb : Z),
     nth_error [(0, 0)] 0 = Some a -> nth_error [(50, 0)] 0 = Some b ->
     int_point xa ya a -> int_point xb yb b ->
     (Z.abs xa <= 2 ^ 24)%Z -> (Z.abs ya <= 2 ^ 24)%Z ->
     (Z.abs xb <= 2 ^ 24)%Z -> (Z.abs yb <= 2 ^ 24)%Z ->
     is_nan 50 = false /\ (0 <=? 50) = true).
Proof.
  apply (EDM_entry_nan_or_nonneg [(0, 0)] [(50, 0)] 0 0 50). reflexivity.
Defined.


Lemma Rrint_error (x : R) : (Rabs (Rrint x - x) <= 1 / 2)%R.
Proof.
  unfold Rrint.
  pose proof (base_fp x) as [Hd0 Hd1].
  assert (Hx : (x = IZR (Int_part x) + frac_part x)%R)
    by (unfold frac_part; lra).
  set (f := Int_part x) in *. set (d := frac_part x) in *.
  apply Rabs_le.
  destruct (Rlt_dec d (1 / 2)); [lra |].
  destruct (Rlt_dec (1 / 2) d); [rewrite plus_IZR; lra |].
  destruct (Z.even f); [| rewrite plus_IZR]; lra.
Qed.

Lemma round2_R_error (x : R) : (Rabs (round2_R x - x) <= 1 / 200)%R.
Proof.
  unfold round2_R. pose proof (Rrint_error (x * 100)) as H.
  revert H. unfold Rabs.
  destruct (Rcase_abs (Rrint (x * 100) - x * 100)),
           (Rcase_abs (Rrint (x * 100) / 100 - x)); lra.
Qed.

Lemma radicand_at_exact (a b : R * R) :
  radicand_at exact a b =
  ((fst a - fst b) * (fst a - fst b) + (snd a - snd b) * (snd a - snd b))%R.
Proof. unfold radicand_at. cbn [add mul minus_two exact]. ring. Qed.

(** In exact arithmetic the matrix identity is the squared per-pair
    distance, so the entry [D[i][j]] is the per-pair Euclidean distance
    rounded to two decimals and lies within [0.005] of it. *)
Lemma EDM_exact_rounded_distance (A B : list (R * R)) (i j : nat) (a b : R * R) :
  nth_error A i = Some a -> nth_error B j = Some b ->
  np.entry (EDM exact A B) i j = Some (round2_R (naive_distance exact a b)) /\
  (Rabs (round2_R (naive_distance exact a b) - naive_distance exact a b)
   <= 1 / 200)%R.
Proof.
  intros Ha Hb. split; [| apply round2_R_error].
  rewrite entry_EDM. unfold point in *. rewrite Ha, Hb. f_equal.
  unfold distance_at, naive_distance. rewrite radicand_at_exact. reflexivity.
Qed.

(** In binary64 the entry equals the rounded per-pair distance when the
    coordinates are integers of magnitude at most [2^24], for then no
    term of the identity is rounded. *)
Lemma EDM_integer_rounded_distance (A B : list (float * float)) (i j : nat)
    (a b : float * float) (xa ya xb yb : Z) :
  nth_error A i = Some a -> nth_error B j = Some b ->
  int_point xa ya a -> int_point xb yb b ->
  (Z.abs xa <= 2 ^ 24)%Z -> (Z.abs ya <= 2 ^ 24)%Z ->
  (Z.abs xb <= 2 ^ 24)%Z -> (Z.abs yb <= 2 ^ 24)%Z ->
  exists d : float,
    np.entry (EDM binary64 A B) i j = Some d /\
    (d =? np.round2 (naive_distance binary64 a b)) = true.
Proof.
  intros Ha Hb Pa Pb Bxa Bya Bxb Byb.
  exists (distance_at binary64 a b). split.
  - rewrite entry_EDM. unfold point in *. rewrite Ha, Hb. reflexivity.
  - apply (distance_at_int xa ya xb yb); assumption.
Qed.

(** ** The accuracy of one cell in binary64

    The points [(ax, ay)] and [(bx, by')] have coordinates of magnitude
    at most [2^26], lie at the exact distance [t >= 1/100], and satisfy
    [S <= 2^41 * t], where [S] is the exact value of
    [|a|^2 + |b|^2].  The inner product [p] is any finite binary64
    number within [3 * eps * (|ax * bx| + |ay * by'|) + 4 * eta] of the
    exact inner product: this holds for the two products rounded and
    then added ([plain_inner_product]), and it leaves room for an
    accumulation that rounds once less.  The computed radicand is then
    within [0.0035 * t] of [t^2], its square root within [0.0035] of
    [t], and the rounding to two decimals adds [0.005]. *)

Section Tolerance.
Import B64 B64_real B64_rounding B64_ops B64_float B64_bounds.
Local Open Scope R_scope.
Local Notation "'u52'" := (/ 4503599627370496) (only parsing).

Variables ax ay bx by' p : float.
Hypothesis Rax : in_range ax = true.
Hypothesis Ray : in_range ay = true.
Hypothesis Rbx : in_range bx = true.
Hypothesis Rby : in_range by' = true.

Let S : R := value ax * value ax + value ay * value ay
             + (value bx * value bx + value by' * value by').
Let T : R := (value ax - value bx) * (value ax - value bx)
             + (value ay - value by') * (value ay - value by').
Let t : R := R_sqrt.sqrt T.

Hypothesis Hfar : 1 / 100 <= t.
Hypothesis Hsep : S <= 2199023255552 * t.
Hypothesis Fp : finite p = true.
Hypothesis Hp :
  Rabs (value p - (value ax * value bx + value ay * value by'))
  <= 3 * eps * (Rabs (value ax * value bx) + Rabs (value ay * value by'))
     + 4 * eta.

Lemma cell_radicand :
  finite (ax * ax + ay * ay + (bx * bx + by' * by') + -2 * p)%float = true /\
  - (35 / 10000 * t)
  <= value (ax * ax + ay * ay + (bx * bx + by' * by') + -2 * p)%float - t * t
  <= 35 / 10000 * t.
Proof.
  destruct (in_range_value ax Rax) as [Fax Bax].
  destruct (in_range_value ay Ray) as [Fay Bay].
  destruct (in_range_value bx Rbx) as [Fbx Bbx].
  destruct (in_range_value by' Rby) as [Fby Bby].
  pose proof eta_pos as E0. pose proof eta_small as E1.
  assert (HT0 : 0 <= T).
  { pose proof (Rle_0_sqr (value ax - value bx)) as H1.
    pose proof (Rle_0_sqr (value ay - value by')) as H2.
    unfold Rsqr in H1, H2. unfold T. lra. }
  assert (Htt : t * t = T) by (apply sqrt_sqrt; exact HT0).
  destruct (product_bounds _ _ Bax Bbx) as (Hxx & Pa0 & Pa & Pa2).
  destruct (product_bounds _ _ Bay Bby) as (Hyy & Qa0 & Qa & Qa2).
  destruct (product_bounds _ _ Bbx Bax) as (Hxx' & _ & _ & _).
  destruct (product_bounds _ _ Bby Bay) as (Hyy' & _ & _ & _).
  rewrite eps_value in Hp. apply Rabs_bound in Hp.
  assert (ET : T = S - 2 * (value ax * value bx) - 2 * (value ay * value by'))
    by (unfold T, S; ring).
  assert (Ht28 : t <= 268435456).
  { assert (H : T <= 268435456 * 268435456) by (unfold S in ET; lra).
    apply sqrt_le_1_alt in H. rewrite sqrt_square in H by lra. exact H. }
  assert (HTt : T <= 268435456 * t).
  { rewrite <- Htt. apply Rmult_le_compat_r; lra. }
  destruct (mul_bound ax ax (value ax * value ax) Fax Fax) as (F1 & L1 & U1); [lra | lra |].
  destruct (mul_bound ay ay (value ay * value ay) Fay Fay) as (F2 & L2 & U2); [lra | lra |].
  destruct (mul_bound bx bx (value bx * value bx) Fbx Fbx) as (F3 & L3 & U3); [lra | lra |].
  destruct (mul_bound by' by' (value by' * value by') Fby Fby) as (F4 & L4 & U4); [lra | lra |].
  destruct (add_bound (ax * ax) (ay * ay) ((1 + u52) * (value ax * value ax + value ay * value ay) + 2 * eta) F1 F2)
    as (Fa & La & Ua); [lra | lra |].
  destruct (add_bound (bx * bx) (by' * by') ((1 + u52) * (value bx * value bx + value by' * value by') + 2 * eta) F3 F4)
    as (Fb & Lb & Ub); [lra | lra |].
  destruct (add_bound (ax * ax + ay * ay) (bx * bx + by' * by')
              ((1 + 3 * u52) * S + 8 * eta) Fa Fb)
    as (Fs & Ls & Us); [unfold S; lra | unfold S; lra |].
  destruct value_minus_two as [Fm2 Vm2].
  destruct (mul_bound (-2) p ((1 + 4 * u52) * S + 9 * eta) Fm2 Fp) as (Fm & Lm & Um);
    [rewrite Vm2; unfold S; lra | unfold S; lra |].
  rewrite Vm2 in Lm, Um.
  destruct (add_bound (ax * ax + ay * ay + (bx * bx + by' * by')) (-2 * p)
              (T + 8 * u52 * S + 20 * eta) Fs Fm)
    as (Fr & Lr & Ur);
    [unfold S in *; lra
    | clear - ET Hxx Hyy Hxx' Hyy' Pa Pa2 Qa Qa2 E0 E1; unfold S in *; lra |].
  split; [exact Fr |]. rewrite Htt. unfold S in *. lra.
Qed.


Lemma cell_naive :
  finite (naive_distance binary64 (ax, ay) (bx, by')) = true /\
  - (2 / 1000000) <= value (naive_distance binary64 (ax, ay) (bx, by')) - t
  <= 2 / 1000000.
Proof.
  cbn [naive_distance binary64 add sub mul sqrt fst snd].
  destruct (in_range_value ax Rax) as [Fax Bax].
  destruct (in_range_value ay Ray) as [Fay Bay].
  destruct (in_range_value bx Rbx) as [Fbx Bbx].
  destruct (in_range_value by' Rby) as [Fby Bby].
  pose proof eta_pos as E0. pose proof eta_small as E1.
  pose proof (Rle_0_sqr (value ax - value bx)) as A1.
  pose proof (Rle_0_sqr (value ay - value by')) as A2.
  unfold Rsqr in A1, A2.
  assert (HT0 : 0 <= T) by (unfold T; lra).
  assert (Htt : t * t = T) by (apply sqrt_sqrt; exact HT0).
  assert (Ht0 : 0 < t) by lra.
  assert (B1 : (value ax - value bx) * (value ax - value bx)
               <= 134217728 * 134217728).
  { apply Rsqr_le_abs_1 with (y := 134217728).
    rewrite (Rabs_pos_eq 134217728) by lra. apply Rabs_le. lra. }
  assert (B2 : (value ay - value by') * (value ay - value by')
               <= 134217728 * 134217728).
  { apply Rsqr_le_abs_1 with (y := 134217728).
    rewrite (Rabs_pos_eq 134217728) by lra. apply Rabs_le. lra. }
  assert (Ht28 : t <= 268435456).
  { assert (H : T <= 268435456 * 268435456) by (unfold T; lra).
    apply sqrt_le_1_alt in H. rewrite sqrt_square in H by lra. exact H. }
  assert (HTt : T <= 268435456 * t).
  { rewrite <- Htt. apply Rmult_le_compat_r; lra. }
  assert (HtT : t / 100 <= T).
  { rewrite <- Htt. replace (t / 100) with (1 / 100 * t) by field.
    apply Rmult_le_compat_r; lra. }
  assert (Dx : approx (ax - bx) (value ax - value bx)).
  { apply sub_approx; try assumption. apply big_le_bpow, Rabs_le. lra. }
  assert (Dy : approx (ay - by') (value ay - value by')).
  { apply sub_approx; try assumption. apply big_le_bpow, Rabs_le. lra. }
  destruct Dx as [Fdx Dx]. destruct Dy as [Fdy Dy]. rewrite eps_value in Dx, Dy.
  apply square_close in Dx; [| lra]. apply square_close in Dy; [| lra].
  pose proof (Rle_0_sqr (value (ax - bx))) as S1.
  pose proof (Rle_0_sqr (value (ay - by'))) as S2.
  unfold Rsqr in S1, S2.
  destruct (mul_bound (ax - bx) (ax - bx) (value (ax - bx) * value (ax - bx)) Fdx Fdx)
    as (F1 & L1 & U1); [lra | lra |].
  destruct (mul_bound (ay - by') (ay - by') (value (ay - by') * value (ay - by')) Fdy Fdy)
    as (F2 & L2 & U2); [lra | lra |].
  destruct (add_bound ((ax - bx) * (ax - bx)) ((ay - by') * (ay - by'))
              (2 * T + 1) F1 F2) as (Fn & Ln & Un);
    [unfold T; lra | unfold T; lra |].
  assert (En : - (1 / 1000000 * t)
               <= value ((ax - bx) * (ax - bx) + (ay - by') * (ay - by')) - t * t
               <= 1 / 1000000 * t).
  { rewrite Htt. unfold T in *. lra. }
  assert (Pn : 0 < value ((ax - bx) * (ax - bx) + (ay - by') * (ay - by'))).
  { rewrite Htt in En. lra. }
  pose proof (sqrt_close _ t (1 / 1000000) (Rlt_le _ _ Pn) Ht0 En) as Cn.
  destruct (sqrt_bound _ Fn Pn) as (Fq & Lq & Uq); [rewrite Htt in En; lra |].
  split; [exact Fq |]. lra.
Qed.

Lemma cell_distance :
  let d := np.round2 (PrimFloat.sqrt
             (ax * ax + ay * ay + (bx * bx + by' * by') + -2 * p))%float in
  finite d = true /\ - (86 / 10000) <= value d - t <= 86 / 10000.
Proof.
  intros d. unfold d. clear d.
  destruct cell_radicand as [Fr Er].
  set (r := (ax * ax + ay * ay + (bx * bx + by' * by') + -2 * p)%float) in *.
  pose proof eta_pos as E0. pose proof eta_small as E1.
  destruct (in_range_value ax Rax) as [_ Bax].
  destruct (in_range_value ay Ray) as [_ Bay].
  destruct (in_range_value bx Rbx) as [_ Bbx].
  destruct (in_range_value by' Rby) as [_ Bby].
  pose proof (Rle_0_sqr (value ax - value bx)) as A1.
  pose proof (Rle_0_sqr (value ay - value by')) as A2.
  unfold Rsqr in A1, A2.
  assert (B1 : (value ax - value bx) * (value ax - value bx)
               <= 134217728 * 134217728).
  { apply Rsqr_le_abs_1 with (y := 134217728).
    rewrite (Rabs_pos_eq 134217728) by lra. apply Rabs_le. lra. }
  assert (B2 : (value ay - value by') * (value ay - value by')
               <= 134217728 * 134217728).
  { apply Rsqr_le_abs_1 with (y := 134217728).
    rewrite (Rabs_pos_eq 134217728) by lra. apply Rabs_le. lra. }
  assert (HT0 : 0 <= T) by (unfold T; lra).
  assert (Htt : t * t = T) by (apply sqrt_sqrt; exact HT0).
  assert (Ht0 : 0 < t) by lra.
  assert (Ht28 : t <= 268435456).
  { assert (H : T <= 268435456 * 268435456) by (unfold T; lra).
    apply sqrt_le_1_alt in H. rewrite sqrt_square in H by lra. exact H. }
  assert (HtT : t / 100 <= T).
  { rewrite <- Htt. replace (t / 100) with (1 / 100 * t) by field.
    apply Rmult_le_compat_r; lra. }
  assert (HTB : T <= 268435456 * 268435456) by (unfold T; lra).
  assert (Pr : 0 < value r) by (rewrite Htt in Er; lra).
  pose proof (sqrt_close _ t (35 / 10000) (Rlt_le _ _ Pr) Ht0 Er) as Cr.
  destruct (sqrt_bound r Fr Pr) as (Fg & Lg & Ug); [rewrite Htt in Er; lra |].
  destruct (round2_bound (PrimFloat.sqrt r) 268435458 Fg) as (Fd & Ld & Ud);
    [lra | lra | lra |].
  split; [exact Fd |]. lra.
Qed.

Lemma cell_within_tolerance :
  let d := np.round2 (PrimFloat.sqrt
             (ax * ax + ay * ay + (bx * bx + by' * by') + -2 * p))%float in
  is_nan d = false /\
  within_tolerance d (naive_distance binary64 (ax, ay) (bx, by')) = true.
Proof.
  intros d. destruct cell_distance as [Fd Ed]. fold d in Fd, Ed.
  destruct cell_naive as [Fn En].
  set (n := naive_distance binary64 (ax, ay) (bx, by')) in *.
  split; [apply finite_not_nan; exact Fd |].
  pose proof eta_pos as E0. pose proof eta_small as E1.
  destruct (sub_bound d n (1 / 100) Fd Fn) as (Fw & Lw & Uw); [lra | lra |].
  destruct value_tolerance as [Ft Vt].
  unfold within_tolerance. apply leb_value.
  - rewrite finite_abs. exact Fw.
  - exact Ft.
  - rewrite value_abs. apply Rle_trans with (1 / 100); [| exact Vt].
    apply Rabs_le. lra.
Qed.

End Tolerance.

Section Plain.
Import B64 B64_real B64_rounding B64_ops B64_float B64_bounds.
Local Open Scope R_scope.
Local Notation "'u52'" := (/ 4503599627370496) (only parsing).

Lemma plain_inner_product (ax ay bx by' : float) :
  in_range ax = true -> in_range ay = true ->
  in_range bx = true -> in_range by' = true ->
  finite (ax * bx + ay * by')%float = true /\
  Rabs (value (ax * bx + ay * by')%float
        - (value ax * value bx + value ay * value by'))
  <= 3 * eps * (Rabs (value ax * value bx) + Rabs (value ay * value by'))
     + 4 * eta.
Proof.
  intros Rax Ray Rbx Rby.
  destruct (in_range_value ax Rax) as [Fax Bax].
  destruct (in_range_value ay Ray) as [Fay Bay].
  destruct (in_range_value bx Rbx) as [Fbx Bbx].
  destruct (in_range_value by' Rby) as [Fby Bby].
  pose proof eta_pos as E0. pose proof eta_small as E1.
  destruct (product_bounds _ _ Bax Bbx) as (Hxx & Pa0 & Pa & Pa2).
  destruct (product_bounds _ _ Bay Bby) as (Hyy & Qa0 & Qa & Qa2).
  destruct (product_bounds _ _ Bbx Bax) as (Hxx' & _ & _ & _).
  destruct (product_bounds _ _ Bby Bay) as (Hyy' & _ & _ & _).
  destruct (mul_bound ax bx (Rabs (value ax * value bx)) Fax Fbx)
    as (F1 & L1 & U1); [lra | lra |].
  destruct (mul_bound ay by' (Rabs (value ay * value by')) Fay Fby)
    as (F2 & L2 & U2); [lra | lra |].
  destruct (add_bound (ax * bx) (ay * by')
              ((1 + u52) * (Rabs (value ax * value bx) + Rabs (value ay * value by'))
               + 2 * eta) F1 F2) as (Fp & Lp & Up); [lra | lra |].
  split; [exact Fp |]. rewrite eps_value. apply Rabs_le. lra.
Qed.

End Plain.


Section Witness.
Import B64 B64_real B64_rounding B64_ops B64_float B64_bounds.
Local Open Scope R_scope.

Lemma value_finite (x : float) (s : bool) (m : positive) (k : positive) :
  Prim2SF x = S754_finite s m (Zneg k) ->
  value x = IZR (cond_Zopp s (Zpos m)) / IZR (Z.pow_pos 2 k).
Proof.
  intros E. unfold value. rewrite E. cbn [SF2R]. rewrite bpow_neg_pos.
  reflexivity.
Qed.

Lemma sample_values :
  value 693715.5 = 1387431 / 2 /\
  value 6092967.75 = 24371871 / 4 /\
  value 693779.5 = 1387559 / 2 /\
  value 6092999.5 = 12185999 / 2.
Proof.
  repeat apply conj.
  - rewrite (value_finite 693715.5%float false 5958970770456576 33 eq_refl).
    cbn [cond_Zopp]. change (Z.pow_pos 2 33) with 8589934592%Z. lra.
  - rewrite (value_finite 6092967.75%float false 6542274305458176 30 eq_refl).
    cbn [cond_Zopp]. change (Z.pow_pos 2 30) with 1073741824%Z. lra.
  - rewrite (value_finite 693779.5%float false 5959520526270464 33 eq_refl).
    cbn [cond_Zopp]. change (Z.pow_pos 2 33) with 8589934592%Z. lra.
  - rewrite (value_finite 6092999.5%float false 6542308396761088 30 eq_refl).
    cbn [cond_Zopp]. change (Z.pow_pos 2 30) with 1073741824%Z. lra.
Qed.


End Witness.

(** ** The scenarios of the specification *)

(** Scenario A: distance 50 < 100 and 900 < 1000 < 1100, one entry. *)
Example scenario_A :
  report_entries [track_point 0 0 1000] [exposure_site 50 0 900 1100] 100
  = [(0, 0)%nat] /\
  show_matches default_minimum_distance
    (world [track_point 0 0 1000] [exposure_site 50 0 900 1100])
  = (inr tt,
     printed (world [track_point 0 0 1000] [exposure_site 50 0 900 1100])
       [ExposuresFound; WithinDistance 100 "site" "Casual" 0%Z;
        FirstMatchingPoint 0 0 0%Z; ExposurePoint 0 50 0%Z 0%Z]).
Proof. vm_compute. split; reflexivity. Qed.

(** Scenario B: distance 50 is not below 40. *)
Example scenario_B :
  report_entries [track_point 0 0 1000] [exposure_site 50 0 900 1100] 40 = [].
Proof. vm_compute. reflexivity. Qed.

(** Scenario C: the track point precedes the arrival. *)
Example scenario_C :
  report_entries [track_point 0 0 800] [exposure_site 50 0 900 1100] 100 = [].
Proof. vm_compute. reflexivity. Qed.

(** Scenario D: two track points match one site; the lower index is
    reported. *)
Example scenario_D :
  match_candidates [track_point 0 0 1000; track_point 1 1 1001]
    [exposure_site 50 0 900 1100] 100 = [(0, 0)%nat; (1, 0)%nat] /\
  report_entries [track_point 0 0 1000; track_point 1 1 1001]
    [exposure_site 50 0 900 1100] 100 = [(0, 0)%nat].
Proof. vm_compute. split; reflexivity. Qed.

(** The boundaries: at the threshold distance, at the arrival instant
    and at the departure instant there is no match. *)
Example scenario_boundaries :
  report_entries [track_point 0 0 1000] [exposure_site 50 0 900 1100] 50 = [] /\
  report_entries [track_point 0 0 900] [exposure_site 50 0 900 1100] 100 = [] /\
  report_entries [track_point 0 0 1100] [exposure_site 50 0 900 1100] 100 = [].
Proof. vm_compute. repeat apply conj; reflexivity. Qed.
